(** * HouseLeagueCoach: the lineup engine and the game coordinator

    A shallow embedding of [src/utils/strictLineupGenerator.ts],
    [src/utils/lineupGenerator.ts] and [src/utils/gameManager.ts] (with the
    types of [src/types]), and the properties of the specification stated
    over it.

    Conventions of the embedding.
    - A JavaScript [number] stored in a field of the game (playing time,
      skill level, the four settings) is a rational [Qc]; every double is
      one.  There is no signed zero.
    - The result of an operation can leave the rationals; it has type
      [JS.number], the rationals extended with [NaN] and the two infinities.
    - Double precision.  [JS.double] rounds a rational to the nearest double,
      and [JS.fadd], [JS.fsub], [JS.fmul] and [JS.fdiv] are the operations of
      the engine, rounded.  The catch-up credit of a late player, the
      rotation balance of the strict selector and the skill balance of the
      weighted selector are computed with them, operation by operation, and
      their literals [0.7] and [0.33] are the doubles nearest to 7/10 and
      33/100.  The other computations (targets, differences, minutes added
      up, the scores of the weighted selector) are carried out exactly, in
      the rationals, and what is stated of them is stated of the exact
      values.
    - Objects are records and arrays are lists.  A method of [GameManager]
      that mutates [this.game] in place is a function from the game to the
      updated game.  A lineup holds the players themselves; the coordinator and
      the selector read nothing but [id] from the entries of a stored lineup,
      so the sharing between roster and lineup objects is not observable by
      the functions embedded here.  A lineup array can be held by more than
      one period, and a write into it shows in each of them: [Shared] keeps
      which array every period holds.
    - A call either returns or throws: [JS.completion]. *)

From Stdlib Require Import QArith Qcanon Qround.
From stdpp Require Import base numbers list strings gmap pretty sorting.

Local Open Scope Qc_scope.
Set Warnings "-clear-no-such-hyp".

(** ** Numbers *)

Module JS.

Inductive number : Type :=
| Fin (q : Qc)
| PosInf
| NegInf
| NaN.

#[global] Instance number_eq_dec : EqDecision number.
Proof. solve_decision. Defined.

Definition of_nat (n : nat) : Qc := Qc_of_Z (Z.of_nat n).

(** [Math.max(a, b)] on rationals. *)
Definition Qc_max (a b : Qc) : Qc := if decide (a ≤ b) then b else a.

Definition neg (x : number) : number :=
  match x with
  | Fin q => Fin (- q)
  | PosInf => NegInf
  | NegInf => PosInf
  | NaN => NaN
  end.

Definition add (x y : number) : number :=
  match x, y with
  | NaN, _ | _, NaN => NaN
  | Fin a, Fin b => Fin (a + b)
  | PosInf, NegInf | NegInf, PosInf => NaN
  | PosInf, _ | _, PosInf => PosInf
  | NegInf, _ | _, NegInf => NegInf
  end.

Definition sub (x y : number) : number := add x (neg y).

(** The sign of a rational decides what an infinity becomes when it is
    multiplied by it, or what a division by zero gives. *)
Definition signed (q : Qc) (pos neg zero : number) : number :=
  if decide (0 < q) then pos else if decide (q < 0) then neg else zero.

Definition mul (x y : number) : number :=
  match x, y with
  | NaN, _ | _, NaN => NaN
  | Fin a, Fin b => Fin (a * b)
  | PosInf, PosInf | NegInf, NegInf => PosInf
  | PosInf, NegInf | NegInf, PosInf => NegInf
  | PosInf, Fin q | Fin q, PosInf => signed q PosInf NegInf NaN
  | NegInf, Fin q | Fin q, NegInf => signed q NegInf PosInf NaN
  end.

(** [x / y].  Every divisor of the program is an array length or a
    [Math.min] of one, so a zero divisor is the positive zero. *)
Definition div (x y : number) : number :=
  match x, y with
  | NaN, _ | _, NaN => NaN
  | Fin a, Fin b =>
      if decide (b = 0) then signed a PosInf NegInf NaN else Fin (a / b)
  | Fin _, (PosInf | NegInf) => Fin 0
  | (PosInf | NegInf), (PosInf | NegInf) => NaN
  | PosInf, Fin b => if decide (b < 0) then NegInf else PosInf
  | NegInf, Fin b => if decide (b < 0) then PosInf else NegInf
  end.

(** [Math.max(x, y)]: [NaN] if either argument is. *)
Definition max (x y : number) : number :=
  match x, y with
  | NaN, _ | _, NaN => NaN
  | PosInf, _ | _, PosInf => PosInf
  | NegInf, z | z, NegInf => z
  | Fin a, Fin b => Fin (Qc_max a b)
  end.

(** [x > 0], as a sort comparator's result is tested. *)
Definition positive (x : number) : bool :=
  match x with
  | Fin q => bool_decide (0 < q)
  | PosInf => true
  | NegInf | NaN => false
  end.

(** [x <= y]; false as soon as one side is [NaN]. *)
Definition le (x y : number) : Prop :=
  match x, y with
  | NaN, _ | _, NaN => False
  | NegInf, _ | _, PosInf => True
  | Fin a, Fin b => a ≤ b
  | _, _ => False
  end.

Definition is_finite (x : number) : Prop :=
  match x with Fin _ => True | _ => False end.

(** [Math.min(...xs)] and [Math.max(...xs)] of a list of counts. *)
Definition min_list (xs : list nat) : number :=
  match xs with
  | [] => PosInf
  | x :: xs' => Fin (of_nat (foldr Nat.min x xs'))
  end.

Definition max_list (xs : list nat) : number :=
  match xs with
  | [] => NegInf
  | x :: xs' => Fin (of_nat (foldr Nat.max x xs'))
  end.

(** [Array.prototype.sort(cmp)]: a stable sort.  An element moves behind
    another one only when the comparator is positive on the pair. *)
Fixpoint insert_sorted {A} (cmp : A → A → number) (x : A) (l : list A) : list A :=
  match l with
  | [] => [x]
  | y :: l' =>
      if positive (cmp x y) then y :: insert_sorted cmp x l' else x :: l
  end.

Definition sort {A} (cmp : A → A → number) (l : list A) : list A :=
  foldr (insert_sorted cmp) [] l.

(** What a call does: it returns a value or throws. *)
Inductive completion (A : Type) : Type :=
| Returned (a : A)
| Thrown (error : string).
Arguments Returned {A} a.
Arguments Thrown {A} error.

(** [xs.splice(i, 1)] for an index [i] inside the array. *)
Definition splice1 {A} (i : nat) (l : list A) : list A := delete i l.

(** [xs.splice(xs.indexOf(x), 1)]: [indexOf] is [-1] when [x] is absent, and
    [splice(-1, 1)] then removes the last element. *)
Definition splice_indexOf {A} `{EqDecision A} (x : A) (l : list A) : list A :=
  match list_find (λ y, y = x) l with
  | Some (i, _) => splice1 i l
  | None => splice1 (pred (length l)) l
  end.

(** [Math.abs] *)
Definition Qc_abs (q : Qc) : Qc := if decide (q < 0) then - q else q.

Definition abs (x : number) : number :=
  match x with
  | Fin q => Fin (Qc_abs q)
  | PosInf | NegInf => PosInf
  | NaN => NaN
  end.

(** [x > y]; false as soon as one side is [NaN]. *)
Definition gt (x y : number) : bool :=
  match x, y with
  | NaN, _ | _, NaN => false
  | Fin a, Fin b => bool_decide (b < a)
  | PosInf, (Fin _ | NegInf) | Fin _, NegInf => true
  | _, _ => false
  end.

(** [Math.max(...xs)] of a list of stored numbers. *)
Definition max_of (xs : list Qc) : number :=
  match xs with
  | [] => NegInf
  | x :: xs' => Fin (foldr Qc_max x xs')
  end.

(** [x || 0] for the result of [Map.get]: [undefined], [NaN] and [0] are
    falsy. *)
Definition or_zero (x : option number) : number :=
  match x with
  | None | Some NaN => Fin 0
  | Some y => y
  end.

(** [Math.floor(x)] used as an array index, for [x] that is not negative. *)
Definition floor_index (x : Qc) : nat := Z.to_nat (Qfloor x).

(** An array whose entries can be [undefined]: reading outside the array
    gives [undefined], writing at or past its end extends it. *)
Definition read {A} (array : list (option A)) (i : nat) : option A :=
  mjoin (array !! i).

Definition write {A} (array : list (option A)) (i : nat) (v : option A)
    : list (option A) :=
  if decide (i < length array)%nat then <[i := v]> array
  else array ++ replicate (i - length array) None ++ [v].

(** ** Double precision

    What the engine computes is a double (IEEE 754 binary64), the exact result
    rounded to the nearest double, a tie going to the even one.  Every double
    is a rational: [double q] is the double nearest to the rational [q], or an
    infinity when [q] is out of range. *)

(** [n / d] rounded to the nearest whole number, a tie to the even one, for
    [0 <= n] and [0 < d]. *)
Definition nearest (n d : Z) : Z :=
  let q := (n / d)%Z in
  let r := (n mod d)%Z in
  if (2 * r <? d)%Z then q
  else if (d <? 2 * r)%Z then (q + 1)%Z
  else if Z.even q then q else (q + 1)%Z.

(** The binary exponent of the last place of the double nearest to [n / d],
    for [0 < n] and [0 < d]: 52 places below the leading one, and never
    below -1074, where the subnormal numbers end. *)
Definition last_place (n d : Z) : Z :=
  let e := (Z.log2 n - Z.log2 d)%Z in
  let e := if (n * 2 ^ Z.max 0 (- e) <? d * 2 ^ Z.max 0 e)%Z
           then (e - 1)%Z else e in
  Z.max (e - 52) (-1074).

Definition double_pos (n d : Z) : number :=
  let x := last_place n d in
  let m := nearest (n * 2 ^ Z.max 0 (- x)) (d * 2 ^ Z.max 0 x) in
  if (2 ^ 1024 * 2 ^ Z.max 0 (- x) <=? m * 2 ^ Z.max 0 x)%Z then PosInf
  else Fin (Q2Qc (Qmake (m * 2 ^ Z.max 0 x) (Z.to_pos (2 ^ Z.max 0 (- x))))).

Definition double (q : Qc) : number :=
  let n := Qnum q in
  let d := Zpos (Qden q) in
  if (0 <? n)%Z then double_pos n d
  else if (n <? 0)%Z then neg (double_pos (- n) d)
  else Fin 0.

(** The result of an operation, rounded as the engine rounds it. *)
Definition rounded (x : number) : number :=
  match x with
  | Fin q => double q
  | _ => x
  end.

Definition fadd (x y : number) : number := rounded (add x y).
Definition fsub (x y : number) : number := rounded (sub x y).
Definition fmul (x y : number) : number := rounded (mul x y).
Definition fdiv (x y : number) : number := rounded (div x y).

(** A decimal literal of the program, such as [0.7]: the double nearest to
    it. *)
Definition literal (q : Q) : number := double (Q2Qc q).

End JS.

(** ** Data model ([src/types]) *)

Inductive Position : Type := Guard | Forward | Center | Any.

#[global] Instance Position_eq_dec : EqDecision Position.
Proof. solve_decision. Defined.

Definition Position_code (p : Position) : nat :=
  match p with Guard => 0 | Forward => 1 | Center => 2 | Any => 3 end.

#[global] Instance Position_countable : Countable Position.
Proof.
  apply (inj_countable' Position_code
           (λ n, match n with
                 | 0 => Guard | 1 => Forward | 2 => Center | _ => Any
                 end)).
  by intros [].
Defined.

Module Player.
Record t : Type := mk {
  id : string;
  name : string;
  jerseyNumber : Qc;
  skillLevel : Qc;
  position : Position;
  isPresent : bool;
  totalPlayingTime : Qc
}.

#[global] Instance eq_dec : EqDecision t.
Proof. solve_decision. Defined.

Definition set_isPresent (b : bool) (p : t) : t :=
  mk (id p) (name p) (jerseyNumber p) (skillLevel p) (position p) b
     (totalPlayingTime p).

Definition set_totalPlayingTime (m : Qc) (p : t) : t :=
  mk (id p) (name p) (jerseyNumber p) (skillLevel p) (position p)
     (isPresent p) m.
End Player.

Module GameSettings.
Record t : Type := mk {
  periodsCount : Qc;
  periodDuration : Qc;
  overtimePeriods : Qc;
  playersOnCourt : Qc
}.

(** [Partial<GameSettings>]: a key is there or not. *)
Record partial : Type := mkPartial {
  periodsCount' : option Qc;
  periodDuration' : option Qc;
  overtimePeriods' : option Qc;
  playersOnCourt' : option Qc
}.
End GameSettings.

Module Period.
Record t : Type := mk {
  id : string;
  number : nat;
  lineup : list Player.t;
  isCompleted : bool;
  actualDuration : option Qc
}.

Definition set_lineup (l : list Player.t) (p : t) : t :=
  mk (id p) (number p) l (isCompleted p) (actualDuration p).
End Period.

Module LineupSuggestion.
Record t : Type := mk {
  players : list Player.t;
  averageSkillLevel : JS.number;
  playingTimeBalance : JS.number;
  positionBalance : JS.number
}.
End LineupSuggestion.

(** The fields of [Game] the coordinator reads or writes ([id], [teamId],
  [date] and [isActive] are carried along untouched by every method). *)
Module Game.
Record t : Type := mk {
  settings : GameSettings.t;
  roster : list Player.t;
  periods : list Period.t
}.
End Game.

(** ** The strict rotation selector ([src/utils/strictLineupGenerator.ts]) *)

Module StrictLineupGenerator.

Record t : Type := mk {
  players : list Player.t;
  settings : GameSettings.t;
  existingPeriods : list Period.t
}.

(** The constructor keeps the present players only. *)
Definition new (players : list Player.t) (settings : GameSettings.t)
    (existingPeriods : list Period.t) : t :=
  mk (filter (λ p, Player.isPresent p = true) players) settings existingPeriods.

(** [counts.get(id) || 0] *)
Definition get (counts : gmap string nat) (id : string) : nat :=
  default 0%nat (counts !! id).

(** One more period for the player [id]. *)
Definition bump (counts : gmap string nat) (p : Player.t) : gmap string nat :=
  <[Player.id p := (get counts (Player.id p) + 1)%nat]> counts.

Definition calculatePeriodCounts (this : t) : gmap string nat :=
  let counts :=
    foldl (λ counts p, <[Player.id p := 0%nat]> counts) ∅ (players this) in
  foldl (λ counts period,
           if Period.isCompleted period
           then foldl bump counts (Period.lineup period)
           else counts)
        counts (existingPeriods this).

Definition selectBestFromTied (tiedPlayers currentLineup : list Player.t)
    : JS.completion Player.t :=
  let currentPositions := map Player.position currentLineup in
  match list_find (λ p, Player.position p ≠ Any
                        ∧ Player.position p ∉ currentPositions) tiedPlayers with
  | Some (_, player) => JS.Returned player
  | None =>
      match tiedPlayers with
      | [] => JS.Thrown "TypeError: Reduce of empty array with no initial value"
      | first :: others =>
          JS.Returned (foldl (λ best current,
                         if decide (Player.skillLevel best < Player.skillLevel current)
                         then current else best)
                      first others)
      end
  end.

(** The comparator of the initial sort: fewer periods first, then the higher
    skill. *)
Definition rotationOrder (periodCounts : gmap string nat) (a b : Player.t)
    : JS.number :=
  let aCount := get periodCounts (Player.id a) in
  let bCount := get periodCounts (Player.id b) in
  if decide (aCount ≠ bCount)
  then JS.Fin (JS.of_nat aCount - JS.of_nat bCount)
  else JS.Fin (Player.skillLevel b - Player.skillLevel a).

(** The [while] loop of [generateStrictRotationLineup].  Every turn removes
    one element of [available], so [length available] turns are enough;
    [fuel] bounds the number of turns. *)
Fixpoint fillLineup (fuel : nat) (playersOnCourt : Qc)
    (periodCounts : gmap string nat) (lineup available : list Player.t)
    : JS.completion (list Player.t) :=
  match fuel with
  | O => JS.Returned lineup
  | S fuel' =>
      match available with
      | [] => JS.Returned lineup
      | first :: others =>
          if decide (JS.of_nat (length lineup) < playersOnCourt) then
            let minPeriods :=
              foldr Nat.min (get periodCounts (Player.id first))
                    (map (λ p, get periodCounts (Player.id p)) others) in
            let minPlayers :=
              filter (λ p, get periodCounts (Player.id p) = minPeriods)
                     available in
            match
              match minPlayers with
              | [only] => JS.Returned only
              | _ => selectBestFromTied minPlayers lineup
              end
            with
            | JS.Thrown error => JS.Thrown error
            | JS.Returned selectedPlayer =>
                fillLineup fuel' playersOnCourt periodCounts
                  (lineup ++ [selectedPlayer])
                  (JS.splice_indexOf selectedPlayer available)
            end
          else JS.Returned lineup
      end
  end.

Definition generateStrictRotationLineup (this : t)
    (periodCounts : gmap string nat) : JS.completion (list Player.t) :=
  let sortedPlayers := JS.sort (rotationOrder periodCounts) (players this) in
  fillLineup (length sortedPlayers)
    (GameSettings.playersOnCourt (settings this)) periodCounts [] sortedPlayers.

(** The counts are whole numbers and so is their difference; the product
    with [0.33] and what is left of 1 are rounded. *)
Definition calculateRotationBalance (periodCounts : gmap string nat)
    (proposedLineup : list Player.t) : JS.number :=
  let projectedCounts := foldl bump periodCounts proposedLineup in
  let counts := (map_to_list projectedCounts).*2 in
  let minCount := JS.min_list counts in
  let maxCount := JS.max_list counts in
  let difference := JS.sub maxCount minCount in
  JS.max (JS.Fin 0)
    (JS.fsub (JS.Fin 1) (JS.fmul difference (JS.literal (33 # 100)))).

(** The same method is in [src/utils/lineupGenerator.ts]. *)
Definition calculatePositionBalance (lineup : list Player.t) : JS.number :=
  let positions := map Player.position lineup in
  let uniquePositions :=
    size (list_to_set (filter (λ p, p ≠ Any) positions) : gset Position) in
  let maxPossiblePositions := Nat.min 3 (length lineup) in
  JS.div (JS.Fin (JS.of_nat uniquePositions))
         (JS.Fin (JS.of_nat maxPossiblePositions)).

Definition generateOptimalLineup (this : t)
    : JS.completion LineupSuggestion.t :=
  let periodCounts := calculatePeriodCounts this in
  match generateStrictRotationLineup this periodCounts with
  | JS.Thrown error => JS.Thrown error
  | JS.Returned lineup =>
      JS.Returned (LineupSuggestion.mk lineup
              (JS.div
                 (JS.Fin (foldl (λ sum p, sum + Player.skillLevel p) 0 lineup))
                 (JS.Fin (JS.of_nat (length lineup))))
              (calculateRotationBalance periodCounts lineup)
              (calculatePositionBalance lineup))
  end.

(** An entry of [debugPeriodDistribution]. *)
Module DebugEntry.
Record t : Type := mk {
  playerId : string;
  name : string;
  periods : nat
}.
End DebugEntry.

Definition debugPeriodDistribution (this : t) : list DebugEntry.t :=
  let periodCounts := calculatePeriodCounts this in
  JS.sort (λ a b, JS.Fin (JS.of_nat (DebugEntry.periods a)
                          - JS.of_nat (DebugEntry.periods b)))
    (map (λ player,
            DebugEntry.mk (Player.id player) (Player.name player)
              (get periodCounts (Player.id player)))
         (players this)).

End StrictLineupGenerator.

(** ** The weighted selector ([src/utils/lineupGenerator.ts])

    Three things are the engine's and not the program's: the values
    [Math.random()] returns, [Math.pow(x, 0.5)], which leaves the rationals,
    and the order [Array.prototype.sort] produces for the comparator of
    [generateCandidateLineups], which is not a consistent one (players 0,
    0.06 and 0.12 minutes apart with rising skill levels are ordered in a
    cycle), so that the language leaves the order to the engine.  They are
    the variables of the section below.  The methods that draw random
    numbers are functions of the number of draws made so far and return the
    new number with their result.

    The divisors of this file are array lengths, the literal 4,
    [maxPlayingTime] where it is positive, and [periodDuration], a stored
    number, whose zero is the positive one. *)

Module LineupGenerator.

Record t : Type := mk {
  players : list Player.t;
  settings : GameSettings.t;
  existingPeriods : list Period.t
}.

Definition new (players : list Player.t) (settings : GameSettings.t)
    (existingPeriods : list Period.t) : t :=
  mk (filter (λ p, Player.isPresent p = true) players) settings existingPeriods.

Definition calculatePlayingTimeTargets (this : t) : gmap string JS.number :=
  let totalGameTime :=
    GameSettings.periodsCount (settings this)
    * GameSettings.periodDuration (settings this) in
  let presentPlayers := length (players this) in
  let playersPerPeriod := GameSettings.playersOnCourt (settings this) in
  let targetTimePerPlayer :=
    JS.div (JS.Fin (totalGameTime * playersPerPeriod))
           (JS.Fin (JS.of_nat presentPlayers)) in
  foldl (λ targets player,
           <[Player.id player :=
               JS.sub targetTimePerPlayer
                      (JS.Fin (Player.totalPlayingTime player))]> targets)
        ∅ (players this).

(** The comparator of [generateCandidateLineups]: the higher skill first
    when the playing times are less than 0.1 apart, the lower playing time
    first otherwise. *)
Definition candidateOrder (a b : Player.t) : JS.number :=
  let timeDiff := Player.totalPlayingTime a - Player.totalPlayingTime b in
  if decide (JS.Qc_abs timeDiff < Q2Qc (1 # 10))
  then JS.Fin (Player.skillLevel b - Player.skillLevel a)
  else JS.Fin timeDiff.

(** The score [selectNextPlayer] gives to an available player. *)
Definition playerScore (this : t) (currentSkillSum : Qc)
    (positions : list Position) (player : Player.t) : JS.number :=
  let score := JS.Fin 0 in
  let maxPlayingTime := JS.max_of (map Player.totalPlayingTime (players this)) in
  let playingTimeScore :=
    if JS.positive maxPlayingTime
    then JS.div (JS.sub maxPlayingTime (JS.Fin (Player.totalPlayingTime player)))
                maxPlayingTime
    else JS.Fin 1 in
  let score := JS.add score (JS.mul playingTimeScore (JS.Fin (Q2Qc 10))) in
  let score :=
    if decide (Player.position player ≠ Any
               ∧ Player.position player ∉ positions)
    then JS.add score (JS.Fin (Q2Qc (3 # 2)))
    else score in
  let teamAvgSkill :=
    JS.div (JS.Fin (foldl (λ sum p, sum + Player.skillLevel p) 0 (players this)))
           (JS.Fin (JS.of_nat (length (players this)))) in
  let targetSkillSum :=
    JS.mul teamAvgSkill (JS.Fin (GameSettings.playersOnCourt (settings this))) in
  let skillDifference :=
    JS.abs (JS.sub (JS.Fin (currentSkillSum + Player.skillLevel player))
                   targetSkillSum) in
  JS.add score
    (JS.mul (JS.sub (JS.Fin (Q2Qc 5)) skillDifference) (JS.Fin (Q2Qc (3 # 10)))).

(** [null] is [None]. *)
Definition selectNextPlayer (this : t) (available currentLineup : list Player.t)
    : option Player.t :=
  match available with
  | [] => None
  | first :: _ =>
      let currentSkillSum :=
        foldl (λ sum p, sum + Player.skillLevel p) 0 currentLineup in
      let positions := map Player.position currentLineup in
      Some (fst (foldl (λ best player,
                          let score :=
                            playerScore this currentSkillSum positions player in
                          if JS.gt score (snd best) then (player, score)
                          else best)
                       (first, JS.Fin (- Q2Qc 1)) available))
  end.

(** The [while] loop of [createGreedyLineup].  Every turn removes one element
    of [available], so [length available] turns are enough; [fuel] bounds the
    number of turns. *)
Fixpoint greedyLoop (fuel : nat) (this : t) (lineup available : list Player.t)
    : list Player.t :=
  match fuel with
  | O => lineup
  | S fuel' =>
      if decide (JS.of_nat (length lineup)
                 < GameSettings.playersOnCourt (settings this))
      then
        match available with
        | [] => lineup
        | _ :: _ =>
            match selectNextPlayer this available lineup with
            | Some nextPlayer =>
                greedyLoop fuel' this (lineup ++ [nextPlayer])
                  (JS.splice_indexOf nextPlayer available)
            | None => lineup
            end
        end
      else lineup
  end.

(** [groupByPosition] reads the position of every entry: it throws on an
    entry that is [undefined]. *)
Definition groupByPosition (players : list (option Player.t))
    : JS.completion (gmap Position (list Player.t)) :=
  foldl (λ groups entry,
           match groups, entry with
           | JS.Thrown error, _ => JS.Thrown error
           | JS.Returned _, None =>
               JS.Thrown "TypeError: Cannot read properties of undefined (reading 'position')"
           | JS.Returned groups, Some player =>
               JS.Returned
                 (<[Player.position player :=
                      default [] (groups !! Player.position player) ++ [player]]>
                    groups)
           end)
        (JS.Returned ∅) players.

Definition calculatePositionBalance (lineup : list Player.t) : JS.number :=
  let positions := map Player.position lineup in
  let uniquePositions :=
    size (list_to_set (filter (λ p, p ≠ Any) positions) : gset Position) in
  let maxPossiblePositions := Nat.min 3 (length lineup) in
  JS.div (JS.Fin (JS.of_nat uniquePositions))
         (JS.Fin (JS.of_nat maxPossiblePositions)).

(** Every operation is rounded; [Math.pow(x, 2)] is the rounded [x * x]. *)
Definition calculateSkillBalance (lineup : list Player.t) : JS.number :=
  let skills := map Player.skillLevel lineup in
  let avg :=
    JS.fdiv (foldl (λ sum skill, JS.fadd sum (JS.Fin skill)) (JS.Fin 0) skills)
            (JS.Fin (JS.of_nat (length skills))) in
  let variance :=
    JS.fdiv (foldl (λ sum skill,
                      JS.fadd sum (JS.fmul (JS.fsub (JS.Fin skill) avg)
                                           (JS.fsub (JS.Fin skill) avg)))
                   (JS.Fin 0) skills)
            (JS.Fin (JS.of_nat (length skills))) in
  JS.max (JS.Fin 0)
    (JS.fsub (JS.Fin (Q2Qc 1)) (JS.fdiv variance (JS.Fin (Q2Qc 4)))).

(** Computations that draw random numbers and can throw. *)
Definition M (A : Type) : Type := nat → JS.completion (A * nat).

Definition ret {A} (a : A) : M A := λ draws, JS.Returned (a, draws).

Definition bind {A B} (m : M A) (f : A → M B) : M B :=
  λ draws,
    match m draws with
    | JS.Returned (a, draws') => f a draws'
    | JS.Thrown error => JS.Thrown error
    end.

Definition lift {A} (c : JS.completion A) : M A :=
  λ draws,
    match c with
    | JS.Returned a => JS.Returned (a, draws)
    | JS.Thrown error => JS.Thrown error
    end.

Notation "'let*' x ':=' m 'in' f" := (bind m (λ x, f))
  (at level 10, x name, m at level 100, f at level 200).

Section Engine.

(** [random n] is what the call of [Math.random()] after [n] earlier ones
    returns, [powHalf x] is [Math.pow(x, 0.5)], and [arraySort cmp xs] the
    array that [xs.sort(cmp)] leaves. *)
Variable random : nat → Qc.
Variable powHalf : JS.number → JS.number.
Variable arraySort :
  (Player.t → Player.t → JS.number) → list Player.t → list Player.t.

Definition mathRandom : M Qc := λ draws, JS.Returned (random draws, S draws).

(** [turns] turns of the loop of [shuffleArray], each one exchanging the
    first entry with the one at a random index. *)
Fixpoint shuffleTurns (turns : nat) (array : list (option Player.t))
    : M (list (option Player.t)) :=
  match turns with
  | O => ret array
  | S turns' =>
      let* r := mathRandom in
      let randomIndex := JS.floor_index (r * JS.of_nat (length array)) in
      let temp := JS.read array 0 in
      let array := JS.write array 0 (JS.read array randomIndex) in
      let array := JS.write array randomIndex temp in
      shuffleTurns turns' array
  end.

Definition shuffleArray (array : list (option Player.t)) (seed : nat)
    : M (list (option Player.t)) :=
  shuffleTurns (Nat.min 3 seed) array.

(** Once [groupByPosition] has returned, no entry of [available] is
    [undefined]: the loop works on the players themselves. *)
Definition createGreedyLineup (this : t) (players : list Player.t)
    (variation : nat) : M (list Player.t) :=
  let lineup := [] in
  let available := Some <$> players in
  let* available :=
    if decide (0 < variation)%nat then shuffleArray available variation
    else ret available in
  let* positionGroups := lift (groupByPosition available) in
  ret (greedyLoop (length available) this lineup (omap id available)).

(** The [for] loop of [generateCandidateLineups], [count] turns from
    [attempt] on. *)
Fixpoint candidateTurns (count : nat) (this : t) (playersArray : list Player.t)
    (attempt : nat) (candidates : list (list Player.t))
    : M (list (list Player.t)) :=
  match count with
  | O => ret candidates
  | S count' =>
      let* lineup := createGreedyLineup this playersArray attempt in
      candidateTurns count' this playersArray (S attempt)
        (if decide (JS.of_nat (length lineup)
                    = GameSettings.playersOnCourt (settings this))
         then candidates ++ [lineup] else candidates)
  end.

Definition generateCandidateLineups (this : t) : M (list (list Player.t)) :=
  let candidates := [] in
  let playersArray := arraySort candidateOrder (players this) in
  candidateTurns 15 this playersArray 0 candidates.

Definition calculatePlayingTimeBalance (this : t) (lineup : list Player.t)
    (targets : gmap string JS.number) : JS.number :=
  let deviations :=
    map (λ player,
           let target := JS.or_zero (targets !! Player.id player) in
           JS.abs (JS.sub target
                     (JS.Fin (GameSettings.periodDuration (settings this)))))
        lineup in
  let averageDeviation :=
    JS.div (foldl (λ sum dev, JS.add sum dev) (JS.Fin 0) deviations)
           (JS.Fin (JS.of_nat (length deviations))) in
  let normalizedDeviation :=
    JS.div averageDeviation
           (JS.Fin (GameSettings.periodDuration (settings this))) in
  JS.max (JS.Fin 0) (JS.sub (JS.Fin (Q2Qc 1)) (powHalf normalizedDeviation)).

Definition evaluateLineup (this : t) (lineup : list Player.t)
    (playingTimeTargets : gmap string JS.number) : JS.number :=
  let playingTimeBalance :=
    calculatePlayingTimeBalance this lineup playingTimeTargets in
  let positionBalance := calculatePositionBalance lineup in
  let skillBalance := calculateSkillBalance lineup in
  JS.add (JS.add (JS.mul playingTimeBalance (JS.Fin (Q2Qc (75 # 100))))
                 (JS.mul positionBalance (JS.Fin (Q2Qc (15 # 100)))))
         (JS.mul skillBalance (JS.Fin (Q2Qc (1 # 10)))).

(** [candidates[0]] is [undefined] for an empty array, and reading
    [bestLineup.reduce] then throws. *)
Definition selectBestLineup (this : t) (candidates : list (list Player.t))
    (playingTimeTargets : gmap string JS.number)
    : JS.completion LineupSuggestion.t :=
  let best :=
    foldl (λ best lineup,
             let score := evaluateLineup this lineup playingTimeTargets in
             if JS.gt score (snd best) then (Some lineup, score) else best)
          (head candidates, JS.Fin (- Q2Qc 1)) candidates in
  match fst best with
  | None =>
      JS.Thrown "TypeError: Cannot read properties of undefined (reading 'reduce')"
  | Some bestLineup =>
      JS.Returned
        (LineupSuggestion.mk bestLineup
           (JS.div
              (JS.Fin (foldl (λ sum p, sum + Player.skillLevel p) 0 bestLineup))
              (JS.Fin (JS.of_nat (length bestLineup))))
           (calculatePlayingTimeBalance this bestLineup playingTimeTargets)
           (calculatePositionBalance bestLineup))
  end.

Definition generateOptimalLineup (this : t) : M LineupSuggestion.t :=
  let playingTimeTargets := calculatePlayingTimeTargets this in
  let* candidates := generateCandidateLineups this in
  lift (selectBestLineup this candidates playingTimeTargets).

End Engine.

End LineupGenerator.

(** ** The game coordinator ([src/utils/gameManager.ts]) *)

Module GameManager.

(** An entry of the playing-time report. *)
Record TimeReportEntry : Type := mkEntry {
  player : Player.t;
  minutes : Qc;
  target : JS.number;
  difference : JS.number
}.

(** [roster.find(p => p.id === playerId)] with the index of the player found,
    which stands for the reference the method then writes through. *)
Definition findPlayer (playerId : string) (roster : list Player.t)
    : option (nat * Player.t) :=
  list_find (λ p, Player.id p = playerId) roster.

Definition findPeriod (periodId : string) (periods : list Period.t)
    : option (nat * Period.t) :=
  list_find (λ p, Period.id p = periodId) periods.

(** [roster.filter(p => p.isPresent)] and [periods.filter(p => p.isCompleted)] *)
Definition presentRoster (game : Game.t) : list Player.t :=
  filter (λ p, Player.isPresent p = true) (Game.roster game).

Definition completedHistory (game : Game.t) : list Period.t :=
  filter (λ p, Period.isCompleted p = true) (Game.periods game).

Definition markPlayerPresent (game : Game.t) (playerId : string)
    (isPresent : bool) : Game.t :=
  match findPlayer playerId (Game.roster game) with
  | Some (i, player) =>
      Game.mk (Game.settings game)
        (<[i := Player.set_isPresent isPresent player]> (Game.roster game))
        (Game.periods game)
  | None => game
  end.

(** [calculateCatchUpTime(player)], the player being the roster entry at
    index [i].  The product, the quotient and the two products that follow
    are rounded one after the other, as the engine rounds them.  The fields
    of the model hold rationals: the result is [None] when the value the
    method would store is not one (an infinity, when the settings are out of
    the range of the doubles). *)
Definition calculateCatchUpTime (game : Game.t) (i : nat) : option Game.t :=
  let completedPeriods := length (completedHistory game) in
  if decide (completedPeriods = 0%nat) then Some game else
  let presentPlayers := length (presentRoster game) in
  let averageTimePerPeriod :=
    JS.fdiv
      (JS.fmul (JS.Fin (GameSettings.periodDuration (Game.settings game)))
               (JS.Fin (GameSettings.playersOnCourt (Game.settings game))))
      (JS.Fin (JS.of_nat presentPlayers)) in
  let expectedTime :=
    JS.fmul averageTimePerPeriod (JS.Fin (JS.of_nat completedPeriods)) in
  match JS.max (JS.Fin 0) (JS.fmul expectedTime (JS.literal (7 # 10))) with
  | JS.Fin credit =>
      Some (Game.mk (Game.settings game)
              (alter (Player.set_totalPlayingTime credit) i (Game.roster game))
              (Game.periods game))
  | _ => None
  end.

Definition addLatePlayer (game : Game.t) (playerId : string) : option Game.t :=
  match findPlayer playerId (Game.roster game) with
  | Some (i, player) =>
      calculateCatchUpTime
        (Game.mk (Game.settings game)
           (<[i := Player.set_isPresent true player]> (Game.roster game))
           (Game.periods game))
        i
  | None => Some game
  end.

Definition generateNextLineup (game : Game.t)
    : JS.completion LineupSuggestion.t :=
  StrictLineupGenerator.generateOptimalLineup
    (StrictLineupGenerator.new (Game.roster game) (Game.settings game)
       (Game.periods game)).

(** [createPeriodFromSuggestion(suggestion)].  The lineup of the period is
    the array [suggestion.players] itself: here its contents, and in
    [Shared.createPeriodFromSuggestion] the array as well. *)
Definition createPeriodFromSuggestion (game : Game.t)
    (suggestion : LineupSuggestion.t) : Period.t :=
  let nextPeriodNumber := (length (Game.periods game) + 1)%nat in
  Period.mk ("period-" +:+ pretty nextPeriodNumber) nextPeriodNumber
    (LineupSuggestion.players suggestion) false None.

(** [gamePlayer.totalPlayingTime += duration] for the roster player with the
    id of a lineup entry. *)
Definition creditPlayer (duration : Qc) (roster : list Player.t)
    (player : Player.t) : list Player.t :=
  match findPlayer (Player.id player) roster with
  | Some (i, gamePlayer) =>
      <[i := Player.set_totalPlayingTime
               (Player.totalPlayingTime gamePlayer + duration) gamePlayer]>
        roster
  | None => roster
  end.

(** [actualDuration || periodDuration]: an omitted duration and a zero one
    are both falsy. *)
Definition durationOrDefault (actualDuration : option Qc) (periodDuration : Qc)
    : Qc :=
  match actualDuration with
  | Some d => if decide (d = 0) then periodDuration else d
  | None => periodDuration
  end.

Definition completePeriod (game : Game.t) (periodId : string)
    (actualDuration : option Qc) : Game.t :=
  match findPeriod periodId (Game.periods game) with
  | Some (k, period) =>
      let duration :=
        durationOrDefault actualDuration
          (GameSettings.periodDuration (Game.settings game)) in
      let period' :=
        Period.mk (Period.id period) (Period.number period)
          (Period.lineup period) true (Some duration) in
      Game.mk (Game.settings game)
        (foldl (creditPlayer duration) (Game.roster game) (Period.lineup period))
        (<[k := period']> (Game.periods game))
  | None => game
  end.

(** [swapPlayers(periodId, playerOutId, playerInId)], with the write
    [period.lineup[playerOutIndex] = playerIn] as the period found sees it.
    What the periods that hold the same array see is in
    [Shared.swapPlayers]. *)
Definition swapPlayers (game : Game.t) (periodId playerOutId playerInId : string)
    : Game.t * bool :=
  match findPeriod periodId (Game.periods game) with
  | None => (game, false)
  | Some (k, period) =>
      if Period.isCompleted period then (game, false) else
      let playerOutIndex :=
        list_find (λ p, Player.id p = playerOutId) (Period.lineup period) in
      let playerIn :=
        list_find (λ p, Player.id p = playerInId ∧ Player.isPresent p = true)
                  (Game.roster game) in
      match playerOutIndex, playerIn with
      | Some (i, _), Some (_, playerIn) =>
          if decide (Exists (λ p, Player.id p = playerInId) (Period.lineup period))
          then (game, false)
          else
            (Game.mk (Game.settings game) (Game.roster game)
               (<[k := Period.set_lineup (<[i := playerIn]> (Period.lineup period))
                         period]> (Game.periods game)),
             true)
      | _, _ => (game, false)
      end
  end.

Definition getPlayingTimeReport (game : Game.t)
    : JS.completion (list TimeReportEntry) :=
  let totalGameTime :=
    GameSettings.periodsCount (Game.settings game)
    * GameSettings.periodDuration (Game.settings game) in
  let presentPlayers := length (presentRoster game) in
  let playersPerPeriod := GameSettings.playersOnCourt (Game.settings game) in
  let targetTimePerPlayer :=
    JS.div (JS.Fin (totalGameTime * playersPerPeriod))
           (JS.Fin (JS.of_nat presentPlayers)) in
  JS.Returned
    (JS.sort (λ a b, JS.sub (difference a) (difference b))
       (map (λ player,
               mkEntry player (Player.totalPlayingTime player)
                 targetTimePerPlayer
                 (JS.sub (JS.Fin (Player.totalPlayingTime player))
                         targetTimePerPlayer))
            (presentRoster game))).

(** [{ ...settings, ...newSettings }] *)
Definition updateGameSettings (game : Game.t)
    (newSettings : GameSettings.partial) : Game.t :=
  let old := Game.settings game in
  Game.mk
    (GameSettings.mk
       (default (GameSettings.periodsCount old)
                (GameSettings.periodsCount' newSettings))
       (default (GameSettings.periodDuration old)
                (GameSettings.periodDuration' newSettings))
       (default (GameSettings.overtimePeriods old)
                (GameSettings.overtimePeriods' newSettings))
       (default (GameSettings.playersOnCourt old)
                (GameSettings.playersOnCourt' newSettings)))
    (Game.roster game) (Game.periods game).

(** [startPeriod]: the period is looked up and nothing is done with it. *)
Definition startPeriod (game : Game.t) (periodId : string) : Game.t :=
  match findPeriod periodId (Game.periods game) with
  | Some (_, period) => if Period.isCompleted period then game else game
  | None => game
  end.

(** An entry of the period report. *)
Module PeriodReportEntry.
Record t : Type := mk {
  player : Player.t;
  periodsPlayed : nat;
  targetPeriods : JS.number;
  difference : JS.number
}.
End PeriodReportEntry.

(** The map [getPeriodReport] counts in: every roster player at 0, then one
    more for each entry of each completed lineup (the reads are
    [periodCounts.get(id) || 0], as in the selector). *)
Definition reportPeriodCounts (game : Game.t) : gmap string nat :=
  let periodCounts :=
    foldl (λ counts p, <[Player.id p := 0%nat]> counts) ∅ (Game.roster game) in
  foldl (λ counts period,
           if Period.isCompleted period
           then foldl StrictLineupGenerator.bump counts (Period.lineup period)
           else counts)
        periodCounts (Game.periods game).

Definition getPeriodReport (game : Game.t) : list PeriodReportEntry.t :=
  let completedPeriods := length (completedHistory game) in
  let presentPlayers := length (presentRoster game) in
  let totalPlayerPeriods :=
    JS.of_nat completedPeriods
    * GameSettings.playersOnCourt (Game.settings game) in
  let targetPeriodsPerPlayer :=
    JS.div (JS.Fin totalPlayerPeriods) (JS.Fin (JS.of_nat presentPlayers)) in
  let periodCounts := reportPeriodCounts game in
  JS.sort (λ a b, JS.sub (PeriodReportEntry.difference a)
                         (PeriodReportEntry.difference b))
    (map (λ player,
            PeriodReportEntry.mk player
              (StrictLineupGenerator.get periodCounts (Player.id player))
              targetPeriodsPerPlayer
              (JS.sub
                 (JS.Fin (JS.of_nat
                            (StrictLineupGenerator.get periodCounts
                               (Player.id player))))
                 targetPeriodsPerPlayer))
         (presentRoster game)).

(** The result of [getGameProgress]. *)
Module GameProgress.
Record t : Type := mk {
  completedPeriods : nat;
  totalPeriods : Qc;
  timeRemaining : Qc
}.
End GameProgress.

Definition getGameProgress (game : Game.t) : GameProgress.t :=
  let completed := length (completedHistory game) in
  let total :=
    GameSettings.periodsCount (Game.settings game)
    + GameSettings.overtimePeriods (Game.settings game) in
  let timeRemaining :=
    (total - JS.of_nat completed)
    * GameSettings.periodDuration (Game.settings game) in
  GameProgress.mk completed total timeRemaining.

Definition canAddOvertimePeriod (game : Game.t) : bool :=
  bool_decide (GameSettings.periodsCount (Game.settings game)
               ≤ JS.of_nat (length (Game.periods game))).

(** [addOvertimePeriod]: [None] is the [null] result. *)
Definition addOvertimePeriod (game : Game.t)
    : JS.completion (option Period.t) :=
  if negb (canAddOvertimePeriod game) then JS.Returned None else
  let overtimePeriods :=
    JS.of_nat (length (Game.periods game))
    - GameSettings.periodsCount (Game.settings game) in
  if decide (GameSettings.overtimePeriods (Game.settings game)
             ≤ overtimePeriods)
  then JS.Returned None
  else
    match generateNextLineup game with
    | JS.Thrown error => JS.Thrown error
    | JS.Returned suggestion =>
        JS.Returned (Some (createPeriodFromSuggestion game suggestion))
    end.

End GameManager.

(** [handleStartPeriod] of [src/App.tsx]: the caller appends the period it got
    from [createPeriodFromSuggestion] to the game. *)
Definition handleStartPeriod (game : Game.t) (period : Period.t) : Game.t :=
  Game.mk (Game.settings game) (Game.roster game) (Game.periods game ++ [period]).

(** [handlePlayerToggle] of [src/App.tsx]: the roster is rebuilt with the
    attendance flag of every player that has the id. *)
Definition handlePlayerToggle (game : Game.t) (playerId : string)
    (isPresent : bool) : Game.t :=
  Game.mk (Game.settings game)
    (map (λ player,
            if decide (Player.id player = playerId)
            then Player.set_isPresent isPresent player
            else player)
         (Game.roster game))
    (Game.periods game).

(** [benchPlayers] of [src/screens/GameScreen.tsx]: the present players that
    are not in the lineup of the current period, if there is one. *)
Definition benchPlayers (game : Game.t) (currentPeriod : option Period.t)
    : list Player.t :=
  let presentPlayers :=
    filter (λ p, Player.isPresent p = true) (Game.roster game) in
  match currentPeriod with
  | Some period =>
      filter (λ p, ¬ Exists (λ lp, Player.id lp = Player.id p)
                            (Period.lineup period))
             presentPlayers
  | None => filter (λ _, True) presentPlayers
  end.

(** The test of [handleStartGame] in [src/screens/RosterScreen.tsx]: the game
    starts unless fewer than five players are present. *)
Definition startGameAllowed (players : list Player.t) : bool :=
  negb (bool_decide
          (length (filter (λ p, Player.isPresent p = true) players) < 5)%nat).

(** ** Lineup arrays held by more than one period

    [createPeriodFromSuggestion] puts the array [suggestion.players] into the
    period as it is, and [swapPlayers] writes into the array of the period.
    Periods that were made from one suggestion hold one array, and what is
    written through one of them shows in the others, completed or not.  A
    [Game.t] has, for every period, the contents of its lineup; a [Shared.t]
    has besides, for every period, the array that the period holds.  The
    methods of [GameManager] above are the methods on a game in which every
    period holds an array of its own. *)

Module Shared.

Record t : Type := mk {
  game : Game.t;
  arrays : list nat
}.

(** The period at index [j] holds the array of the period at index [k]. *)
Definition sameArray (arrays : list nat) (k j : nat) : Prop :=
  j = k ∨ (is_Some (arrays !! k) ∧ arrays !! j = arrays !! k).

#[global] Instance sameArray_dec (arrays : list nat) (k j : nat)
  : Decision (sameArray arrays k j).
Proof. unfold sameArray. apply _. Defined.

(** [createPeriodFromSuggestion(suggestion)] and the [handleStartPeriod] that
    follows it, [array] being the array [suggestion.players]. *)
Definition createPeriodFromSuggestion (this : t)
    (suggestion : LineupSuggestion.t) (array : nat) : t :=
  mk (handleStartPeriod (game this)
        (GameManager.createPeriodFromSuggestion (game this) suggestion))
     (arrays this ++ [array]).

(** [swapPlayers]: a swap that is refused writes nothing; the lineup that a
    swap leaves in the period is the lineup of every period that holds the
    same array. *)
Definition swapPlayers (this : t) (periodId playerOutId playerInId : string)
    : t * bool :=
  let result :=
    GameManager.swapPlayers (game this) periodId playerOutId playerInId in
  match snd result,
        GameManager.findPeriod periodId (Game.periods (fst result)) with
  | true, Some (k, period) =>
      (mk (Game.mk (Game.settings (fst result)) (Game.roster (fst result))
             (imap (λ j other,
                      if decide (sameArray (arrays this) k j)
                      then Period.set_lineup (Period.lineup period) other
                      else other)
                   (Game.periods (fst result))))
          (arrays this),
       true)
  | _, _ => (this, false)
  end.

End Shared.

(** * Vocabulary of the statements *)

(** ** The sort and the selection loop *)

(** When the comparator is the difference of a rational key on the elements
    at hand, the result of the sort is ordered by that key. *)
Definition by_key {A} (cmp : A → A → JS.number) (key : A → Qc) (l : list A)
    : Prop :=
  ∀ x y, x ∈ l → y ∈ l → cmp x y = JS.Fin (key x - key y).

(** [periodCounts.get(p.id) || 0] *)
Definition played (periodCounts : gmap string nat) (p : Player.t) : nat :=
  StrictLineupGenerator.get periodCounts (Player.id p).

(** The player chosen in one turn of the selector's loop. *)
Definition selectFrom (periodCounts : gmap string nat)
    (lineup available : list Player.t) (first : Player.t)
    (others : list Player.t) : JS.completion Player.t :=
  let minPeriods :=
    foldr Nat.min (played periodCounts first)
          (map (played periodCounts) others) in
  let minPlayers :=
    filter (λ p, played periodCounts p = minPeriods) available in
  match minPlayers with
  | [only] => JS.Returned only
  | _ => StrictLineupGenerator.selectBestFromTied minPlayers lineup
  end.

(** ** Rounded numbers *)

(** Zero or more, the positive infinity included; and one or less, the
    negative infinity included. *)
Definition notNegative (x : JS.number) : Prop :=
  match x with
  | JS.Fin q => 0 ≤ q
  | JS.PosInf => True
  | _ => False
  end.

Definition atMostOne (x : JS.number) : Prop :=
  match x with
  | JS.Fin q => q ≤ 1
  | JS.NegInf => True
  | _ => False
  end.

(** The doubles nearest to 0.7 and to 0.33. *)
Definition seven_tenths : Qc :=
  Q2Qc (3152519739159347 # 4503599627370496).

Definition thirty_three_hundredths : Qc :=
  Q2Qc (5944751508129055 # 18014398509481984).

(** The double [1 - 1 * 0.33], printed 0.6699999999999999. *)
Definition rotation_one_apart : Qc :=
  Q2Qc (377176468792279 # 562949953421312).

Section Vocabulary.

Import StrictLineupGenerator.
Import GameManager.

(** ** The playing-time report *)

(** How many players of the roster are marked present. *)
Definition presentCount (roster : list Player.t) : nat :=
  length (filter (λ p, Player.isPresent p = true) roster).

(** [(periodsCount * periodDuration * playersOnCourt) / presentPlayerCount],
    for a count that is not zero. *)
Definition timeTarget (game : Game.t) : Qc :=
  GameSettings.periodsCount (Game.settings game)
  * GameSettings.periodDuration (Game.settings game)
  * GameSettings.playersOnCourt (Game.settings game)
  / JS.of_nat (presentCount (Game.roster game)).

Definition entryFor (t : Qc) (e : TimeReportEntry) : Prop :=
  minutes e = Player.totalPlayingTime (player e)
  ∧ target e = JS.Fin t
  ∧ difference e = JS.Fin (Player.totalPlayingTime (player e) - t).

(** The game of the specification's example: playing times 4, 8 and 2, and
    settings that make the target 3 * 2 * 3 / 3 = 6. *)
Definition exampleReportGame : Game.t :=
  let player id minutes :=
    Player.mk id id (Qc_of_Z 1) (Qc_of_Z 3) Any true (Qc_of_Z minutes) in
  Game.mk (GameSettings.mk (Qc_of_Z 3) (Qc_of_Z 2) (Qc_of_Z 0) (Qc_of_Z 3))
    [player "P1" 4%Z; player "P2" 8%Z; player "P3" 2%Z] [].

#[global] Instance entry_eq_dec : EqDecision TimeReportEntry.
Proof. solve_decision. Defined.

(** What the report of a game has to be: the present players, each with the
    target and its difference, most under target first. *)
Definition reportFor (game : Game.t) (report : list TimeReportEntry) : Prop :=
  map player report ≡ₚ filter (λ p, Player.isPresent p = true) (Game.roster game)
  ∧ Forall (entryFor (timeTarget game)) report
  ∧ StronglySorted (λ a b, JS.le (difference a) (difference b)) report.



(** A completion that is an error reported to the caller. *)
Definition reportsError {A} (c : JS.completion A) : Prop :=
  match c with JS.Thrown _ => True | JS.Returned _ => False end.

(** A game where nobody is marked present. *)
Definition nobodyPresentGame : Game.t :=
  Game.mk (GameSettings.mk (Qc_of_Z 8) (Qc_of_Z 4) (Qc_of_Z 2) (Qc_of_Z 5))
    [Player.mk "1" "Alex Johnson" (Qc_of_Z 23) (Qc_of_Z 4) Guard false 0;
     Player.mk "2" "Marcus Williams" (Qc_of_Z 15) (Qc_of_Z 5) Forward false 0]
    [].

(** ** Period counts *)

(** The specification's [periodsPlayed]: how many completed periods of the
    history contain the player.  It follows the specification's words, to be
    compared with the map [calculatePeriodCounts] builds. *)
Definition periodsPlayed (periods : list Period.t) (id : string) : nat :=
  length (filter (λ p, Period.isCompleted p = true
                       ∧ id ∈ map Player.id (Period.lineup p)) periods).

(** No lineup of the history lists a player twice (the constraint of the data
    model on lineups). *)
Definition lineupsDistinct (periods : list Period.t) : Prop :=
  Forall (λ p, NoDup (map Player.id (Period.lineup p))) periods.

(** How many entries of a lineup carry the id. *)
Definition occurrences (id : string) (lineup : list Player.t) : nat :=
  length (filter (λ p, Player.id p = id) lineup).

(** How many entries of the completed lineups of the history carry the id:
    a lineup that lists the player twice counts twice. *)
Definition appearances (periods : list Period.t) (id : string) : nat :=
  foldr (λ period sum,
           ((if Period.isCompleted period
             then occurrences id (Period.lineup period) else 0) + sum)%nat)
        0%nat periods.

(** ** The scenario of the specification *)

(** The roster of the specification's scenario: six present players who
    have played 0, 0, 1, 1, 2 and 2 periods, for a lineup of five. *)
Definition scenarioPlayer (id : string) (skill : Z) (position : Position)
    : Player.t :=
  Player.mk id id (Qc_of_Z 1) (Qc_of_Z skill) position true 0.

Definition P1 := scenarioPlayer "P1" 4 Guard.
Definition P2 := scenarioPlayer "P2" 5 Forward.
Definition P3 := scenarioPlayer "P3" 3 Center.
Definition P4 := scenarioPlayer "P4" 4 Guard.
Definition P5 := scenarioPlayer "P5" 3 Forward.
Definition P6 := scenarioPlayer "P6" 4 Guard.

Definition scenarioRoster : list Player.t := [P1; P2; P3; P4; P5; P6].

Definition scenarioSettings : GameSettings.t :=
  GameSettings.mk (Qc_of_Z 8) (Qc_of_Z 4) (Qc_of_Z 2) (Qc_of_Z 5).

Definition scenarioHistory : list Period.t :=
  [Period.mk "period-1" 1 [P3; P4; P5; P6] true (Some (Qc_of_Z 4));
   Period.mk "period-2" 2 [P5; P6] true (Some (Qc_of_Z 4))].

(** ** The selector on a short roster *)

(** A suggestion that is an explicit failure: an error, or no player. *)
Definition failsExplicitly (c : JS.completion LineupSuggestion.t) : Prop :=
  match c with
  | JS.Thrown _ => True
  | JS.Returned suggestion => LineupSuggestion.players suggestion = []
  end.

(** Two of the five players needed are present. *)
Definition shortRoster : list Player.t :=
  [P1; P2; Player.set_isPresent false P3; Player.set_isPresent false P4].

(** P2 has played a period with the two who are absent now. *)
Definition shortHistory : list Period.t :=
  [Period.mk "period-1" 1 [P2; P3; P4] true (Some (Qc_of_Z 4))].

(** A history whose first lineup lists P1 three times. *)
Definition doubledHistory : list Period.t :=
  [Period.mk "period-1" 1 [P1; P1; P1; P2; P3] true (Some (Qc_of_Z 4));
   Period.mk "period-2" 2 [P2; P3; P4; P5; P6] true (Some (Qc_of_Z 4))].

(** ** Position balance *)

(** [new Set(positions.filter(p => p !== 'Any'))] *)
Definition nonAnyPositions (lineup : list Player.t) : gset Position :=
  list_to_set (filter (λ p, p ≠ Any) (map Player.position lineup)).

Definition hasPosition (lineup : list Player.t) (position : Position) : Prop :=
  position ∈ map Player.position lineup.

(** ** Swaps *)

(** The reasons for which a swap is refused. *)
Definition invalidSwap (game : Game.t) (period : Period.t)
    (playerOutId playerInId : string) : Prop :=
  Period.isCompleted period = true
  ∨ playerOutId ∉ map Player.id (Period.lineup period)
  ∨ (¬ ∃ p, p ∈ Game.roster game ∧ Player.id p = playerInId
            ∧ Player.isPresent p = true)
  ∨ playerInId ∈ map Player.id (Period.lineup period).

(** [lineup'] is [lineup] with the entry at [i] replaced by [playerIn]. *)
Definition replacedAt (i : nat) (playerIn : Player.t)
    (lineup lineup' : list Player.t) : Prop :=
  length lineup' = length lineup
  ∧ lineup' !! i = Some playerIn
  ∧ ∀ j, j ≠ i → lineup' !! j = lineup !! j.

(** The period that [periods.find(p => p.id === periodId)] finds: the first
    one with the id. *)
Definition firstPeriodWithId (periods : list Period.t) (periodId : string)
    (k : nat) (period : Period.t) : Prop :=
  periods !! k = Some period
  ∧ Period.id period = periodId
  ∧ ∀ j q, (j < k)%nat → periods !! j = Some q → Period.id q ≠ periodId.

(** Two periods that differ in their lineups at most. *)
Definition restOfPeriod (period period' : Period.t) : Prop :=
  Period.id period' = Period.id period
  ∧ Period.number period' = Period.number period
  ∧ Period.isCompleted period' = Period.isCompleted period
  ∧ Period.actualDuration period' = Period.actualDuration period.

(** What a swap that succeeds leaves: in the period at index [k] the present
    roster player [playerInId] is at the place of the first entry
    [playerOutId], and the lineup is otherwise what it was; the periods that
    hold the array of that period have its new lineup, the others their own;
    nothing else changes. *)
Definition swapped (this : Shared.t) (k : nat) (period : Period.t)
    (playerOutId playerInId : string) (this' : Shared.t) : Prop :=
  ∃ i playerOut playerIn period',
    list_find (λ p, Player.id p = playerOutId) (Period.lineup period)
    = Some (i, playerOut)
    ∧ playerIn ∈ Game.roster (Shared.game this)
    ∧ Player.id playerIn = playerInId
    ∧ Player.isPresent playerIn = true
    ∧ Game.periods (Shared.game this') !! k = Some period'
    ∧ replacedAt i playerIn (Period.lineup period) (Period.lineup period')
    ∧ restOfPeriod period period'
    ∧ Shared.arrays this' = Shared.arrays this
    ∧ Game.settings (Shared.game this') = Game.settings (Shared.game this)
    ∧ Game.roster (Shared.game this') = Game.roster (Shared.game this)
    ∧ length (Game.periods (Shared.game this'))
      = length (Game.periods (Shared.game this))
    ∧ ∀ j other,
        j ≠ k →
        Game.periods (Shared.game this) !! j = Some other →
        ∃ other',
          Game.periods (Shared.game this') !! j = Some other'
          ∧ restOfPeriod other other'
          ∧ Period.lineup other'
            = if decide (Shared.sameArray (Shared.arrays this) k j)
              then Period.lineup period'
              else Period.lineup other.

(** The specification's example: lineup A, B, C, D, E and F on the bench. *)
Definition swapGame : Game.t :=
  Game.mk scenarioSettings scenarioRoster
    [Period.mk "period-1" 1 [P1; P2; P3; P4; P5] false None].

(** The same game, its period holding the array 0. *)
Definition swapShared : Shared.t := Shared.mk swapGame [0%nat].

(** ** Late arrivals *)

(** The roster once the player at index [i] has been marked present. *)
Definition markedPresent (game : Game.t) (i : nat) (player : Player.t)
    : list Player.t :=
  <[i := Player.set_isPresent true player]> (Game.roster game).

(** The first roster entry with the id, at index [i]: what
    [roster.find(p => p.id === playerId)] returns. *)
Definition firstWithId (roster : list Player.t) (playerId : string) (i : nat)
    (player : Player.t) : Prop :=
  roster !! i = Some player
  ∧ Player.id player = playerId
  ∧ ∀ j q, (j < i)%nat → roster !! j = Some q → Player.id q ≠ playerId.

(** The number of completed periods. *)
Definition completedCount (periods : list Period.t) : nat :=
  length (filter (λ p, Period.isCompleted p = true) periods).

(** The present players once [player] has been marked present. *)
Definition presentWith (roster : list Player.t) (player : Player.t) : nat :=
  (length (filter (λ q, Player.isPresent q = true) roster)
   + if Player.isPresent player then 0 else 1)%nat.

(** The credit of a late player as the engine computes it:
    [Math.max(0, ((periodDuration * playersOnCourt) / presentPlayerCount
    * completedPeriodsCount) * 0.7)], the product, the quotient and the two
    products rounded one after the other. *)
Definition lateCredit (settings : GameSettings.t)
    (presentPlayerCount completedPeriodsCount : nat) : JS.number :=
  JS.max (JS.Fin 0)
    (JS.rounded
       (JS.mul
          (JS.rounded
             (JS.mul
                (JS.rounded
                   (JS.div
                      (JS.rounded
                         (JS.mul
                            (JS.Fin (GameSettings.periodDuration settings))
                            (JS.Fin (GameSettings.playersOnCourt settings))))
                      (JS.Fin (JS.of_nat presentPlayerCount))))
                (JS.Fin (JS.of_nat completedPeriodsCount))))
          (JS.Fin seven_tenths))).

(** The credit of the claim: the product
    [0.7 * (periodDuration * playersOnCourt / presentPlayerCount)
    * completedPeriodsCount], exact; and the same product with every
    operation rounded, in the order in which the claim writes it. *)
Definition claimedCredit (settings : GameSettings.t)
    (presentPlayerCount completedPeriodsCount : nat) : Qc :=
  Q2Qc (7 # 10)
  * (GameSettings.periodDuration settings
     * GameSettings.playersOnCourt settings
     / JS.of_nat presentPlayerCount)
  * JS.of_nat completedPeriodsCount.

Definition claimedCreditRounded (settings : GameSettings.t)
    (presentPlayerCount completedPeriodsCount : nat) : JS.number :=
  JS.fmul
    (JS.fmul (JS.literal (7 # 10))
       (JS.fdiv
          (JS.fmul (JS.Fin (GameSettings.periodDuration settings))
                   (JS.Fin (GameSettings.playersOnCourt settings)))
          (JS.Fin (JS.of_nat presentPlayerCount))))
    (JS.Fin (JS.of_nat completedPeriodsCount)).

(** The double next below 6, which prints as 5.999999999999999. *)
Definition just_below_six : Qc :=
  Q2Qc (6755399441055743 # 1125899906842624).


(** The same after a third period: the default settings (4 minutes, 5 on
    court), seven players once the late one is in, three periods played. *)
Definition lateInThirdGame : Game.t :=
  Game.mk scenarioSettings
    (scenarioRoster ++ [Player.set_isPresent false (scenarioPlayer "P7" 3 Any)])
    (scenarioHistory
     ++ [Period.mk "period-3" 3 [P1; P2; P3; P4; P5] true (Some (Qc_of_Z 4))]).

(** ** Crediting a lineup *)

(** Where [roster.find(p => p.id === id)] lands. *)
Definition landing (roster : list Player.t) (id : string) : option nat :=
  fst <$> findPlayer id roster.

(** How many entries of the lineup are credited to the roster entry [i]. *)
Definition hits (roster : list Player.t) (i : nat) (lineup : list Player.t)
    : nat :=
  length (filter (λ p, landing roster (Player.id p) = Some i) lineup).

(** The scenario with its first lineup committed and not yet completed. *)
Definition firstPeriodGame : Game.t :=
  Game.mk scenarioSettings scenarioRoster
    [Period.mk "period-1" 1 [P2; P1; P3; P4; P6] false None].

(** ** Operations, reachable games and the accounts *)

(** The operations of the coordinator.  [CreatePeriodFromSuggestion] stands
    for the call followed by [handleStartPeriod], which puts the period in
    the game. *)
Inductive operation : Type :=
| MarkPlayerPresent (playerId : string) (isPresent : bool)
| AddLatePlayer (playerId : string)
| CreatePeriodFromSuggestion (suggestion : LineupSuggestion.t)
| CompletePeriod (periodId : string) (actualDuration : option Qc)
| SwapPlayers (periodId playerOutId playerInId : string)
| UpdateGameSettings (newSettings : GameSettings.partial).

Inductive performs : Game.t → operation → Game.t → Prop :=
| performs_markPlayerPresent game playerId isPresent :
    performs game (MarkPlayerPresent playerId isPresent)
      (markPlayerPresent game playerId isPresent)
| performs_addLatePlayer game playerId game' :
    addLatePlayer game playerId = Some game' →
    performs game (AddLatePlayer playerId) game'
| performs_createPeriodFromSuggestion game suggestion :
    performs game (CreatePeriodFromSuggestion suggestion)
      (handleStartPeriod game (createPeriodFromSuggestion game suggestion))
| performs_completePeriod game periodId actualDuration :
    performs game (CompletePeriod periodId actualDuration)
      (completePeriod game periodId actualDuration)
| performs_swapPlayers game periodId playerOutId playerInId :
    performs game (SwapPlayers periodId playerOutId playerInId)
      (fst (swapPlayers game periodId playerOutId playerInId))
| performs_updateGameSettings game newSettings :
    performs game (UpdateGameSettings newSettings)
      (updateGameSettings game newSettings).

(** An initial game: no period yet and no playing time. *)
Definition initialGame (game : Game.t) : Prop :=
  Game.periods game = []
  ∧ Forall (λ p, Player.totalPlayingTime p = 0) (Game.roster game).

Inductive reachable (start : Game.t) : Game.t → Prop :=
| reachable_start : reachable start start
| reachable_step game op game' :
    reachable start game → performs game op game' → reachable start game'.

(** What a period adds to the minutes of the player [id]. *)
Definition contribution (id : string) (period : Period.t) : Qc :=
  if decide (Period.isCompleted period = true
             ∧ id ∈ map Player.id (Period.lineup period))
  then default 0 (Period.actualDuration period)
  else 0.

(** The sum of [actualDuration] over the completed periods whose lineup
    contains the player [id]. *)
Definition playedMinutes (periods : list Period.t) (id : string) : Qc :=
  foldr (λ period sum, contribution id period + sum) 0 periods.

Definition accountsBalanced (game : Game.t) : Prop :=
  ∀ r, r ∈ Game.roster game →
       Player.totalPlayingTime r
       = playedMinutes (Game.periods game) (Player.id r).

(** The operations the amended invariant admits: a committed lineup lists
    nobody twice, and [completePeriod] is not called on a period that is
    already completed. *)
Definition admissible (game : Game.t) (op : operation) : Prop :=
  match op with
  | CreatePeriodFromSuggestion suggestion =>
      NoDup (map Player.id (LineupSuggestion.players suggestion))
  | CompletePeriod periodId _ =>
      ∀ k period, findPeriod periodId (Game.periods game) = Some (k, period) →
                  Period.isCompleted period = false
  | _ => True
  end.

(** The player an operation gives a catch-up credit to. *)
Definition caughtUp (game : Game.t) (op : operation) : gset string :=
  match op with
  | AddLatePlayer playerId =>
      if decide (completedHistory game = []) then ∅ else {[playerId]}
  | _ => ∅
  end.

(** The operations on a game whose lineup arrays are kept track of.
    [Commit suggestion array] is [createPeriodFromSuggestion] followed by
    [handleStartPeriod], for a suggestion whose [players] is the array
    [array]. *)
Inductive action : Type :=
| MarkPresent (playerId : string) (isPresent : bool)
| AddLate (playerId : string)
| Commit (suggestion : LineupSuggestion.t) (array : nat)
| Complete (periodId : string) (actualDuration : option Qc)
| Swap (periodId playerOutId playerInId : string)
| Update (newSettings : GameSettings.partial).

Definition erase (a : action) : operation :=
  match a with
  | MarkPresent playerId isPresent => MarkPlayerPresent playerId isPresent
  | AddLate playerId => AddLatePlayer playerId
  | Commit suggestion _ => CreatePeriodFromSuggestion suggestion
  | Complete periodId actualDuration => CompletePeriod periodId actualDuration
  | Swap periodId playerOutId playerInId =>
      SwapPlayers periodId playerOutId playerInId
  | Update newSettings => UpdateGameSettings newSettings
  end.

(** An operation that does not touch a lineup array. *)
Definition plain (a : action) : Prop :=
  match a with
  | Commit _ _ | Swap _ _ _ => False
  | _ => True
  end.

(** An array that a period holds already has the contents of that period's
    lineup when it is committed again. *)
Inductive acts : Shared.t → action → Shared.t → Prop :=
| acts_commit this suggestion array :
    (∀ j, Shared.arrays this !! j = Some array →
          ∃ period, Game.periods (Shared.game this) !! j = Some period
                    ∧ Period.lineup period
                      = LineupSuggestion.players suggestion) →
    acts this (Commit suggestion array)
      (Shared.createPeriodFromSuggestion this suggestion array)
| acts_swap this periodId playerOutId playerInId :
    acts this (Swap periodId playerOutId playerInId)
      (fst (Shared.swapPlayers this periodId playerOutId playerInId))
| acts_plain this a game' :
    plain a →
    performs (Shared.game this) (erase a) game' →
    acts this a (Shared.mk game' (Shared.arrays this)).

(** What may be asked of the caller: nothing; that a committed suggestion
    brings an array of its own; and, for the accounts, besides that a
    committed lineup lists nobody twice and [completePeriod] is not called on
    a period that is already completed. *)
Definition anything (this : Shared.t) (a : action) : Prop := True.

Definition ownArray (this : Shared.t) (a : action) : Prop :=
  match a with
  | Commit _ array => array ∉ Shared.arrays this
  | _ => True
  end.

Definition fair (this : Shared.t) (a : action) : Prop :=
  ownArray this a ∧ admissible (Shared.game this) (erase a).

(** The runs of allowed operations, with the players who were given a
    catch-up credit on the way. *)
Inductive runs (allowed : Shared.t → action → Prop) (start : Shared.t)
    : gset string → Shared.t → Prop :=
| runs_start : runs allowed start ∅ start
| runs_step late this a this' :
    runs allowed start late this →
    allowed this a →
    acts this a this' →
    runs allowed start (caughtUp (Shared.game this) (erase a) ∪ late) this'.

(** Every period holds an array, and no two periods hold the same one. *)
Definition unshared (this : Shared.t) : Prop :=
  NoDup (Shared.arrays this)
  ∧ length (Shared.arrays this)
    = length (Game.periods (Shared.game this)).

(** What the induction carries along: distinct ids in the roster and in
    every lineup, and balanced accounts for the players outside [late]. *)
Definition accountsInvariant (late : gset string) (game : Game.t) : Prop :=
  NoDup (map Player.id (Game.roster game))
  ∧ lineupsDistinct (Game.periods game)
  ∧ ∀ i r, Game.roster game !! i = Some r → Player.id r ∉ late →
           Player.totalPlayingTime r
           = playedMinutes (Game.periods game) (Player.id r).

(** The scenario before its first period, with a seventh player who has not
    arrived yet. *)
Definition kickoffGame : Game.t :=
  Game.mk scenarioSettings
    (scenarioRoster ++ [Player.set_isPresent false (scenarioPlayer "P7" 3 Any)])
    [].

(** A suggestion with the lineup of the scenario. *)
Definition firstSuggestion : LineupSuggestion.t :=
  LineupSuggestion.mk [P2; P1; P3; P4; P6] (JS.Fin (Qc_of_Z 4))
    (JS.Fin rotation_one_apart) (JS.Fin 1).

(** The game after the first period has been committed and completed. *)
Definition afterFirstPeriod : Game.t :=
  completePeriod
    (handleStartPeriod kickoffGame
       (createPeriodFromSuggestion kickoffGame firstSuggestion))
    "period-1" None.

(** A suggestion that lists P1 twice. *)
Definition doubledSuggestion : LineupSuggestion.t :=
  LineupSuggestion.mk [P1; P1; P2; P3; P4] (JS.Fin (Qc_of_Z 4)) (JS.Fin 1)
    (JS.Fin 1).

(** A roster in which the id of P1 is taken twice, and a lineup of one. *)
Definition twinGame : Game.t :=
  Game.mk scenarioSettings [P1; scenarioPlayer "P1" 3 Center] [].

Definition soloSuggestion : LineupSuggestion.t :=
  LineupSuggestion.mk [P1] (JS.Fin (Qc_of_Z 4)) (JS.Fin 1) (JS.Fin 1).

(** A player of the roster whose minutes are not the sum of the claim. *)
Definition unbalancedAt (game : Game.t) (id : string) (minutes sum : Qc)
    : Prop :=
  ∃ r, r ∈ Game.roster game
       ∧ Player.id r = id
       ∧ Player.totalPlayingTime r = minutes
       ∧ playedMinutes (Game.periods game) id = sum
       ∧ minutes ≠ sum.

(** The first period completed, and a second one committed after it. *)
Definition secondSuggestion : LineupSuggestion.t :=
  LineupSuggestion.mk [P5; P6; P1; P2; P3] (JS.Fin (Qc_of_Z 4)) (JS.Fin 1)
    (JS.Fin 1).

Definition secondPeriodOpen : Shared.t :=
  Shared.createPeriodFromSuggestion (Shared.mk afterFirstPeriod [0%nat])
    secondSuggestion 1.

(** Then a swap is asked for in the first period, and P4 comes in for P5 in
    the second. *)
Definition secondPeriodSwapped : Shared.t :=
  fst (Shared.swapPlayers
         (fst (Shared.swapPlayers secondPeriodOpen "period-1" "P1" "P5"))
         "period-2" "P5" "P4").

(** ** More of the selector *)

(** A player whose position would be new in the lineup. *)
Definition bringsNewPosition (lineup : list Player.t) (p : Player.t) : Prop :=
  Player.position p ≠ Any
  ∧ Player.position p ∉ map Player.position lineup.

(** No two present players are more than one period apart. *)
Definition withinOnePeriod (counts : gmap string nat)
    (present : list Player.t) : Prop :=
  ∀ a b, a ∈ present → b ∈ present →
         (played counts a ≤ played counts b + 1)%nat.

(** The scenario after its first period only: P3 to P6 have played once. *)
Definition earlyHistory : list Period.t :=
  [Period.mk "period-1" 1 [P3; P4; P5; P6] true (Some (Qc_of_Z 4))].

(** Every entry of a completed lineup is a present player of the roster. *)
Definition historyOfPresentPlayers (roster : list Player.t)
    (periods : list Period.t) : Prop :=
  ∀ period p,
    period ∈ periods → Period.isCompleted period = true →
    p ∈ Period.lineup period →
    Player.id p
    ∈ map Player.id (filter (λ q, Player.isPresent q = true) roster).

(** Three players who have played equally often. *)
Definition tiedExample : list Player.t := [P1; P4; P5].

(** ** More of the coordinator *)

(** The scenario's roster before the attendance is taken. *)
Definition arrivingGame : Game.t :=
  Game.mk scenarioSettings
    [Player.set_isPresent false P1; Player.set_isPresent false P2; P3] [].



(** The scenario as a game, after its two periods. *)
Definition scenarioGame : Game.t :=
  Game.mk scenarioSettings scenarioRoster scenarioHistory.

(** The scenario at the end of regulation: eight periods on the sheet. *)
Definition regulationOverGame : Game.t :=
  Game.mk scenarioSettings scenarioRoster
    (map (λ n, Period.mk ("period-" +:+ pretty n) n [P1; P2; P3; P4; P5] true
                 (Some (Qc_of_Z 4)))
         (seq 1 8)).

(** The periods are numbered from 1 in the order of the list, and named
    after their number. *)
Definition wellNumbered (periods : list Period.t) : Prop :=
  ∀ i period,
    periods !! i = Some period →
    Period.number period = S i
    ∧ Period.id period = "period-" +:+ pretty (S i).

(** What identifies a player: everything but attendance and playing time. *)
Definition identity (p : Player.t)
    : string * string * Qc * Qc * Position :=
  (Player.id p, Player.name p, Player.jerseyNumber p, Player.skillLevel p,
   Player.position p).

(** [later] is [earlier] at a later time: same place in the list, same id
    and number; once completed, completed for good with the same lineup. *)
Definition samePeriodLater (earlier later : Period.t) : Prop :=
  Period.id later = Period.id earlier
  ∧ Period.number later = Period.number earlier
  ∧ (Period.isCompleted earlier = true →
     Period.isCompleted later = true
     ∧ Period.lineup later = Period.lineup earlier).

(** The same with the lineup as the list of its players, whatever their
    attendance and minutes are by now. *)
Definition keptPeriod (earlier later : Period.t) : Prop :=
  Period.id later = Period.id earlier
  ∧ Period.number later = Period.number earlier
  ∧ (Period.isCompleted earlier = true →
     Period.isCompleted later = true
     ∧ map identity (Period.lineup later)
       = map identity (Period.lineup earlier)).



(** The swap example seen from the game screen: F is on the bench. *)
Definition swapPeriod : Period.t :=
  Period.mk "period-1" 1 [P1; P2; P3; P4; P5] false None.

(** ** The weighted selector *)

(** What the engine promises of [Math.random()] and of [sort]: a number from
    0 up to, but not including, 1; the same elements in some order. *)
Definition unitInterval (random : nat → Qc) : Prop :=
  ∀ n, 0 ≤ random n < 1.

Definition permutes
    (arraySort : (Player.t → Player.t → JS.number)
                 → list Player.t → list Player.t) : Prop :=
  ∀ cmp xs, arraySort cmp xs ≡ₚ xs.

(** A lineup size that can be met: a whole number of players, no more than
    there are. *)
Definition lineupSizeMet (playersOnCourt : Qc) (present : nat) : Prop :=
  ∃ k, playersOnCourt = JS.of_nat k ∧ (k ≤ present)%nat.

(** An engine for the examples.  What is proved of the weighted selector
    holds for every engine; here the random numbers are 0 and 1/2 in turn, the
    sort is the stable one, and the identity stands where [Math.pow(x, 0.5)]
    would be. *)
Definition exampleRandom (n : nat) : Qc :=
  if Nat.even n then 0 else Q2Qc (1 # 2).

Definition examplePowHalf (x : JS.number) : JS.number := x.

Definition exampleSort
    : (Player.t → Player.t → JS.number) → list Player.t → list Player.t :=
  JS.sort.

(** The lineups of the weighted selector in the scenario and on the short
    roster. *)
Definition weightedScenario : LineupGenerator.M LineupSuggestion.t :=
  LineupGenerator.generateOptimalLineup exampleRandom examplePowHalf exampleSort
    (LineupGenerator.new scenarioRoster scenarioSettings []).

Definition weightedOnShortRoster : LineupGenerator.M LineupSuggestion.t :=
  LineupGenerator.generateOptimalLineup exampleRandom examplePowHalf exampleSort
    (LineupGenerator.new shortRoster scenarioSettings []).

(** Two players whose skill levels are 3 and 3 + 2^-30. *)
Definition nearSkills : list Player.t :=
  [P3; Player.mk "P8" "P8" (Qc_of_Z 8) (Q2Qc (3221225473 # 1073741824))
         Center true 0].

(** The deficit the weighted selector keeps for the player of a report
    entry is the difference of the entry, negated. *)
Definition deficitOf (targets : gmap string JS.number) (e : TimeReportEntry)
    : Prop :=
  ∃ deficit,
    targets !! Player.id (player e) = Some (JS.Fin deficit)
    ∧ difference e = JS.Fin (- deficit).

End Vocabulary.

(** * Properties *)

(** ** Arithmetic of the number model *)

Section Numbers.

Lemma of_nat_S (n : nat) : JS.of_nat (S n) = JS.of_nat n + 1.
Proof.
  unfold JS.of_nat. apply Qc_is_canon. simpl.
  rewrite Nat2Z.inj_succ, <- Z.add_1_r.
  rewrite !Qred_correct, inject_Z_plus. reflexivity.
Qed.

Lemma of_nat_0 : JS.of_nat 0 = 0.
Proof. by apply Qc_is_canon. Qed.

Lemma of_nat_nonneg (n : nat) : 0 ≤ JS.of_nat n.
Proof.
  induction n as [|n IH]; [by rewrite of_nat_0|].
  rewrite of_nat_S. by apply Qcplus_nonneg_nonneg.
Qed.

Lemma of_nat_pos (n : nat) : (0 < n)%nat → 0 < JS.of_nat n.
Proof.
  destruct n as [|n]; [lia|]. intros _. rewrite of_nat_S.
  by apply Qcplus_nonneg_pos; [apply of_nat_nonneg|].
Qed.

Lemma of_nat_le (m n : nat) : (m ≤ n)%nat → JS.of_nat m ≤ JS.of_nat n.
Proof.
  induction 1 as [|n _ IH]; [done|].
  etrans; [exact IH|]. rewrite of_nat_S.
  rewrite <- (Qcplus_0_r (JS.of_nat n)) at 1.
  by apply Qcplus_le_mono_l.
Qed.

Lemma of_nat_lt (m n : nat) : (m < n)%nat → JS.of_nat m < JS.of_nat n.
Proof.
  intros H. apply Qclt_le_trans with (JS.of_nat (S m)); [|by apply of_nat_le].
  rewrite of_nat_S. rewrite <- (Qcplus_0_r (JS.of_nat m)) at 1.
  by apply Qcplus_lt_mono_l.
Qed.

Lemma of_nat_inj (m n : nat) : JS.of_nat m = JS.of_nat n → m = n.
Proof.
  intros H. destruct (Nat.lt_trichotomy m n) as [Hlt|[->|Hlt]]; [|done|];
    apply of_nat_lt in Hlt; rewrite H in Hlt;
    by destruct (irreflexivity Qclt _ Hlt).
Qed.

(** Dividing by a count that is not zero stays in the rationals. *)
Lemma div_by_count (a : Qc) (n : nat) :
  (0 < n)%nat → JS.div (JS.Fin a) (JS.Fin (JS.of_nat n)) = JS.Fin (a / JS.of_nat n).
Proof.
  intros Hn. simpl. case_decide as H0; [|done].
  apply of_nat_pos in Hn. rewrite H0 in Hn.
  by destruct (irreflexivity Qclt _ Hn).
Qed.

End Numbers.

(** ** Rounding *)

Section Doubles.

Lemma nearest_nonneg (n d : Z) : (0 ≤ n)%Z → (0 < d)%Z → (0 ≤ JS.nearest n d)%Z.
Proof.
  intros Hn Hd. unfold JS.nearest.
  pose proof (Z.div_pos n d Hn Hd).
  repeat case_match; lia.
Qed.

Lemma nearest_le (n d k : Z) :
  (0 < d)%Z → (n ≤ k * d)%Z → (JS.nearest n d ≤ k)%Z.
Proof.
  intros Hd Hk. unfold JS.nearest.
  pose proof (Z.div_mod n d ltac:(lia)) as Hdiv.
  pose proof (Z.mod_pos_bound n d Hd) as Hmod.
  destruct (decide (n / d < k)%Z) as [Hlt|Hge].
  { repeat case_match; lia. }
  assert (n / d = k)%Z as Hq by nia.
  assert (n mod d = 0)%Z as Hr by nia.
  rewrite Hq, Hr.
  destruct (2 * 0 <? d)%Z eqn:Htest; [lia|].
  apply Z.ltb_ge in Htest. lia.
Qed.

Lemma Q2Qc_nonneg (q : Q) : (0 ≤ Qnum q)%Z → 0 ≤ Q2Qc q.
Proof.
  intros Hq. unfold Qcle. change (this (Q2Qc q)) with (Qred q).
  rewrite Qred_correct. unfold Qle. simpl. lia.
Qed.

Lemma Q2Qc_at_most_1 (q : Q) : (Qnum q ≤ Zpos (Qden q))%Z → Q2Qc q ≤ 1.
Proof.
  intros Hq. unfold Qcle. change (this (Q2Qc q)) with (Qred q).
  rewrite Qred_correct. unfold Qle. simpl. lia.
Qed.

Lemma double_pos_notNegative (n d : Z) :
  (0 < n)%Z → (0 < d)%Z → notNegative (JS.double_pos n d).
Proof.
  intros Hn Hd. unfold JS.double_pos.
  set (x := JS.last_place n d).
  case_match; [done|]. simpl. apply Q2Qc_nonneg. simpl.
  apply Z.mul_nonneg_nonneg; [|apply Z.pow_nonneg; lia].
  apply nearest_nonneg.
  - apply Z.mul_nonneg_nonneg; [lia|apply Z.pow_nonneg; lia].
  - apply Z.mul_pos_pos; [lia|apply Z.pow_pos_nonneg; lia].
Qed.

Lemma last_place_small (n d : Z) :
  (0 < n)%Z → (n ≤ d)%Z → (JS.last_place n d ≤ -52)%Z.
Proof.
  intros Hn Hle. unfold JS.last_place.
  pose proof (Z.log2_le_mono n d Hle).
  case_match; lia.
Qed.

Lemma double_pos_small (n d : Z) :
  (0 < n)%Z → (n ≤ d)%Z →
  ∃ r, JS.double_pos n d = JS.Fin r ∧ 0 ≤ r ≤ 1.
Proof.
  intros Hn Hle. pose proof (last_place_small n d Hn Hle) as Hx.
  unfold JS.double_pos. set (x := JS.last_place n d) in *.
  replace (Z.max 0 x) with 0%Z by lia.
  replace (Z.max 0 (- x)) with (- x)%Z by lia.
  rewrite Z.pow_0_r, !Z.mul_1_r.
  assert (0 < 2 ^ (- x))%Z as Hpow by (apply Z.pow_pos_nonneg; lia).
  assert (0 < 2 ^ 1024)%Z as Hbig by (apply Z.pow_pos_nonneg; lia).
  assert (0 ≤ JS.nearest (n * 2 ^ (- x)) d)%Z as Hlo.
  { apply nearest_nonneg; [|lia]. apply Z.mul_nonneg_nonneg; lia. }
  assert (JS.nearest (n * 2 ^ (- x)) d ≤ 2 ^ (- x))%Z as Hhi.
  { apply nearest_le; [lia|]. rewrite (Z.mul_comm n). apply Z.mul_le_mono_nonneg_l; lia. }
  destruct (2 ^ 1024 * 2 ^ (- x) <=? JS.nearest (n * 2 ^ (- x)) d)%Z eqn:Htest.
  { apply Z.leb_le in Htest. nia. }
  eexists. split; [reflexivity|]. split.
  - apply Q2Qc_nonneg. simpl. done.
  - apply Q2Qc_at_most_1. simpl. rewrite Z2Pos.id by done. done.
Qed.

Lemma Qc_sign (q : Qc) : 0 ≤ q ↔ (0 ≤ Qnum q)%Z.
Proof. unfold Qcle, Qle. simpl. lia. Qed.

Lemma Qc_at_most_1 (q : Qc) : q ≤ 1 ↔ (Qnum q ≤ Zpos (Qden q))%Z.
Proof. unfold Qcle, Qle. simpl. lia. Qed.

(** Rounding keeps the sign. *)
Lemma double_notNegative (q : Qc) : 0 ≤ q → notNegative (JS.double q).
Proof.
  intros Hq%Qc_sign. unfold JS.double.
  destruct (0 <? Qnum q)%Z eqn:Hpos.
  { apply double_pos_notNegative; [by apply Z.ltb_lt|done]. }
  destruct (Qnum q <? 0)%Z eqn:Hneg; [apply Z.ltb_lt in Hneg; lia|].
  done.
Qed.

(** Rounding does not take a number across 1. *)
Lemma double_atMostOne (q : Qc) : q ≤ 1 → atMostOne (JS.double q).
Proof.
  intros Hq%Qc_at_most_1. unfold JS.double.
  destruct (0 <? Qnum q)%Z eqn:Hpos.
  { apply Z.ltb_lt in Hpos.
    destruct (double_pos_small (Qnum q) (Zpos (Qden q))) as (r & -> & _ & Hr);
      done. }
  destruct (Qnum q <? 0)%Z eqn:Hneg; [|simpl; done].
  apply Z.ltb_lt in Hneg.
  pose proof (double_pos_notNegative (- Qnum q) (Zpos (Qden q))
                ltac:(lia) ltac:(done)) as Hsign.
  destruct (JS.double_pos _ _) as [r| | |]; simpl in *; [|done..].
  trans (0 : Qc); [|done].
  apply Qcopp_le_compat in Hsign.
  by replace (- 0) with 0 in Hsign by (by apply Qc_is_canon).
Qed.

Lemma double_is_a_number (q : Qc) : JS.double q ≠ JS.NaN.
Proof.
  unfold JS.double, JS.double_pos.
  repeat case_match; simpl; done.
Qed.

Lemma literal_seven_tenths : JS.literal (7 # 10) = JS.Fin seven_tenths.
Proof. compute_done. Qed.

Lemma literal_thirty_three_hundredths :
  JS.literal (33 # 100) = JS.Fin thirty_three_hundredths.
Proof. compute_done. Qed.

End Doubles.

(** ** The sort *)

Section Sort.

Context {A : Type} (cmp : A → A → JS.number).

Lemma insert_sorted_perm (x : A) (l : list A) :
  JS.insert_sorted cmp x l ≡ₚ x :: l.
Proof.
  induction l as [|y l IH]; simpl; [done|].
  destruct (JS.positive (cmp x y)); [|done].
  rewrite IH. apply Permutation_swap.
Qed.

Lemma sort_perm (l : list A) : JS.sort cmp l ≡ₚ l.
Proof.
  induction l as [|x l IH]; simpl; [done|].
  by rewrite insert_sorted_perm, IH.
Qed.

Variable key : A → Qc.

Lemma positive_difference (a b : Qc) :
  JS.positive (JS.Fin (a - b)) = bool_decide (b < a).
Proof.
  simpl. apply bool_decide_ext.
  rewrite (Qcplus_lt_mono_r b a (- b)), Qcplus_opp_r. done.
Qed.

Lemma insert_sorted_sorted (x : A) (l : list A) :
  by_key cmp key (x :: l) →
  StronglySorted (λ a b, key a ≤ key b) l →
  StronglySorted (λ a b, key a ≤ key b) (JS.insert_sorted cmp x l).
Proof.
  intros Hkey. induction 1 as [|y l Hs IH Hall]; simpl.
  { repeat constructor. }
  rewrite (Hkey x y) by (rewrite !elem_of_cons; auto).
  rewrite positive_difference.
  case_bool_decide as Hlt.
  - constructor.
    + apply IH. intros a b Ha Hb.
      apply Hkey; rewrite !elem_of_cons in *; tauto.
    + rewrite insert_sorted_perm. constructor; [|done].
      by apply Qclt_le_weak.
  - constructor; [by constructor|].
    apply Qcnot_lt_le in Hlt. constructor; [done|].
    eapply Forall_impl; [exact Hall|]. intros z Hz. simpl in Hz. by etrans.
Qed.

Lemma sort_sorted (l : list A) :
  by_key cmp key l → StronglySorted (λ a b, key a ≤ key b) (JS.sort cmp l).
Proof.
  induction l as [|x l IH]; intros Hkey; simpl; [constructor|].
  apply insert_sorted_sorted.
  - intros a b Ha Hb.
    rewrite elem_of_cons, sort_perm, <- elem_of_cons in Ha, Hb.
    by apply Hkey.
  - apply IH. intros a b Ha Hb. apply Hkey; rewrite elem_of_cons; auto.
Qed.

End Sort.

Lemma StronglySorted_weaken {A} (R R' : A → A → Prop) (l : list A) :
  (∀ a b, a ∈ l → b ∈ l → R a b → R' a b) →
  StronglySorted R l → StronglySorted R' l.
Proof.
  intros HR. induction 1 as [|x l Hs IH Hall]; constructor.
  - apply IH. intros a b Ha Hb. apply HR; rewrite elem_of_cons; auto.
  - rewrite Forall_forall in *. intros y Hy.
    apply HR; [rewrite elem_of_cons; auto..|by apply Hall].
Qed.

(** ** The playing-time report *)

Section TimeReport.

Import GameManager.

Lemma report_of_present (game : Game.t) :
  presentRoster game ≠ [] →
  ∃ report,
    getPlayingTimeReport game = JS.Returned report ∧ reportFor game report.
Proof.
  intros Hne. unfold getPlayingTimeReport, reportFor.
  rewrite div_by_count by (destruct (presentRoster game); simpl; [done|lia]).
  fold (timeTarget game). set (t := timeTarget game).
  set (entries := map _ (presentRoster game)).
  set (cmp := λ a b : TimeReportEntry, JS.sub (difference a) (difference b)).
  assert (Hentries : Forall (entryFor t) entries).
  { apply Forall_forall. intros e (p & -> & _)%list_elem_of_fmap. by repeat split. }
  assert (Hreport : Forall (entryFor t) (JS.sort cmp entries)).
  { by rewrite sort_perm. }
  eexists. split; [reflexivity|]. split; [|split; [done|]].
  - rewrite sort_perm. unfold entries. rewrite <- list_fmap_compose.
    by rewrite list_fmap_id.
  - rewrite Forall_forall in Hentries, Hreport.
    apply (StronglySorted_weaken
             (λ a b, Player.totalPlayingTime (player a) - t
                     ≤ Player.totalPlayingTime (player b) - t)).
    + intros a b (_ & _ & ->)%Hreport (_ & _ & ->)%Hreport. done.
    + apply (sort_sorted cmp (λ e, Player.totalPlayingTime (player e) - t)).
      intros a b (_ & _ & Ha)%Hentries (_ & _ & Hb)%Hentries.
      unfold cmp. by rewrite Ha, Hb.
Qed.



(** C4, as stated, fails: with no present player the report is returned, not
    an error. *)
Lemma report_without_present_players_is_no_error :
  presentRoster nobodyPresentGame = []
  ∧ ¬ reportsError (getPlayingTimeReport nobodyPresentGame).
Proof. split; [reflexivity|]. simpl. tauto. Qed.

(** C4, amended.  With no present player [getPlayingTimeReport] returns the
    empty report and signals nothing; the target it computed by dividing by
    zero is attached to no entry, so no [NaN] or infinity reaches the
    caller. *)
Theorem playing_time_report_without_present_players (game : Game.t) :
  presentRoster game = [] →
  getPlayingTimeReport game = JS.Returned []
  ∧ ¬ JS.is_finite
        (JS.div
           (JS.Fin (GameSettings.periodsCount (Game.settings game)
                    * GameSettings.periodDuration (Game.settings game)
                    * GameSettings.playersOnCourt (Game.settings game)))
           (JS.Fin (JS.of_nat (length (presentRoster game))))).
Proof.
  intros Hnone. unfold getPlayingTimeReport. rewrite Hnone. split; [done|].
  cbn [length]. unfold JS.div, JS.signed. rewrite of_nat_0.
  rewrite decide_True by done. repeat case_decide; simpl; tauto.
Qed.

Lemma playing_time_report_without_present_players_example :
  presentRoster nobodyPresentGame = []
  ∧ getPlayingTimeReport nobodyPresentGame = JS.Returned []
  ∧ ¬ JS.is_finite
        (JS.div
           (JS.Fin (GameSettings.periodsCount (Game.settings nobodyPresentGame)
                    * GameSettings.periodDuration (Game.settings nobodyPresentGame)
                    * GameSettings.playersOnCourt (Game.settings nobodyPresentGame)))
           (JS.Fin (JS.of_nat (length (presentRoster nobodyPresentGame))))).
Proof.
  split; [reflexivity|].
  apply (playing_time_report_without_present_players nobodyPresentGame).
  reflexivity.
Defined.

End TimeReport.

(** ** The strict rotation selector *)

Section Selection.

Import StrictLineupGenerator.

Variable playersOnCourt : Qc.
Variable periodCounts : gmap string nat.

Lemma min_is_lower_bound (x : nat) (xs : list nat) :
  Forall (λ y, (foldr Nat.min x xs ≤ y)%nat) (x :: xs).
Proof.
  induction xs as [|y xs IH]; simpl.
  { by repeat constructor. }
  apply Forall_cons in IH as [Hx Hxs].
  repeat constructor; [lia..|].
  eapply Forall_impl; [exact Hxs|]. simpl. lia.
Qed.

Lemma min_is_attained (x : nat) (xs : list nat) : foldr Nat.min x xs ∈ x :: xs.
Proof.
  induction xs as [|y xs IH]; simpl; [by left|].
  destruct (Nat.min_spec y (foldr Nat.min x xs)) as [[_ ->]|[_ ->]].
  - right. by left.
  - apply elem_of_cons in IH as [->|IH]; [by left|]. by do 2 right.
Qed.

Lemma best_skill_is_tied (first : Player.t) (others : list Player.t) :
  foldl (λ best current,
           if decide (Player.skillLevel best < Player.skillLevel current)
           then current else best) first others
  ∈ first :: others.
Proof.
  revert first. induction others as [|p others IH]; intros first; simpl.
  { by left. }
  case_decide.
  - right. apply IH.
  - specialize (IH first). apply elem_of_cons in IH as [->|IH]; [by left|].
    by do 2 right.
Qed.

(** [selectBestFromTied] returns one of the tied players; it throws on an
    empty array only. *)
Lemma selectBestFromTied_returns (tied lineup : list Player.t) :
  tied ≠ [] →
  ∃ selected, selectBestFromTied tied lineup = JS.Returned selected
              ∧ selected ∈ tied.
Proof.
  intros Hne. unfold selectBestFromTied.
  destruct (list_find _ tied) as [[i p]|] eqn:Hfind.
  - apply list_find_Some in Hfind as (Hp & _ & _).
    exists p. split; [done|]. by eapply list_elem_of_lookup_2.
  - destruct tied as [|first others]; [done|].
    eexists. split; [done|]. apply best_skill_is_tied.
Qed.

Lemma selectFrom_least_played (lineup : list Player.t) (first : Player.t)
    (others : list Player.t) :
  ∃ selected,
    selectFrom periodCounts lineup (first :: others) first others = JS.Returned selected
    ∧ selected ∈ first :: others
    ∧ ∀ p, p ∈ first :: others → (played periodCounts selected ≤ played periodCounts p)%nat.
Proof.
  unfold selectFrom.
  set (minPeriods := foldr Nat.min (played periodCounts first) (map (played periodCounts) others)).
  set (minPlayers := filter _ (first :: others)).
  assert (Hlow : ∀ p, p ∈ first :: others → (minPeriods ≤ played periodCounts p)%nat).
  { intros p Hp.
    pose proof (min_is_lower_bound (played periodCounts first) (map (played periodCounts) others)) as Hall.
    rewrite Forall_forall in Hall. apply Hall.
    change (played periodCounts p ∈ map (played periodCounts) (first :: others)).
    by apply list_elem_of_fmap_2. }
  assert (Hne : minPlayers ≠ []).
  { pose proof (min_is_attained (played periodCounts first) (map (played periodCounts) others)) as Hin.
    change (minPeriods ∈ map (played periodCounts) (first :: others)) in Hin.
    apply list_elem_of_fmap in Hin as (p & Hp & Hin).
    assert (p ∈ minPlayers) as Hmem by (by apply list_elem_of_filter).
    intros Heq. rewrite Heq in Hmem. by apply not_elem_of_nil in Hmem. }
  assert (Hsel : ∃ selected,
             match minPlayers with
             | [only] => JS.Returned only
             | _ => selectBestFromTied minPlayers lineup
             end = JS.Returned selected ∧ selected ∈ minPlayers).
  { destruct (selectBestFromTied_returns minPlayers lineup Hne)
      as (selected & Hret & Hin).
    destruct minPlayers as [|p [|q rest]]; [done| |by eauto].
    exists p. split; [done|]. by left. }
  destruct Hsel as (selected & Hret & [Hmin Hin]%list_elem_of_filter).
  exists selected. split; [done|]. split; [done|].
  intros p Hp. rewrite Hmin. by apply Hlow.
Qed.

Lemma splice_indexOf_perm (x : Player.t) (l : list Player.t) :
  x ∈ l → l ≡ₚ x :: JS.splice_indexOf x l.
Proof.
  intros Hin. unfold JS.splice_indexOf, JS.splice1.
  destruct (list_find_elem_of (λ y, y = x) l x Hin eq_refl) as [[i y] Hfind].
  rewrite Hfind. apply list_find_Some in Hfind as (Hi & -> & _).
  by apply delete_Permutation.
Qed.

(** The loop never throws.  It returns the lineup it was given followed by
    the players it chose; a player it left behind had played at least as
    many periods as each one it chose; and, given at least
    [length available] turns, it stops only when nobody is left or the
    lineup is full. *)
Lemma fillLineup_spec (fuel : nat) (lineup available : list Player.t) :
  ∃ chosen rest,
    fillLineup fuel playersOnCourt periodCounts lineup available
    = JS.Returned (lineup ++ chosen)
    ∧ chosen ++ rest ≡ₚ available
    ∧ (∀ a b, a ∈ rest → b ∈ chosen → (played periodCounts b ≤ played periodCounts a)%nat)
    ∧ ((length available ≤ fuel)%nat →
       rest = []
       ∨ ¬ JS.of_nat (length (lineup ++ chosen)) < playersOnCourt).
Proof.
  revert lineup available.
  induction fuel as [|fuel IH]; intros lineup available.
  { exists [], available. rewrite app_nil_r. split_and!; [done..| |].
    - intros a b _ Hb. by apply not_elem_of_nil in Hb.
    - destruct available; simpl; [by left|lia]. }
  destruct available as [|first others].
  { exists [], []. rewrite app_nil_r. split_and!; [done..| |by left].
    intros a b Ha. by apply not_elem_of_nil in Ha. }
  cbn [fillLineup]. case_decide as Hroom; last first.
  { exists [], (first :: others). rewrite app_nil_r. split_and!; [done..| |by right].
    intros a b _ Hb. by apply not_elem_of_nil in Hb. }
  destruct (selectFrom_least_played lineup first others)
    as (selected & Hret & Hin & Hleast).
  unfold selectFrom, played in Hret. rewrite Hret.
  pose proof (splice_indexOf_perm selected _ Hin) as Hperm.
  destruct (IH (lineup ++ [selected])
               (JS.splice_indexOf selected (first :: others)))
    as (chosen & rest & Hrun & Hsplit & Horder & Hstop).
  exists (selected :: chosen), rest.
  rewrite Hrun, <- app_assoc. split_and!; [done| | |].
  - rewrite Hperm. simpl. by rewrite Hsplit.
  - intros a b Ha [->|Hb]%elem_of_cons; [|by apply Horder].
    apply Hleast. rewrite Hperm, <- Hsplit.
    rewrite elem_of_cons, elem_of_app. auto.
  - intros Hfuel. rewrite <- app_assoc in Hstop. apply Hstop.
    apply Permutation_length in Hperm. simpl in *. lia.
Qed.

(** The players the loop chooses come in the order of their counts. *)
Lemma fillLineup_order (fuel : nat) (lineup available : list Player.t) :
  ∃ chosen,
    fillLineup fuel playersOnCourt periodCounts lineup available
    = JS.Returned (lineup ++ chosen)
    ∧ (∀ p, p ∈ chosen → p ∈ available)
    ∧ StronglySorted
        (λ a b, (played periodCounts a ≤ played periodCounts b)%nat) chosen.
Proof.
  revert lineup available.
  induction fuel as [|fuel IH]; intros lineup available.
  { exists []. rewrite app_nil_r. split_and!; [done| |constructor].
    intros p Hp. by apply not_elem_of_nil in Hp. }
  destruct available as [|first others].
  { exists []. rewrite app_nil_r. split_and!; [done| |constructor].
    intros p Hp. by apply not_elem_of_nil in Hp. }
  cbn [fillLineup]. case_decide as Hroom; last first.
  { exists []. rewrite app_nil_r. split_and!; [done| |constructor].
    intros p Hp. by apply not_elem_of_nil in Hp. }
  destruct (selectFrom_least_played lineup first others)
    as (selected & Hret & Hin & Hleast).
  unfold selectFrom, played in Hret. rewrite Hret.
  pose proof (splice_indexOf_perm selected _ Hin) as Hperm.
  destruct (IH (lineup ++ [selected])
               (JS.splice_indexOf selected (first :: others)))
    as (chosen & Hrun & Hsub & Hsorted).
  assert (Hall : ∀ p, p ∈ chosen → p ∈ first :: others).
  { intros p Hp. rewrite Hperm. right. by apply Hsub. }
  exists (selected :: chosen).
  rewrite Hrun, <- app_assoc. split_and!; [done| |].
  - intros p [->|Hp]%elem_of_cons; [done|by apply Hall].
  - constructor; [done|]. apply Forall_forall. intros p Hp.
    by apply Hleast, Hall.
Qed.

End Selection.

Section PeriodCounts.

Import StrictLineupGenerator.

Lemma get_bump (counts : gmap string nat) (p : Player.t) (id : string) :
  get (bump counts p) id
  = (get counts id + if decide (Player.id p = id) then 1 else 0)%nat.
Proof.
  unfold bump, get. rewrite lookup_insert. case_decide as Heq; simpl.
  - by rewrite Heq.
  - lia.
Qed.

Lemma get_bump_all (lineup : list Player.t) (counts : gmap string nat)
    (id : string) :
  get (foldl bump counts lineup) id
  = (get counts id + length (filter (λ p, Player.id p = id) lineup))%nat.
Proof.
  revert counts. induction lineup as [|p lineup IH]; intros counts; simpl.
  { lia. }
  rewrite IH, get_bump, filter_cons. case_decide; simpl; lia.
Qed.

Lemma occurrences_distinct (lineup : list Player.t) (id : string) :
  NoDup (map Player.id lineup) →
  length (filter (λ p, Player.id p = id) lineup)
  = if decide (id ∈ map Player.id lineup) then 1%nat else 0%nat.
Proof.
  induction lineup as [|p lineup IH]; simpl; [done|].
  intros [Hp Hnd]%NoDup_cons. specialize (IH Hnd).
  rewrite filter_cons.
  destruct (decide (Player.id p = id)) as [<-|Hne]; simpl.
  - rewrite IH. rewrite decide_False by done.
    by rewrite decide_True by left.
  - rewrite IH. destruct (decide (id ∈ map Player.id lineup)) as [Hin|Hin].
    + by rewrite decide_True by (by right).
    + rewrite decide_False; [done|].
      intros [?|?]%elem_of_cons; congruence.
Qed.

Lemma get_initial (players : list Player.t) (id : string) :
  get (foldl (λ counts p, <[Player.id p := 0%nat]> counts) ∅ players) id = 0%nat.
Proof.
  assert (H : ∀ counts : gmap string nat,
             get counts id = 0%nat →
             get (foldl (λ counts p, <[Player.id p := 0%nat]> counts)
                        counts players) id = 0%nat).
  { induction players as [|p players IH]; intros counts H0; simpl; [done|].
    apply IH. unfold get. rewrite lookup_insert. by case_decide. }
  apply H. unfold get. by rewrite lookup_empty.
Qed.

(** The map of the selector counts the entries of the completed lineups. *)
Lemma counted_appearances (periods : list Period.t)
    (counts : gmap string nat) (id : string) :
  StrictLineupGenerator.get
    (foldl (λ counts period,
              if Period.isCompleted period
              then foldl StrictLineupGenerator.bump counts (Period.lineup period)
              else counts)
           counts periods) id
  = (StrictLineupGenerator.get counts id + appearances periods id)%nat.
Proof.
  revert counts. induction periods as [|period periods IH]; intros counts;
    simpl; [lia|].
  rewrite IH. destruct (Period.isCompleted period); [|lia].
  rewrite get_bump_all. unfold occurrences. lia.
Qed.

Lemma calculatePeriodCounts_appearances (this : StrictLineupGenerator.t)
    (id : string) :
  StrictLineupGenerator.get (StrictLineupGenerator.calculatePeriodCounts this) id
  = appearances (StrictLineupGenerator.existingPeriods this) id.
Proof.
  unfold StrictLineupGenerator.calculatePeriodCounts.
  by rewrite counted_appearances, get_initial.
Qed.

(** Where no lineup lists a player twice, the map of the selector counts the
    completed periods a player was in. *)
Lemma calculatePeriodCounts_periodsPlayed (this : t) (id : string) :
  lineupsDistinct (existingPeriods this) →
  get (calculatePeriodCounts this) id = periodsPlayed (existingPeriods this) id.
Proof.
  intros Hdistinct. unfold calculatePeriodCounts, periodsPlayed.
  pose proof (get_initial (players this) id) as H0.
  set (counts := foldl _ ∅ (players this)) in *. clearbody counts.
  rewrite <- (Nat.add_0_l (length _)), <- H0. clear H0. revert counts.
  induction Hdistinct as [|period periods Hnd _ IH]; intros counts; simpl.
  { lia. }
  rewrite IH, filter_cons. destruct (Period.isCompleted period) eqn:Hdone.
  - rewrite get_bump_all, occurrences_distinct by done.
    case_decide as Hin.
    + rewrite decide_True by done. simpl. lia.
    + rewrite decide_False by tauto. lia.
  - rewrite decide_False by (intros [? _]; done). lia.
Qed.

(** C2, amended.  For two present players [a] and [b]: when the selector
    puts [b] in the lineup and leaves [a] out, [a] has at least the count of
    [b], where the count is that of the selector's own map: the number of
    entries with the player's id in the lineups of the completed periods.
    For a history whose lineups list nobody twice this is the number of
    completed periods containing the player.  The selector always
    returns. *)
Theorem strict_selector_never_skips_less_played
    (roster : list Player.t) (settings : GameSettings.t)
    (periods : list Period.t) (a b : Player.t) :
  a ∈ roster → Player.isPresent a = true →
  b ∈ roster → Player.isPresent b = true →
  let this := new roster settings periods in
  ∃ suggestion,
    generateOptimalLineup this = JS.Returned suggestion
    ∧ (b ∈ LineupSuggestion.players suggestion →
       a ∉ LineupSuggestion.players suggestion →
       (get (calculatePeriodCounts this) (Player.id b)
        ≤ get (calculatePeriodCounts this) (Player.id a))%nat
       ∧ (appearances periods (Player.id b)
          ≤ appearances periods (Player.id a))%nat
       ∧ (lineupsDistinct periods →
          (periodsPlayed periods (Player.id b)
           ≤ periodsPlayed periods (Player.id a))%nat)).
Proof.
  intros Ha Hpa Hb Hpb this.
  unfold generateOptimalLineup, generateStrictRotationLineup.
  set (counts := calculatePeriodCounts this).
  set (sorted := JS.sort (rotationOrder counts) (players this)).
  destruct (fillLineup_spec (GameSettings.playersOnCourt (StrictLineupGenerator.settings this))
              counts (length sorted) [] sorted)
    as (chosen & rest & Hrun & Hsplit & Horder & _).
  rewrite Hrun. simpl. eexists. split; [reflexivity|]. simpl.
  intros Hbin Hain.
  assert (Hle : (get counts (Player.id b) ≤ get counts (Player.id a))%nat).
  { apply Horder; [|done].
    assert (a ∈ chosen ++ rest) as [?|?]%elem_of_app; [|done..].
    rewrite Hsplit. unfold sorted. rewrite sort_perm.
    by apply list_elem_of_filter. }
  split; [done|]. split.
  - by rewrite <- !(calculatePeriodCounts_appearances this).
  - intros Hdistinct.
    by rewrite <- !(calculatePeriodCounts_periodsPlayed this).
Qed.

End PeriodCounts.

Section StrictSelector.

Import StrictLineupGenerator.

(** The selector never throws: the [reduce] of [selectBestFromTied] is not
    reached with an empty array. *)
Lemma generateOptimalLineup_returns (this : t) :
  ∃ suggestion, generateOptimalLineup this = JS.Returned suggestion.
Proof.
  unfold generateOptimalLineup, generateStrictRotationLineup.
  destruct (fillLineup_spec (GameSettings.playersOnCourt (settings this))
              (calculatePeriodCounts this)
              (length (JS.sort (rotationOrder (calculatePeriodCounts this))
                         (players this)))
              [] (JS.sort (rotationOrder (calculatePeriodCounts this))
                    (players this)))
    as (chosen & rest & -> & _).
  by eexists.
Qed.

(** The scenario of the specification: the four least-played players and,
    of the two who played twice, the more skilled one. *)
Example scenario_lineup :
  ∃ suggestion,
    generateOptimalLineup (new scenarioRoster scenarioSettings scenarioHistory)
    = JS.Returned suggestion
    ∧ LineupSuggestion.players suggestion = [P2; P1; P3; P4; P6].
Proof. eexists. split; [reflexivity|]. compute_done. Qed.

(** In the scenario P6 is chosen and P5 is left out; both have played two
    periods. *)
Lemma strict_selector_scenario :
  P5 ∈ scenarioRoster ∧ Player.isPresent P5 = true
  ∧ P6 ∈ scenarioRoster ∧ Player.isPresent P6 = true
  ∧ let this := new scenarioRoster scenarioSettings scenarioHistory in
    ∃ suggestion,
      generateOptimalLineup this = JS.Returned suggestion
      ∧ P6 ∈ LineupSuggestion.players suggestion
      ∧ (P5 ∉ LineupSuggestion.players suggestion)
      ∧ (get (calculatePeriodCounts this) (Player.id P6)
         ≤ get (calculatePeriodCounts this) (Player.id P5))%nat
      ∧ (appearances scenarioHistory (Player.id P6)
         ≤ appearances scenarioHistory (Player.id P5))%nat
      ∧ (periodsPlayed scenarioHistory (Player.id P6)
         ≤ periodsPlayed scenarioHistory (Player.id P5))%nat.
Proof.
  assert (H5 : P5 ∈ scenarioRoster) by (do 4 right; left).
  assert (H6 : P6 ∈ scenarioRoster) by (do 5 right; left).
  split; [exact H5|]. split; [reflexivity|].
  split; [exact H6|]. split; [reflexivity|].
  intros this.
  destruct (strict_selector_never_skips_less_played scenarioRoster
              scenarioSettings scenarioHistory P5 P6 H5 eq_refl H6 eq_refl)
    as (suggestion & Hrun & Hmin).
  fold this in Hrun, Hmin.
  assert (Hplayers : LineupSuggestion.players suggestion
                     = [P2; P1; P3; P4; P6]).
  { assert (Hrun' : ∃ s, generateOptimalLineup this = JS.Returned s
                         ∧ LineupSuggestion.players s = [P2; P1; P3; P4; P6]).
    { eexists. split; [reflexivity|]. compute_done. }
    destruct Hrun' as (s & Hs & <-). congruence. }
  assert (Hin : P6 ∈ LineupSuggestion.players suggestion).
  { rewrite Hplayers. compute_done. }
  assert (Hout : P5 ∉ LineupSuggestion.players suggestion).
  { rewrite Hplayers. compute_done. }
  assert (Hdistinct : lineupsDistinct scenarioHistory).
  { repeat constructor; compute_done. }
  destruct (Hmin Hin Hout) as (Hcount & Hentries & Hplayed).
  exists suggestion. split; [exact Hrun|]. split; [exact Hin|].
  split; [exact Hout|]. split; [exact Hcount|]. split; [exact Hentries|].
  exact (Hplayed Hdistinct).
Defined.

(** C2, as stated, fails on a history with a lineup that lists a player more
    than once.  P1 is listed three times in the first lineup and has played
    in one completed period, P2 in two; the selector counts three entries
    for P1, chooses P2 and leaves P1 out. *)
Lemma doubled_history_skips_less_played :
  P1 ∈ scenarioRoster ∧ Player.isPresent P1 = true
  ∧ P2 ∈ scenarioRoster ∧ Player.isPresent P2 = true
  ∧ ∃ suggestion,
      generateOptimalLineup (new scenarioRoster scenarioSettings doubledHistory)
      = JS.Returned suggestion
      ∧ LineupSuggestion.players suggestion = [P4; P5; P6; P3; P2]
      ∧ P2 ∈ LineupSuggestion.players suggestion
      ∧ (P1 ∉ LineupSuggestion.players suggestion)
      ∧ periodsPlayed doubledHistory (Player.id P1) = 1%nat
      ∧ periodsPlayed doubledHistory (Player.id P2) = 2%nat
      ∧ (periodsPlayed doubledHistory (Player.id P1)
         < periodsPlayed doubledHistory (Player.id P2))%nat.
Proof.
  split; [by left|]. split; [reflexivity|].
  split; [by right; left|]. split; [reflexivity|].
  eexists. split; [reflexivity|].
  split_and!; [compute_done..|]. vm_compute. lia.
Qed.

(** C3, as stated, fails: with two players present for a lineup of five the
    selector returns an ordinary suggestion of two players. *)
Lemma short_roster_gets_short_lineup :
  JS.of_nat (presentCount shortRoster)
  < GameSettings.playersOnCourt scenarioSettings
  ∧ ¬ failsExplicitly
        (generateOptimalLineup (new shortRoster scenarioSettings []))
  ∧ ∃ suggestion,
      generateOptimalLineup (new shortRoster scenarioSettings [])
      = JS.Returned suggestion
      ∧ LineupSuggestion.players suggestion = [P2; P1].
Proof.
  split; [compute_done|]. split.
  - intros H. vm_compute in H. discriminate H.
  - eexists. split; [reflexivity|]. compute_done.
Qed.

(** C3, amended.  With fewer present players than [playersOnCourt] the
    selector does not fail: it returns a suggestion whose lineup is made of
    all the present players, each as often as the roster lists the player,
    those with fewer entries in completed lineups first; it is shorter than
    [playersOnCourt], and empty only when nobody is present. *)
Theorem strict_selector_with_too_few_players
    (roster : list Player.t) (settings : GameSettings.t)
    (periods : list Period.t) :
  JS.of_nat (presentCount roster) < GameSettings.playersOnCourt settings →
  ∃ suggestion,
    generateOptimalLineup (new roster settings periods) = JS.Returned suggestion
    ∧ LineupSuggestion.players suggestion
      ≡ₚ filter (λ p, Player.isPresent p = true) roster
    ∧ StronglySorted
        (λ a b, (appearances periods (Player.id a)
                 ≤ appearances periods (Player.id b))%nat)
        (LineupSuggestion.players suggestion)
    ∧ JS.of_nat (length (LineupSuggestion.players suggestion))
      < GameSettings.playersOnCourt settings.
Proof.
  intros Hfew. unfold generateOptimalLineup, generateStrictRotationLineup.
  set (this := new roster settings periods).
  set (counts := calculatePeriodCounts this).
  set (sorted := JS.sort (rotationOrder counts) (players this)).
  destruct (fillLineup_spec (GameSettings.playersOnCourt (StrictLineupGenerator.settings this))
              counts (length sorted) [] sorted)
    as (chosen & rest & Hrun & Hsplit & _ & Hstop).
  destruct (fillLineup_order (GameSettings.playersOnCourt (StrictLineupGenerator.settings this))
              counts (length sorted) [] sorted)
    as (chosen' & Hrun' & _ & Hordered).
  rewrite Hrun in Hrun'. injection Hrun' as <-.
  assert (Hentries : StronglySorted
            (λ a b, (appearances periods (Player.id a)
                     ≤ appearances periods (Player.id b))%nat) chosen).
  { eapply StronglySorted_weaken; [|exact Hordered].
    intros x y _ _ Hxy. unfold played, counts in Hxy.
    rewrite !(calculatePeriodCounts_appearances this) in Hxy.
    exact Hxy. }
  rewrite Hrun. simpl. eexists. split; [reflexivity|]. simpl.
  assert (Hsorted : sorted ≡ₚ filter (λ p, Player.isPresent p = true) roster).
  { unfold sorted. by rewrite sort_perm. }
  assert (Hshort : JS.of_nat (length chosen) < GameSettings.playersOnCourt settings).
  { eapply Qcle_lt_trans; [|exact Hfew]. apply of_nat_le.
    unfold presentCount. rewrite <- Hsorted, <- Hsplit, length_app. lia. }
  split; [|done].
  destruct (Hstop (le_n _)) as [->|Hfull]; [|done].
  by rewrite <- Hsorted, <- Hsplit, app_nil_r.
Qed.

(** After a period that P2 has played, P1 comes first. *)
Lemma strict_selector_with_too_few_players_example :
  JS.of_nat (presentCount shortRoster)
  < GameSettings.playersOnCourt scenarioSettings
  ∧ (∃ suggestion,
       generateOptimalLineup (new shortRoster scenarioSettings shortHistory)
       = JS.Returned suggestion
       ∧ LineupSuggestion.players suggestion = [P1; P2])
  ∧ ∃ suggestion,
      generateOptimalLineup (new shortRoster scenarioSettings shortHistory)
      = JS.Returned suggestion
      ∧ LineupSuggestion.players suggestion
        ≡ₚ filter (λ p, Player.isPresent p = true) shortRoster
      ∧ StronglySorted
          (λ a b, (appearances shortHistory (Player.id a)
                   ≤ appearances shortHistory (Player.id b))%nat)
          (LineupSuggestion.players suggestion)
      ∧ JS.of_nat (length (LineupSuggestion.players suggestion))
        < GameSettings.playersOnCourt scenarioSettings.
Proof.
  assert (H : JS.of_nat (presentCount shortRoster)
              < GameSettings.playersOnCourt scenarioSettings) by reflexivity.
  split; [exact H|].
  split; [eexists; split; [reflexivity|compute_done]|].
  exact (strict_selector_with_too_few_players shortRoster scenarioSettings
           shortHistory H).
Defined.

End StrictSelector.

(** ** Position balance *)

Section PositionBalance.

Import StrictLineupGenerator.

Lemma ratio_of_counts (d m : nat) :
  (0 < m)%nat → (d ≤ m)%nat →
  0 ≤ JS.of_nat d / JS.of_nat m ≤ 1
  ∧ (JS.of_nat d / JS.of_nat m = 1 ↔ d = m).
Proof.
  intros Hm Hd. pose proof (of_nat_pos m Hm) as Hpos.
  assert (Hnz : JS.of_nat m ≠ 0).
  { intros H0. rewrite H0 in Hpos. by destruct (irreflexivity Qclt _ Hpos). }
  assert (Hback : JS.of_nat d / JS.of_nat m * JS.of_nat m = JS.of_nat d).
  { rewrite Qcmult_comm. by apply Qcmult_div_r. }
  split; [split|split].
  - apply (Qcmult_lt_0_le_reg_r _ _ (JS.of_nat m) Hpos).
    rewrite Hback, Qcmult_0_l. apply of_nat_nonneg.
  - apply (Qcmult_lt_0_le_reg_r _ _ (JS.of_nat m) Hpos).
    rewrite Hback, Qcmult_1_l. by apply of_nat_le.
  - intros H1. rewrite H1, Qcmult_1_l in Hback. by apply of_nat_inj.
  - intros ->. unfold Qcdiv. by apply Qcmult_inv_r.
Qed.

Lemma size_list_to_set_le (l : list Position) :
  (size (list_to_set l : gset Position) ≤ length l)%nat.
Proof.
  induction l as [|x l IH].
  { by rewrite list_to_set_nil, size_empty. }
  rewrite list_to_set_cons, size_union_alt, size_singleton. simpl.
  assert (H : (size (list_to_set l ∖ {[x]} : gset Position)
               ≤ size (list_to_set l : gset Position))%nat).
  { apply subseteq_size. set_solver. }
  lia.
Qed.

Lemma nonAnyPositions_size (lineup : list Player.t) :
  (size (nonAnyPositions lineup) ≤ Nat.min 3 (length lineup))%nat.
Proof.
  apply Nat.min_glb.
  - change 3%nat with (size ({[Guard; Forward; Center]} : gset Position)).
    apply subseteq_size. intros p Hp.
    apply elem_of_list_to_set, list_elem_of_filter in Hp as [Hp _].
    destruct p; set_solver.
  - etrans; [apply size_list_to_set_le|].
    etrans; [apply length_filter|]. by rewrite length_map.
Qed.

Lemma nonAnyPositions_elem (lineup : list Player.t) (p : Position) :
  p ∈ nonAnyPositions lineup ↔ p ≠ Any ∧ hasPosition lineup p.
Proof.
  unfold nonAnyPositions, hasPosition.
  by rewrite elem_of_list_to_set, list_elem_of_filter.
Qed.

Lemma all_three_positions (lineup : list Player.t) :
  size (nonAnyPositions lineup) = 3%nat
  ↔ hasPosition lineup Guard ∧ hasPosition lineup Forward
    ∧ hasPosition lineup Center.
Proof.
  pose proof (nonAnyPositions_size lineup) as Hsize.
  assert (Hsub : nonAnyPositions lineup ⊆ {[Guard; Forward; Center]}).
  { intros p [Hp _]%nonAnyPositions_elem. destruct p; set_solver. }
  split.
  - intros H3.
    apply set_subseteq_size_eq in Hsub;
      [|by rewrite H3].
    split_and!; eapply nonAnyPositions_elem; rewrite Hsub; set_solver.
  - intros (HG & HF & HC).
    assert (({[Guard; Forward; Center]} : gset Position)
            ⊆ nonAnyPositions lineup) as Hall%subseteq_size.
    { intros p Hp. apply nonAnyPositions_elem.
      destruct p; set_solver. }
    change (size ({[Guard; Forward; Center]} : gset Position)) with 3%nat in Hall.
    lia.
Qed.

(** On a lineup that is not empty the balance is the ratio
    [distinctNonAnyPositions / min(3, lineupSize)], it lies in [0,1], and for
    three players or more it is 1 exactly when a Guard, a Forward and a
    Center are there. *)
Lemma positionBalance_of_nonempty_lineup (lineup : list Player.t) :
  lineup ≠ [] →
  ∃ balance,
    calculatePositionBalance lineup = JS.Fin balance
    ∧ balance = JS.of_nat (size (nonAnyPositions lineup))
                / JS.of_nat (Nat.min 3 (length lineup))
    ∧ 0 ≤ balance ≤ 1
    ∧ ((3 ≤ length lineup)%nat →
       balance = 1
       ↔ hasPosition lineup Guard ∧ hasPosition lineup Forward
         ∧ hasPosition lineup Center).
Proof.
  intros Hne. unfold calculatePositionBalance. fold (nonAnyPositions lineup).
  assert (Hm : (0 < Nat.min 3 (length lineup))%nat).
  { destruct lineup; simpl in *; [done|lia]. }
  rewrite div_by_count by done.
  destruct (ratio_of_counts _ _ Hm (nonAnyPositions_size lineup)) as [Hrange Hone].
  eexists. split_and!; [done..|apply Hrange|apply Hrange|].
  intros Hlen. rewrite Hone, <- all_three_positions. lia.
Qed.

(** C6 at the empty lineup, which [generateOptimalLineup] builds when nobody
    is present: the balance is [0 / 0]. *)
Theorem positionBalance_of_empty_lineup :
  calculatePositionBalance [] = JS.NaN
  ∧ ∃ suggestion,
      generateOptimalLineup (new (Game.roster nobodyPresentGame)
                               (Game.settings nobodyPresentGame) [])
      = JS.Returned suggestion
      ∧ LineupSuggestion.players suggestion = []
      ∧ LineupSuggestion.positionBalance suggestion = JS.NaN.
Proof. split; [reflexivity|]. eexists. by split_and!. Qed.

End PositionBalance.

(** ** The coordinator: swapping players *)

Section Swap.

Import GameManager.

Lemma find_by_id_None (x : string) (l : list Player.t) :
  list_find (λ p, Player.id p = x) l = None ↔ x ∉ map Player.id l.
Proof.
  rewrite list_find_None, Forall_forall. split.
  - intros Hall (p & Hp & Hin)%list_elem_of_fmap. by apply (Hall p).
  - intros Hnot p Hin Hp. apply Hnot. subst x. by apply list_elem_of_fmap_2.
Qed.

Lemma find_by_id_Some (x : string) (l : list Player.t) (i : nat) (p : Player.t) :
  list_find (λ p, Player.id p = x) l = Some (i, p) →
  l !! i = Some p ∧ Player.id p = x ∧ x ∈ map Player.id l.
Proof.
  intros (Hi & Hp & _)%list_find_Some. split_and!; [done..|].
  subst x. eapply list_elem_of_fmap_2, list_elem_of_lookup_2, Hi.
Qed.

(** A [periodId] that names no period of the game: the swap fails and
    changes nothing. *)
Lemma swapPlayers_unknown_period (game : Game.t)
    (periodId playerOutId playerInId : string) :
  findPeriod periodId (Game.periods game) = None →
  swapPlayers game periodId playerOutId playerInId = (game, false).
Proof. intros Hnone. unfold swapPlayers. by rewrite Hnone. Qed.

(** What [swapPlayers] does to the game, for a period it finds. *)
Lemma swapPlayers_outcome (game : Game.t)
    (periodId playerOutId playerInId : string) (k : nat) (period : Period.t) :
  findPeriod periodId (Game.periods game) = Some (k, period) →
  let result := swapPlayers game periodId playerOutId playerInId in
  (result.2 = false ↔ invalidSwap game period playerOutId playerInId)
  ∧ (result.2 = false → result.1 = game)
  ∧ (result.2 = true →
     ∃ i playerOut playerIn lineup',
       list_find (λ p, Player.id p = playerOutId) (Period.lineup period)
       = Some (i, playerOut)
       ∧ playerIn ∈ Game.roster game
       ∧ Player.id playerIn = playerInId
       ∧ Player.isPresent playerIn = true
       ∧ replacedAt i playerIn (Period.lineup period) lineup'
       ∧ result.1
         = Game.mk (Game.settings game) (Game.roster game)
             (<[k := Period.set_lineup lineup' period]> (Game.periods game))).
Proof.
  intros Hperiod result. unfold result, swapPlayers, invalidSwap.
  rewrite Hperiod. clear result.
  destruct (Period.isCompleted period) eqn:Hdone; simpl.
  { split_and!; [split; auto| done..]. }
  destruct (list_find _ (Period.lineup period)) as [[i playerOut]|] eqn:Hout;
    last first.
  { apply find_by_id_None in Hout. split_and!; [split; auto|done..]. }
  destruct (list_find _ (Game.roster game)) as [[j playerIn]|] eqn:Hin;
    last first.
  { rewrite list_find_None, Forall_forall in Hin.
    split_and!; [split; [intros _|done]|done..].
    do 2 right. left. intros (p & Hp & Hid & Hpresent). by apply (Hin p). }
  apply list_find_Some in Hin as (Hj & [Hid Hpresent] & _).
  pose proof (find_by_id_Some _ _ _ _ Hout) as (Hi & Hoid & Hoin).
  case_decide as Halready; simpl.
  { split_and!; [split; [intros _|done]|done..].
    do 3 right. apply Exists_exists in Halready as (p & Hp & <-).
    by apply list_elem_of_fmap_2. }
  split_and!; [split; [done|]|done|].
  - intros [?|[?|[Hnone|Hdup]]]; [done..| |].
    + destruct Hnone. exists playerIn. split_and!; [|done..].
      by eapply list_elem_of_lookup_2.
    + destruct Halready. apply Exists_exists.
      apply list_elem_of_fmap in Hdup as (p & -> & Hp). by exists p.
  - intros _. exists i, playerOut, playerIn, (<[i := playerIn]> (Period.lineup period)).
    split_and!; [done| |done..| |done].
    + by eapply list_elem_of_lookup_2.
    + split_and!.
      * apply length_insert.
      * apply list_lookup_insert_eq. by eapply lookup_lt_Some.
      * intros j' Hne. by apply list_lookup_insert_ne.
Qed.

(** A swap that is refused changes nothing. *)
Lemma swapPlayers_refused_keeps (game : Game.t)
    (periodId playerOutId playerInId : string) :
  snd (swapPlayers game periodId playerOutId playerInId) = false →
  fst (swapPlayers game periodId playerOutId playerInId) = game.
Proof. unfold swapPlayers. by repeat case_match. Qed.

Lemma find_first_period (periods : list Period.t) (periodId : string)
    (k : nat) (period : Period.t) :
  findPeriod periodId periods = Some (k, period)
  ↔ firstPeriodWithId periods periodId k period.
Proof.
  unfold findPeriod, firstPeriodWithId. rewrite list_find_Some. naive_solver.
Qed.

Lemma findPeriod_insert (periods : list Period.t) (periodId : string)
    (k : nat) (period period' : Period.t) :
  findPeriod periodId periods = Some (k, period) →
  Period.id period' = Period.id period →
  findPeriod periodId (<[k := period']> periods) = Some (k, period').
Proof.
  intros (Hk & Hid & Hfirst)%list_find_Some Hsame.
  apply list_find_Some. split_and!.
  - apply list_lookup_insert_eq. by eapply lookup_lt_Some.
  - congruence.
  - intros j q Hj Hlt. rewrite list_lookup_insert_ne in Hj by lia.
    by eapply Hfirst.
Qed.

(** C7.  For the period that [periodId] names, [swapPlayers] fails exactly
    when the period is completed, [playerOutId] is not in its lineup,
    [playerInId] is not a present roster player, or [playerInId] is already
    in the lineup; a failed swap changes nothing; a successful one puts the
    present roster player [playerInId] at the place of the first entry
    [playerOutId] of the period's lineup and keeps the size and every other
    entry of it.  The lineup is an array: a period that holds the same array
    has the new lineup as well, and nothing else changes. *)
Theorem swapPlayers_fails_exactly_when_invalid (this : Shared.t)
    (periodId playerOutId playerInId : string) (k : nat) (period : Period.t) :
  firstPeriodWithId (Game.periods (Shared.game this)) periodId k period →
  let result := Shared.swapPlayers this periodId playerOutId playerInId in
  (result.2 = false
   ↔ invalidSwap (Shared.game this) period playerOutId playerInId)
  ∧ (result.2 = false → result.1 = this)
  ∧ (result.2 = true →
     swapped this k period playerOutId playerInId result.1).
Proof.
  intros Hfirst. pose proof Hfirst as (Hk & Hid & _).
  apply find_first_period in Hfirst.
  destruct (swapPlayers_outcome _ _ playerOutId playerInId _ _ Hfirst)
    as (Hiff & Hfail & Hdone).
  unfold Shared.swapPlayers. simpl.
  destruct (swapPlayers (Shared.game this) periodId playerOutId playerInId)
    as [game' [|]] eqn:Hswap; simpl in *; last first.
  { split_and!; done. }
  destruct (Hdone eq_refl)
    as (i & playerOut & playerIn & lineup' & Hout & Hin & Hinid & Hpresent
        & Hreplaced & ->).
  simpl.
  rewrite (findPeriod_insert _ _ _ _ (Period.set_lineup lineup' period)
             Hfirst eq_refl).
  simpl. split_and!; [done|done|]. intros _.
  exists i, playerOut, playerIn, (Period.set_lineup lineup' period).
  assert (Hlt : (k < length (Game.periods (Shared.game this)))%nat)
    by (by eapply lookup_lt_Some).
  simpl. do 4 (split; [done|]). split.
  { rewrite list_lookup_imap, list_lookup_insert_eq by done. simpl.
    by rewrite decide_True by (by left). }
  split; [exact Hreplaced|]. do 4 (split; [done|]). split.
  { by rewrite length_imap, length_insert. }
  intros j other Hne Hj.
  rewrite list_lookup_imap, list_lookup_insert_ne, Hj by done. simpl.
  case_decide; eexists; (split; [done|]); by split.
Qed.

Example swap_bench_player_in :
  swapPlayers swapGame "period-1" "P2" "P6"
  = (Game.mk scenarioSettings scenarioRoster
       [Period.mk "period-1" 1 [P1; P6; P3; P4; P5] false None],
     true).
Proof. reflexivity. Qed.

Example swap_lineup_player_in_fails :
  swapPlayers swapGame "period-1" "P2" "P1" = (swapGame, false).
Proof. reflexivity. Qed.

(** The example of the specification: F comes in for B, and A, who is in the
    lineup already, does not. *)
Lemma swapPlayers_example :
  firstPeriodWithId (Game.periods swapGame) "period-1" 0
    (Period.mk "period-1" 1 [P1; P2; P3; P4; P5] false None)
  ∧ (Shared.swapPlayers swapShared "period-1" "P2" "P6").2 = true
  ∧ swapped swapShared 0
      (Period.mk "period-1" 1 [P1; P2; P3; P4; P5] false None) "P2" "P6"
      (Shared.swapPlayers swapShared "period-1" "P2" "P6").1
  ∧ map Period.lineup
      (Game.periods
         (Shared.game (Shared.swapPlayers swapShared "period-1" "P2" "P6").1))
    = [[P1; P6; P3; P4; P5]]
  ∧ invalidSwap swapGame
      (Period.mk "period-1" 1 [P1; P2; P3; P4; P5] false None) "P2" "P1"
  ∧ (Shared.swapPlayers swapShared "period-1" "P2" "P1").2 = false
  ∧ (Shared.swapPlayers swapShared "period-1" "P2" "P1").1 = swapShared.
Proof.
  assert (H : firstPeriodWithId (Game.periods swapGame) "period-1" 0
                (Period.mk "period-1" 1 [P1; P2; P3; P4; P5] false None)).
  { split_and!; [reflexivity..|]. intros j q Hj. lia. }
  pose proof (swapPlayers_fails_exactly_when_invalid swapShared
                "period-1" "P2" "P6" 0 _ H) as (_ & _ & Hin).
  pose proof (swapPlayers_fails_exactly_when_invalid swapShared
                "period-1" "P2" "P1" 0 _ H) as (Hiff & Hsame & _).
  assert (Hfalse : (Shared.swapPlayers swapShared "period-1" "P2" "P1").2
                   = false) by reflexivity.
  split; [exact H|]. split; [reflexivity|].
  split; [exact (Hin eq_refl)|]. split; [reflexivity|].
  split; [exact (proj1 Hiff Hfalse)|]. split; [exact Hfalse|].
  exact (Hsame Hfalse).
Defined.

End Swap.

(** ** The coordinator: late arrivals *)

Section LateArrival.

Import GameManager.

Lemma alter_insert {A} (f : A → A) (i : nat) (x : A) (l : list A) :
  alter f i (<[i := x]> l) = <[i := f x]> l.
Proof.
  revert i. induction l as [|y l IH]; intros [|i]; simpl; [done..|].
  f_equal. apply IH.
Qed.

Lemma present_after_insert (roster : list Player.t) (i : nat) (p : Player.t) :
  (i < length roster)%nat → Player.isPresent p = true →
  (0 < length (filter (λ q, Player.isPresent q = true) (<[i := p]> roster)))%nat.
Proof.
  intros Hi Hp.
  assert (p ∈ filter (λ q, Player.isPresent q = true) (<[i := p]> roster)) as Hin.
  { apply list_elem_of_filter. split; [done|].
    eapply list_elem_of_lookup_2. by apply list_lookup_insert_eq. }
  destruct (filter _ _); [by apply not_elem_of_nil in Hin|simpl; lia].
Qed.

Lemma present_count_after_mark (roster : list Player.t) (i : nat)
    (player : Player.t) :
  roster !! i = Some player →
  length (filter (λ q, Player.isPresent q = true)
                 (<[i := Player.set_isPresent true player]> roster))
  = presentWith roster player.
Proof.
  unfold presentWith. revert i.
  induction roster as [|q roster IH]; intros [|i] Hi; simplify_eq/=.
  - rewrite filter_cons.
    destruct (Player.isPresent player) eqn:Hp.
    + rewrite decide_True by done. simpl. lia.
    + rewrite decide_False by done. simpl. lia.
  - rewrite !filter_cons. specialize (IH i Hi).
    destruct (decide (Player.isPresent q = true)); simpl; lia.
Qed.

Lemma find_first (roster : list Player.t) (playerId : string) (i : nat)
    (player : Player.t) :
  findPlayer playerId roster = Some (i, player)
  ↔ firstWithId roster playerId i player.
Proof.
  unfold findPlayer, firstWithId. rewrite list_find_Some. naive_solver.
Qed.

(** What [addLatePlayer] does for a player it finds. *)
Lemma addLatePlayer_computes (game : Game.t) (playerId : string) (i : nat)
    (player : Player.t) :
  findPlayer playerId (Game.roster game) = Some (i, player) →
  addLatePlayer game playerId
  = if decide (length (completedHistory game) = 0%nat)
    then Some (Game.mk (Game.settings game) (markedPresent game i player)
                 (Game.periods game))
    else match lateCredit (Game.settings game)
                 (presentWith (Game.roster game) player)
                 (length (completedHistory game)) with
         | JS.Fin credit =>
             Some (Game.mk (Game.settings game)
                     (<[i := Player.set_totalPlayingTime credit
                              (Player.set_isPresent true player)]>
                        (Game.roster game))
                     (Game.periods game))
         | _ => None
         end.
Proof.
  intros Hfind. unfold addLatePlayer. rewrite Hfind.
  unfold calculateCatchUpTime, completedHistory, presentRoster.
  cbn [Game.settings Game.roster Game.periods].
  fold (completedHistory game). fold (markedPresent game i player).
  case_decide as Hnone; [done|].
  apply list_find_Some in Hfind as (Hi & _ & _).
  unfold markedPresent at 1. rewrite (present_count_after_mark _ _ _ Hi).
  unfold JS.fmul, JS.fdiv. rewrite literal_seven_tenths.
  fold (lateCredit (Game.settings game) (presentWith (Game.roster game) player)
          (length (completedHistory game))).
  destruct (lateCredit _ _ _); [|done..].
  unfold markedPresent. by rewrite alter_insert.
Qed.

End LateArrival.

Section LateCredit.

Import GameManager.

(** C9, as stated, fails at the default settings: with seven players present
    and three periods completed the claimed credit is
    0.7 * (4 * 5 / 7) * 3 = 6, also when every operation of that product is
    rounded, and the credit stored is the double next below 6. *)
Lemma late_player_credit_is_not_the_claimed_product :
  firstWithId (Game.roster lateInThirdGame) "P7" 6
    (Player.set_isPresent false (scenarioPlayer "P7" 3 Any))
  ∧ completedCount (Game.periods lateInThirdGame) = 3%nat
  ∧ presentWith (Game.roster lateInThirdGame)
      (Player.set_isPresent false (scenarioPlayer "P7" 3 Any)) = 7%nat
  ∧ claimedCredit scenarioSettings 7 3 = Qc_of_Z 6
  ∧ claimedCreditRounded scenarioSettings 7 3 = JS.Fin (Qc_of_Z 6)
  ∧ ∃ game' player',
      addLatePlayer lateInThirdGame "P7" = Some game'
      ∧ Game.roster game' !! 6%nat = Some player'
      ∧ Player.id player' = "P7"
      ∧ Player.isPresent player' = true
      ∧ Player.totalPlayingTime player' = just_below_six
      ∧ Player.totalPlayingTime player' < claimedCredit scenarioSettings 7 3.
Proof.
  split.
  { split_and!; [reflexivity..|].
    intros j q Hj Hq. do 6 (destruct j as [|j]; [by simplify_eq/=|]). lia. }
  split; [reflexivity|]. split; [reflexivity|].
  split; [compute_done|]. split; [compute_done|].
  eexists _, _. split; [vm_compute; reflexivity|].
  split; [reflexivity|]. split_and!; [reflexivity..|compute_done|compute_done].
Qed.

Lemma nonneg_product (a b : Qc) : 0 ≤ a → 0 ≤ b → 0 ≤ a * b.
Proof.
  intros Ha Hb. rewrite <- (Qcmult_0_l b). by apply Qcmult_le_compat_r.
Qed.

Lemma nonneg_per_count (a : Qc) (n : nat) :
  (0 < n)%nat → 0 ≤ a → 0 ≤ a / JS.of_nat n.
Proof.
  intros Hn Ha. pose proof (of_nat_pos n Hn) as Hpos.
  apply (Qcmult_lt_0_le_reg_r _ _ (JS.of_nat n) Hpos).
  rewrite Qcmult_0_l, Qcmult_comm, Qcmult_div_r; [done|].
  intros H0. rewrite H0 in Hpos. by destruct (irreflexivity Qclt _ Hpos).
Qed.

(** C9, amended.  With at least one completed period, [addLatePlayer] marks
    the first roster player with the given id present and sets the playing
    time to the double that the engine computes for
    [Math.max(0, ((periodDuration * playersOnCourt) / presentPlayerCount
    * completedPeriodsCount) * 0.7)], the present players being counted
    after the mark and each operation being rounded in this order, when that
    double is finite.  The player keeps id, name, jersey number, skill level
    and position, and nothing else in the game changes. *)
Theorem late_player_gets_rounded_catch_up_credit (game : Game.t)
    (playerId : string) (i : nat) (player : Player.t) (credit : Qc) :
  firstWithId (Game.roster game) playerId i player →
  completedCount (Game.periods game) ≠ 0%nat →
  lateCredit (Game.settings game) (presentWith (Game.roster game) player)
    (completedCount (Game.periods game)) = JS.Fin credit →
  ∃ game' player',
    addLatePlayer game playerId = Some game'
    ∧ Game.roster game' !! i = Some player'
    ∧ Player.isPresent player' = true
    ∧ Player.totalPlayingTime player' = credit
    ∧ identity player' = identity player
    ∧ length (Game.roster game') = length (Game.roster game)
    ∧ (∀ j, j ≠ i → Game.roster game' !! j = Game.roster game !! j)
    ∧ Game.settings game' = Game.settings game
    ∧ Game.periods game' = Game.periods game.
Proof.
  intros Hfirst Hcompleted Hcredit.
  pose proof Hfirst as (Hi & _). apply find_first in Hfirst.
  rewrite (addLatePlayer_computes _ _ _ _ Hfirst).
  change (length (completedHistory game))
    with (completedCount (Game.periods game)).
  rewrite decide_False by done. rewrite Hcredit.
  eexists _, (Player.set_totalPlayingTime credit
                (Player.set_isPresent true player)).
  split; [reflexivity|]. simpl. split.
  { apply list_lookup_insert_eq. by eapply lookup_lt_Some. }
  split_and!; [done..| | |done|done].
  - apply length_insert.
  - intros j Hj. by apply list_lookup_insert_ne.
Qed.

Lemma late_player_credit_example :
  firstWithId (Game.roster lateInThirdGame) "P7" 6
    (Player.set_isPresent false (scenarioPlayer "P7" 3 Any))
  ∧ completedCount (Game.periods lateInThirdGame) ≠ 0%nat
  ∧ lateCredit (Game.settings lateInThirdGame)
      (presentWith (Game.roster lateInThirdGame)
         (Player.set_isPresent false (scenarioPlayer "P7" 3 Any)))
      (completedCount (Game.periods lateInThirdGame))
    = JS.Fin just_below_six
  ∧ ∃ game' player',
      addLatePlayer lateInThirdGame "P7" = Some game'
      ∧ Game.roster game' !! 6%nat = Some player'
      ∧ Player.isPresent player' = true
      ∧ Player.totalPlayingTime player' = just_below_six
      ∧ identity player'
        = identity (Player.set_isPresent false (scenarioPlayer "P7" 3 Any))
      ∧ length (Game.roster game') = length (Game.roster lateInThirdGame)
      ∧ (∀ j, j ≠ 6%nat →
              Game.roster game' !! j = Game.roster lateInThirdGame !! j)
      ∧ Game.settings game' = Game.settings lateInThirdGame
      ∧ Game.periods game' = Game.periods lateInThirdGame.
Proof.
  assert (H1 : firstWithId (Game.roster lateInThirdGame) "P7" 6
                 (Player.set_isPresent false (scenarioPlayer "P7" 3 Any))).
  { split_and!; [reflexivity..|].
    intros j q Hj Hq. do 6 (destruct j as [|j]; [by simplify_eq/=|]). lia. }
  assert (H2 : completedCount (Game.periods lateInThirdGame) ≠ 0%nat)
    by (vm_compute; lia).
  assert (H3 : lateCredit (Game.settings lateInThirdGame)
                 (presentWith (Game.roster lateInThirdGame)
                    (Player.set_isPresent false (scenarioPlayer "P7" 3 Any)))
                 (completedCount (Game.periods lateInThirdGame))
               = JS.Fin just_below_six) by compute_done.
  split; [exact H1|]. split; [exact H2|]. split; [exact H3|].
  exact (late_player_gets_rounded_catch_up_credit lateInThirdGame "P7" 6 _ _
           H1 H2 H3).
Defined.

(** After two periods the credit is exact: ((4 * 5) / 7 * 2) * 0.7 is
    rounded to 4. *)
Example late_player_credit_value :
  lateCredit scenarioSettings 7 2 = JS.Fin (Qc_of_Z 4).
Proof. compute_done. Qed.

End LateCredit.

(** ** The coordinator: completing a period *)

Section Completion.

Import GameManager.

Variable duration : Qc.

Lemma landing_ids (roster roster' : list Player.t) (id : string) :
  map Player.id roster' = map Player.id roster →
  landing roster' id = landing roster id.
Proof.
  intros Hids. unfold landing, findPlayer.
  assert (H : ∀ l, fst <$> list_find (λ p, Player.id p = id) l
                   = fst <$> list_find (λ x, x = id) (map Player.id l)).
  { intros l. change (map Player.id l) with (Player.id <$> l).
    rewrite list_find_fmap. by destruct (list_find _ l) as [[??]|]. }
  rewrite !H. by rewrite Hids.
Qed.

Lemma creditPlayer_ids (roster : list Player.t) (p : Player.t) :
  map Player.id (creditPlayer duration roster p) = map Player.id roster.
Proof.
  unfold creditPlayer.
  destruct (findPlayer _ roster) as [[i gamePlayer]|] eqn:Hfind; [|done].
  apply list_find_Some in Hfind as (Hi & _ & _).
  change (map Player.id ?l) with (Player.id <$> l).
  rewrite list_fmap_insert. simpl. apply list_insert_id.
  by rewrite list_lookup_fmap, Hi.
Qed.

Lemma credited_ids (lineup roster : list Player.t) :
  map Player.id (foldl (creditPlayer duration) roster lineup)
  = map Player.id roster.
Proof.
  revert roster. induction lineup as [|p lineup IH]; intros roster; simpl.
  - done.
  - by rewrite IH, creditPlayer_ids.
Qed.

Lemma hits_ids (roster roster' : list Player.t) (i : nat)
    (lineup : list Player.t) :
  map Player.id roster' = map Player.id roster →
  hits roster' i lineup = hits roster i lineup.
Proof.
  intros Hids. unfold hits. f_equal. apply list_filter_iff. intros p.
  by rewrite (landing_ids _ _ _ Hids).
Qed.

Lemma hits_cons (roster : list Player.t) (i : nat) (p : Player.t)
    (lineup : list Player.t) :
  hits roster i (p :: lineup)
  = ((if decide (landing roster (Player.id p) = Some i) then 1 else 0)
     + hits roster i lineup)%nat.
Proof. unfold hits. rewrite filter_cons. by case_decide. Qed.

(** Every entry of the roster ends up with one [duration] for each lineup
    entry that lands on it. *)
Lemma credited_lookup (lineup roster : list Player.t) (i : nat) (r : Player.t) :
  roster !! i = Some r →
  foldl (creditPlayer duration) roster lineup !! i
  = Some (Player.set_totalPlayingTime
            (Player.totalPlayingTime r
             + JS.of_nat (hits roster i lineup) * duration) r).
Proof.
  revert roster r. induction lineup as [|p lineup IH]; intros roster r Hi.
  { simpl. rewrite Hi. f_equal. destruct r. unfold Player.set_totalPlayingTime.
    simpl. f_equal. unfold hits. simpl. rewrite of_nat_0. ring. }
  cbn [foldl]. pose proof (creditPlayer_ids roster p) as Hids.
  rewrite hits_cons, <- (hits_ids _ _ i lineup Hids).
  unfold creditPlayer in *.
  destruct (decide (landing roster (Player.id p) = Some i)) as [Hland|Hland];
    unfold landing in Hland;
    destruct (findPlayer (Player.id p) roster) as [[j gamePlayer]|] eqn:Hfind;
    simpl in Hland; try done.
  - injection Hland as ->.
    pose proof Hfind as (Hj & _ & _)%list_find_Some.
    assert (gamePlayer = r) as -> by congruence.
    erewrite IH; [|apply list_lookup_insert_eq; by eapply lookup_lt_Some].
    f_equal. unfold Player.set_totalPlayingTime. simpl. f_equal.
    rewrite of_nat_S. ring.
  - erewrite IH; [done|]. rewrite list_lookup_insert_ne; [done|congruence].
  - by apply IH.
Qed.

(** An entry that is the first of the roster with its id receives the credit
    of every lineup entry with that id; an entry shadowed by an earlier one
    with the same id receives none. *)
Lemma hits_first (roster lineup : list Player.t) (i : nat) (r : Player.t) :
  findPlayer (Player.id r) roster = Some (i, r) →
  hits roster i lineup = occurrences (Player.id r) lineup.
Proof.
  intros Hfirst. unfold hits, occurrences. f_equal.
  apply list_filter_iff. intros p. unfold landing. split.
  - destruct (findPlayer (Player.id p) roster) as [[j q]|] eqn:Hfind; [|done].
    simpl. intros [= ->].
    apply list_find_Some in Hfind as (Hq & Hid & _).
    apply list_find_Some in Hfirst as (Hr & _ & _). congruence.
  - intros ->. by rewrite Hfirst.
Qed.

Lemma first_of_distinct_ids (roster : list Player.t) (i : nat) (r : Player.t) :
  NoDup (map Player.id roster) → roster !! i = Some r →
  findPlayer (Player.id r) roster = Some (i, r).
Proof.
  intros Hnd Hi. apply list_find_Some. split_and!; [done..|].
  intros j q Hj Hlt Heq.
  assert (j = i); [|lia].
  change (map Player.id roster) with (Player.id <$> roster) in Hnd.
  eapply (NoDup_lookup _ _ _ _ Hnd); rewrite list_lookup_fmap.
  - by rewrite Hj.
  - rewrite Hi. simpl. by rewrite Heq.
Qed.

End Completion.

Section CompletePeriod.

Import GameManager.

(** [completePeriod] on a period it finds: the period is marked, the duration
    recorded, and the lineup credited. *)
Lemma completePeriod_found (game : Game.t) (periodId : string)
    (actualDuration : option Qc) (k : nat) (period : Period.t) :
  findPeriod periodId (Game.periods game) = Some (k, period) →
  let duration :=
    durationOrDefault actualDuration
      (GameSettings.periodDuration (Game.settings game)) in
  completePeriod game periodId actualDuration
  = Game.mk (Game.settings game)
      (foldl (creditPlayer duration) (Game.roster game) (Period.lineup period))
      (<[k := Period.mk (Period.id period) (Period.number period)
                (Period.lineup period) true (Some duration)]>
         (Game.periods game)).
Proof. intros Hfind. unfold completePeriod. by rewrite Hfind. Qed.



(** C1 on the scenario: the period has a duration of 4; completing it once
    credits 4 minutes to each of its five players, and completing it again
    credits another 4, so they stand at 8. *)
Theorem completePeriod_twice_credits_twice :
  let once := completePeriod firstPeriodGame "period-1" None in
  let twice := completePeriod once "period-1" None in
  Period.actualDuration <$> Game.periods once = [Some (Qc_of_Z 4)]
  ∧ Player.totalPlayingTime <$> Game.roster once
    = Qc_of_Z <$> [4; 4; 4; 4; 0; 4]%Z
  ∧ Player.totalPlayingTime <$> Game.roster twice
    = Qc_of_Z <$> [8; 8; 8; 8; 0; 8]%Z.
Proof. split_and!; compute_done. Qed.

(** The same for every game: a second call finds the period again and
    credits its lineup again. *)
Lemma completePeriod_again_credits_again (game : Game.t) (periodId : string)
    (actualDuration : option Qc) (k : nat) (period : Period.t) :
  findPeriod periodId (Game.periods game) = Some (k, period) →
  let duration :=
    durationOrDefault actualDuration
      (GameSettings.periodDuration (Game.settings game)) in
  Game.roster (completePeriod (completePeriod game periodId actualDuration)
                 periodId actualDuration)
  = foldl (creditPlayer duration)
      (foldl (creditPlayer duration) (Game.roster game) (Period.lineup period))
      (Period.lineup period).
Proof.
  intros Hfind duration.
  rewrite (completePeriod_found _ _ _ _ _ Hfind). fold duration.
  pose proof Hfind as (Hk & Hid & Hfirst)%list_find_Some.
  set (period' := Period.mk (Period.id period) (Period.number period)
                    (Period.lineup period) true (Some duration)).
  rewrite (completePeriod_found _ periodId actualDuration k period'); [done|].
  cbn [Game.periods]. apply list_find_Some. split_and!.
  - apply list_lookup_insert_eq. by eapply lookup_lt_Some.
  - done.
  - intros j q Hj Hlt. rewrite list_lookup_insert_ne in Hj by lia.
    by eapply Hfirst.
Qed.

End CompletePeriod.

(** ** The playing-time invariant *)

Section AccountsInvariant.

Import GameManager.

Lemma playedMinutes_app (periods periods' : list Period.t) (id : string) :
  playedMinutes (periods ++ periods') id
  = playedMinutes periods id + playedMinutes periods' id.
Proof.
  unfold playedMinutes. induction periods as [|p periods IH]; simpl.
  - ring.
  - rewrite IH. ring.
Qed.

Lemma playedMinutes_insert (periods : list Period.t) (k : nat)
    (period period' : Period.t) (id : string) :
  periods !! k = Some period →
  playedMinutes (<[k := period']> periods) id
  = playedMinutes periods id - contribution id period + contribution id period'.
Proof.
  unfold playedMinutes. revert k.
  induction periods as [|p periods IH]; intros [|k] Hk; simpl in *; try done.
  - injection Hk as ->. ring.
  - rewrite (IH _ Hk). ring.
Qed.

Lemma contribution_incomplete (id : string) (period : Period.t) :
  Period.isCompleted period = false → contribution id period = 0.
Proof.
  intros Hopen. unfold contribution. rewrite decide_False; [done|].
  rewrite Hopen. by intros [? _].
Qed.

Lemma NoDup_insert_fresh (l : list string) (i : nat) (x : string) :
  NoDup l → x ∉ l → NoDup (<[i := x]> l).
Proof.
  intros Hnd. revert i. induction Hnd as [|y l Hy Hnd IH]; intros i Hx.
  { destruct i; constructor. }
  apply not_elem_of_cons in Hx as [Hxy Hx]. destruct i as [|i]; simpl.
  - by constructor.
  - constructor; [|by apply IH].
    intros (j & Hj)%list_elem_of_lookup.
    apply list_lookup_insert_Some in Hj as [(_ & -> & _)|[_ Hj]]; [done|].
    by apply Hy, (list_elem_of_lookup_2 _ j).
Qed.

(** What a swap does when it does anything. *)
Lemma swapPlayers_cases (game : Game.t) (periodId playerOutId playerInId : string) :
  fst (swapPlayers game periodId playerOutId playerInId) = game
  ∨ (∃ k period i playerIn,
        Game.periods game !! k = Some period
        ∧ Period.isCompleted period = false
        ∧ (Player.id playerIn ∉ map Player.id (Period.lineup period))
        ∧ fst (swapPlayers game periodId playerOutId playerInId)
          = Game.mk (Game.settings game) (Game.roster game)
              (<[k := Period.set_lineup
                        (<[i := playerIn]> (Period.lineup period)) period]>
                 (Game.periods game))).
Proof.
  unfold swapPlayers.
  destruct (findPeriod _ _) as [[k period]|] eqn:Hperiod; [|by left].
  destruct (Period.isCompleted period) eqn:Hopen; [by left|].
  destruct (list_find _ (Period.lineup period)) as [[i playerOut]|];
    [|by left].
  destruct (list_find _ (Game.roster game)) as [[j playerIn]|] eqn:Hin;
    [|by left].
  case_decide as Halready; [by left|]. right.
  apply list_find_Some in Hperiod as (Hk & _ & _).
  apply list_find_Some in Hin as (_ & [Hid _] & _).
  exists k, period, i, playerIn. split_and!; [done..| |done].
  intros (p & Hp & Hmem)%list_elem_of_fmap. apply Halready.
  apply Exists_exists. exists p. split; [done|congruence].
Qed.

(** Rewriting one roster entry, keeping its id, and either its playing time
    or putting it in [late]. *)
Lemma invariant_insert (late late' : gset string) (settings settings' : GameSettings.t)
    (roster : list Player.t) (periods : list Period.t) (j : nat)
    (player player' : Player.t) :
  roster !! j = Some player →
  Player.id player' = Player.id player →
  Player.totalPlayingTime player' = Player.totalPlayingTime player
  ∨ Player.id player ∈ late' →
  late ⊆ late' →
  accountsInvariant late (Game.mk settings roster periods) →
  accountsInvariant late' (Game.mk settings' (<[j := player']> roster) periods).
Proof.
  intros Hj Hid Htime Hlate (Hnd & Hlineups & Hbalanced). simpl in *.
  split_and!; simpl; [|done|].
  - change (map Player.id ?l) with (Player.id <$> l) in *.
    rewrite list_fmap_insert, list_insert_id; [done|].
    by rewrite list_lookup_fmap, Hj, Hid.
  - intros i r [(-> & -> & _)|[Hne Hi]]%list_lookup_insert_Some Hout.
    + rewrite Hid in *. destruct Htime as [->|Hin]; [|done].
      apply (Hbalanced _ _ Hj). set_solver.
    + apply (Hbalanced _ _ Hi). set_solver.
Qed.

Lemma invariant_step (late : gset string) (game game' : Game.t) (op : operation) :
  admissible game op → performs game op game' →
  accountsInvariant late game →
  accountsInvariant (caughtUp game op ∪ late) game'.
Proof.
  intros Hadm Hperf Hinv.
  destruct Hperf as [game playerId isPresent|game playerId game' Hlate
                    |game suggestion|game periodId actualDuration
                    |game periodId playerOutId playerInId|game newSettings];
    simpl in Hadm |- *; rewrite ?(left_id_L ∅ (∪)).
  - (* markPlayerPresent *)
    unfold markPlayerPresent.
    destruct (findPlayer _ _) as [[j player]|] eqn:Hfind; [|done].
    apply list_find_Some in Hfind as (Hj & _ & _). destruct game.
    by eapply (invariant_insert late late); [exact Hj| |left| |].
  - (* addLatePlayer *)
    destruct (findPlayer playerId (Game.roster game)) as [[j player]|] eqn:Hfind.
    + rewrite (addLatePlayer_computes _ _ _ _ Hfind) in Hlate.
      apply list_find_Some in Hfind as (Hj & Hid & _).
      unfold completedHistory in *. destruct game as [settings roster periods].
      simpl in *. case_decide as Hnone.
      * injection Hlate as <-.
        rewrite decide_True by (by destruct (filter _ periods)).
        rewrite (left_id_L ∅ (∪)).
        by eapply (invariant_insert late late); [exact Hj| |left| |].
      * destruct (lateCredit _ _ _) as [credit| | |]; [|done..].
        injection Hlate as <-.
        rewrite decide_False by (by destruct (filter _ periods)).
        eapply (invariant_insert late); [exact Hj|done| | |exact Hinv].
        -- right. set_solver.
        -- set_solver.
    + unfold addLatePlayer in Hlate. rewrite Hfind in Hlate.
      injection Hlate as <-. destruct Hinv as (? & ? & Hbalanced).
      split_and!; [done..|]. intros i r Hi Hout. apply (Hbalanced _ _ Hi).
      set_solver.
  - (* createPeriodFromSuggestion, then handleStartPeriod *)
    destruct Hinv as (Hnd & Hlineups & Hbalanced).
    split_and!; simpl; [done| |].
    + apply Forall_app. split; [done|]. by repeat constructor.
    + intros i r Hi Hout. rewrite playedMinutes_app, (Hbalanced _ _ Hi Hout).
      unfold playedMinutes. simpl.
      rewrite contribution_incomplete by done. ring.
  - (* completePeriod *)
    destruct (findPeriod periodId (Game.periods game)) as [[k period]|] eqn:Hfind;
      [|unfold completePeriod; by rewrite Hfind].
    rewrite (completePeriod_found _ _ _ _ _ Hfind).
    set (duration := durationOrDefault _ _).
    pose proof (Hadm k period eq_refl) as Hopen.
    pose proof Hfind as (Hk & _ & _)%list_find_Some.
    destruct Hinv as (Hnd & Hlineups & Hbalanced).
    assert (Hlineup : NoDup (map Player.id (Period.lineup period))).
    { unfold lineupsDistinct in Hlineups. rewrite Forall_forall in Hlineups.
      eapply Hlineups, list_elem_of_lookup_2, Hk. }
    split_and!; simpl.
    + by rewrite credited_ids.
    + by apply Forall_insert.
    + intros i r' Hi' Hout.
      assert (is_Some (Game.roster game !! i)) as [r Hi].
      { apply lookup_lt_is_Some. apply lookup_lt_Some in Hi'.
        rewrite <- (length_map Player.id), credited_ids, length_map in Hi'.
        done. }
      rewrite (credited_lookup duration _ _ _ _ Hi) in Hi'.
      injection Hi' as <-. simpl in *.
      rewrite (hits_first _ _ _ _ (first_of_distinct_ids _ _ _ Hnd Hi)).
      unfold occurrences. rewrite (occurrences_distinct _ _ Hlineup).
      rewrite (playedMinutes_insert _ _ _ _ _ Hk).
      rewrite (contribution_incomplete _ _ Hopen), (Hbalanced _ _ Hi Hout).
      unfold contribution. simpl.
      destruct (decide (Player.id r ∈ map Player.id (Period.lineup period))).
      * rewrite decide_True by done. simpl. rewrite of_nat_S, of_nat_0. ring.
      * rewrite decide_False by tauto. rewrite of_nat_0. ring.
  - (* swapPlayers *)
    destruct (swapPlayers_cases game periodId playerOutId playerInId)
      as [->|(k & period & i & playerIn & Hk & Hopen & Hfresh & ->)]; [done|].
    destruct Hinv as (Hnd & Hlineups & Hbalanced).
    assert (Hlineup : NoDup (map Player.id (Period.lineup period))).
    { unfold lineupsDistinct in Hlineups. rewrite Forall_forall in Hlineups.
      eapply Hlineups, list_elem_of_lookup_2, Hk. }
    split_and!; simpl; [done| |].
    + apply Forall_insert; [done|]. simpl.
      change (map Player.id ?l) with (Player.id <$> l) in *.
      rewrite list_fmap_insert. by apply NoDup_insert_fresh.
    + intros j r Hj Hout. rewrite (playedMinutes_insert _ _ _ _ _ Hk).
      rewrite !contribution_incomplete by done.
      rewrite (Hbalanced _ _ Hj Hout). ring.
  - (* updateGameSettings *)
    done.
Qed.

End AccountsInvariant.

Section AccountsTheorem.

Import GameManager.

Lemma kickoffGame_initial : initialGame kickoffGame.
Proof. split; [done|]. by repeat constructor. Qed.

Lemma afterFirstPeriod_reachable : reachable kickoffGame afterFirstPeriod.
Proof.
  eapply reachable_step; [|apply performs_completePeriod].
  eapply reachable_step; [|apply performs_createPeriodFromSuggestion].
  apply reachable_start.
Qed.

Lemma imap_unchanged {A} (f : nat → A → A) (l : list A) :
  (∀ j x, l !! j = Some x → f j x = x) → imap f l = l.
Proof.
  intros Hf. apply list_eq. intros j. rewrite list_lookup_imap.
  destruct (l !! j) as [x|] eqn:Hj; simpl; [|done]. f_equal. by apply Hf.
Qed.

Lemma swapPlayers_refused (game : Game.t)
    (periodId playerOutId playerInId : string) :
  findPeriod periodId
    (Game.periods (fst (swapPlayers game periodId playerOutId playerInId)))
  = None →
  swapPlayers game periodId playerOutId playerInId = (game, false).
Proof.
  unfold swapPlayers.
  destruct (findPeriod periodId (Game.periods game)) as [[k period]|] eqn:Hfind;
    [|done].
  destruct (Period.isCompleted period); [done|].
  destruct (list_find _ (Period.lineup period)) as [[i playerOut]|]; [|done].
  destruct (list_find _ (Game.roster game)) as [[j playerIn]|]; [|done].
  case_decide; [done|]. simpl.
  by rewrite (findPeriod_insert _ _ _ _
                (Period.set_lineup (<[i := playerIn]> (Period.lineup period))
                   period) Hfind).
Qed.

(** On a game whose periods hold arrays of their own, the swap is the swap
    of [GameManager]. *)
Lemma swapPlayers_unshared (this : Shared.t)
    (periodId playerOutId playerInId : string) :
  unshared this →
  Shared.swapPlayers this periodId playerOutId playerInId
  = (Shared.mk
       (fst (swapPlayers (Shared.game this) periodId playerOutId playerInId))
       (Shared.arrays this),
     snd (swapPlayers (Shared.game this) periodId playerOutId playerInId)).
Proof.
  intros [Hnd Hlen]. unfold Shared.swapPlayers.
  destruct (snd (swapPlayers _ _ _ _)) eqn:Hok; last first.
  { rewrite (swapPlayers_refused_keeps _ _ _ _ Hok). by destruct this. }
  destruct (findPeriod periodId _) as [[k period]|] eqn:Hfind.
  - f_equal. f_equal. rewrite imap_unchanged.
    { by destruct (fst (swapPlayers _ _ _ _)). }
    intros j other Hj. case_decide as Hsame; [|done].
    apply list_find_Some in Hfind as (Hk & _ & _).
    assert (j = k) as ->.
    { destruct Hsame as [->|[[array Hk'] Hj']]; [done|].
      rewrite Hk' in Hj'. by eapply NoDup_lookup. }
    assert (other = period) as -> by congruence.
    by destruct period.
  - rewrite (swapPlayers_refused _ _ _ _ Hfind) in Hok. done.
Qed.

(** On such a game an operation that brings an array of its own is an
    operation of the coordinator, and leaves such a game. *)
Lemma acts_unshared (this this' : Shared.t) (a : action) :
  unshared this → ownArray this a → acts this a this' →
  performs (Shared.game this) (erase a) (Shared.game this')
  ∧ unshared this'.
Proof.
  intros Hun Hown Hacts.
  destruct Hacts as [this suggestion array _
                    |this periodId playerOutId playerInId
                    |this a game' Hplain Hperf].
  - split; [apply performs_createPeriodFromSuggestion|].
    destruct Hun as [Hnd Hlen]. split; simpl.
    + apply NoDup_app. split_and!; [done| |apply NoDup_singleton].
      intros x Hx ->%list_elem_of_singleton. done.
    + rewrite !length_app, Hlen. done.
  - rewrite (swapPlayers_unshared _ _ _ _ Hun). simpl.
    split; [apply performs_swapPlayers|].
    destruct Hun as [Hnd Hlen]. split; [done|]. simpl. rewrite Hlen.
    destruct (swapPlayers_cases (Shared.game this) periodId playerOutId
                playerInId) as [->|(? & ? & ? & ? & _ & _ & _ & ->)]; [done|].
    simpl. by rewrite length_insert.
  - split; [done|]. destruct Hun as [Hnd Hlen]. split; [done|]. simpl.
    rewrite Hlen.
    destruct a as [playerId isPresent|playerId| | periodId actualDuration| |
                   newSettings]; try done; simpl in Hperf; inversion Hperf;
      subst; simpl.
    + unfold markPlayerPresent. by destruct (findPlayer _ _) as [[??]|].
    + match goal with
      | H : addLatePlayer _ _ = Some _ |- _ =>
          rename H into Hlate
      end.
      destruct (findPlayer playerId (Game.roster (Shared.game this)))
        as [[i player]|] eqn:Hfind.
      * rewrite (addLatePlayer_computes _ _ _ _ Hfind) in Hlate.
        case_decide; [by injection Hlate as <-|].
        destruct (lateCredit _ _ _); [|done..]. by injection Hlate as <-.
      * unfold addLatePlayer in Hlate. rewrite Hfind in Hlate.
        by injection Hlate as <-.
    + unfold completePeriod. destruct (findPeriod _ _) as [[??]|]; [|done].
      simpl. by rewrite length_insert.
    + done.
Qed.

(** What the induction on a fair run carries along. *)
Lemma fair_run_invariant (start : Game.t) (late : gset string)
    (this : Shared.t) :
  initialGame start →
  NoDup (map Player.id (Game.roster start)) →
  runs fair (Shared.mk start []) late this →
  accountsInvariant late (Shared.game this) ∧ unshared this.
Proof.
  intros [Hperiods Hzero] Hnd Hrun.
  induction Hrun as [|late this a this' _ [IH Hun] [Hown Hadm] Hacts].
  - split.
    + split_and!; simpl; [done|by rewrite Hperiods; constructor|].
      intros i r Hi _. rewrite Hperiods. rewrite Forall_forall in Hzero.
      eapply Hzero, list_elem_of_lookup_2, Hi.
    + split; simpl; [constructor|by rewrite Hperiods].
  - destruct (acts_unshared _ _ _ Hun Hown Hacts) as [Hperf Hun'].
    split; [|done]. by eapply invariant_step.
Qed.

(** C5, as stated, fails in five ways, all of them runs of the operations
    from an initial game.  A late player is given minutes and has played in
    no period (P7: the credit 4 * 5 / 7 * 1 * 0.7 is 2 in doubles).  A
    period that is completed twice is credited twice (P1: 8 minutes for one
    period of 4).
    A lineup that lists a player twice credits the player twice.  In a
    roster where an id is taken twice the first player with the id gets the
    minutes of both.  And a suggestion that is committed twice puts one
    array into two periods: a swap in the open one rewrites the completed one
    (P1 has played 4 minutes and is in no completed lineup any more). *)
Lemma accounts_are_unbalanced_in_five_ways :
  initialGame kickoffGame
  ∧ initialGame twinGame
  ∧ (∃ late this,
        runs anything (Shared.mk kickoffGame []) late this
        ∧ unbalancedAt (Shared.game this) "P7" (Qc_of_Z 2) 0)
  ∧ (∃ late this,
        runs anything (Shared.mk kickoffGame []) late this
        ∧ unbalancedAt (Shared.game this) "P1" (Qc_of_Z 8) (Qc_of_Z 4))
  ∧ (∃ late this,
        runs anything (Shared.mk kickoffGame []) late this
        ∧ unbalancedAt (Shared.game this) "P1" (Qc_of_Z 8) (Qc_of_Z 4))
  ∧ (∃ late this,
        runs anything (Shared.mk twinGame []) late this
        ∧ (∃ r, r ∈ Game.roster (Shared.game this)
                ∧ Player.id r = "P1"
                ∧ Player.totalPlayingTime r = 0
                ∧ playedMinutes (Game.periods (Shared.game this)) "P1"
                  = Qc_of_Z 4))
  ∧ (∃ late this,
        runs anything (Shared.mk kickoffGame []) late this
        ∧ Shared.arrays this = [0; 0]%nat
        ∧ unbalancedAt (Shared.game this) "P1" (Qc_of_Z 4) 0).
Proof.
  assert (Hstep : ∀ start late this a (this' : Shared.t),
             runs anything start late this → acts this a this' →
             ∃ late', runs anything start late' this').
  { intros start late this a this' Hrun Hacts. eexists.
    by eapply runs_step. }
  assert (Hplain : ∀ start late this a game',
             runs anything start late this → plain a →
             performs (Shared.game this) (erase a) game' →
             ∃ late', runs anything start late'
                        (Shared.mk game' (Shared.arrays this))).
  { intros start late this a game' Hrun Hp Hperf.
    eapply Hstep; [exact Hrun|]. by apply acts_plain. }
  assert (Hcommit : ∀ start late this suggestion array,
             runs anything start late this →
             array ∉ Shared.arrays this →
             ∃ late', runs anything start late'
                        (Shared.createPeriodFromSuggestion this suggestion
                           array)).
  { intros start late this suggestion array Hrun Hfresh.
    eapply Hstep; [exact Hrun|]. apply acts_commit.
    intros j Hj. destruct Hfresh. by eapply list_elem_of_lookup_2. }
  assert (Hfirst : ∃ late,
             runs anything (Shared.mk kickoffGame []) late
               (Shared.mk afterFirstPeriod [0%nat])).
  { destruct (Hcommit _ _ _ firstSuggestion 0%nat
                (runs_start anything (Shared.mk kickoffGame [])))
      as [late1 Hrun1]; [apply not_elem_of_nil|].
    apply (Hplain _ _ _ (Complete "period-1" None) _ Hrun1 I).
    apply performs_completePeriod. }
  split; [apply kickoffGame_initial|].
  split; [split; [done|by repeat constructor]|].
  split_and!.
  - (* a late credit *)
    destruct Hfirst as [late Hrun].
    destruct (Hplain _ _ _ (AddLate "P7")
                (default kickoffGame (addLatePlayer afterFirstPeriod "P7"))
                Hrun I) as [late' Hrun'].
    { apply performs_addLatePlayer. vm_compute. reflexivity. }
    exists late'. eexists. split; [exact Hrun'|].
    exists (Player.mk "P7" "P7" (Qc_of_Z 1) (Qc_of_Z 3) Any true (Qc_of_Z 2)).
    split_and!; compute_done.
  - (* one period completed twice *)
    destruct Hfirst as [late Hrun].
    destruct (Hplain _ _ _ (Complete "period-1" None) _ Hrun I
                (performs_completePeriod _ _ _)) as [late' Hrun'].
    exists late'. eexists. split; [exact Hrun'|].
    exists (Player.set_totalPlayingTime (Qc_of_Z 8) P1).
    split_and!; compute_done.
  - (* a lineup that lists a player twice *)
    destruct (Hcommit _ _ _ doubledSuggestion 0%nat
                (runs_start anything (Shared.mk kickoffGame [])))
      as [late1 Hrun1]; [apply not_elem_of_nil|].
    destruct (Hplain _ _ _ (Complete "period-1" None) _ Hrun1 I
                (performs_completePeriod _ _ _)) as [late' Hrun'].
    exists late'. eexists. split; [exact Hrun'|].
    exists (Player.set_totalPlayingTime (Qc_of_Z 8) P1).
    split_and!; compute_done.
  - (* an id that is taken twice *)
    destruct (Hcommit _ _ _ soloSuggestion 0%nat
                (runs_start anything (Shared.mk twinGame [])))
      as [late1 Hrun1]; [apply not_elem_of_nil|].
    destruct (Hplain _ _ _ (Complete "period-1" None) _ Hrun1 I
                (performs_completePeriod _ _ _)) as [late' Hrun'].
    exists late'. eexists. split; [exact Hrun'|].
    exists (scenarioPlayer "P1" 3 Center).
    split_and!; compute_done.
  - (* one array in two periods *)
    destruct (Hcommit _ _ _ firstSuggestion 0%nat
                (runs_start anything (Shared.mk kickoffGame [])))
      as [late1 Hrun1]; [apply not_elem_of_nil|].
    eapply Hstep in Hrun1 as [late2 Hrun2]; last first.
    { apply (acts_commit _ firstSuggestion 0%nat). intros [|j] Hj; [|done].
      eexists. split; reflexivity. }
    destruct (Hplain _ _ _ (Complete "period-1" None) _ Hrun2 I
                (performs_completePeriod _ _ _)) as [late3 Hrun3].
    destruct (Hstep _ _ _ (Swap "period-2" "P1" "P5") _ Hrun3
                (acts_swap _ _ _ _)) as [late4 Hrun4].
    exists late4. eexists. split; [exact Hrun4|]. split; [reflexivity|].
    exists (Player.set_totalPlayingTime (Qc_of_Z 4) P1).
    split_and!; compute_done.
Qed.

(** C5, amended.  Start from an initial game whose roster has distinct ids;
    commit suggestions that bring an array of their own and list nobody
    twice; call [completePeriod] on periods that are not completed yet.
    Then every roster player who was not given a catch-up credit by
    [addLatePlayer] after a completed period has a [totalPlayingTime] equal
    to the sum of [actualDuration] over the completed periods whose lineup
    contains the player. *)
Theorem playing_time_is_the_sum_of_completed_periods
    (start : Game.t) (late : gset string) (this : Shared.t) :
  initialGame start →
  NoDup (map Player.id (Game.roster start)) →
  runs fair (Shared.mk start []) late this →
  ∀ r, r ∈ Game.roster (Shared.game this) → Player.id r ∉ late →
       Player.totalPlayingTime r
       = playedMinutes (Game.periods (Shared.game this)) (Player.id r).
Proof.
  intros Hinitial Hnd Hrun.
  destruct (fair_run_invariant _ _ _ Hinitial Hnd Hrun)
    as [(_ & _ & Hbalanced) _].
  intros r (i & Hi)%list_elem_of_lookup. by eapply Hbalanced.
Qed.

Lemma afterFirstPeriod_fair_run :
  runs fair (Shared.mk kickoffGame []) ∅ (Shared.mk afterFirstPeriod [0%nat]).
Proof.
  assert (Hcommit :
            runs fair (Shared.mk kickoffGame []) (∅ ∪ ∅)
              (Shared.createPeriodFromSuggestion (Shared.mk kickoffGame [])
                 firstSuggestion 0)).
  { apply (runs_step fair _ ∅ (Shared.mk kickoffGame [])
             (Commit firstSuggestion 0%nat)).
    - apply runs_start.
    - split; [apply not_elem_of_nil|]. simpl. compute_done.
    - apply acts_commit. intros j Hj. done. }
  assert (Hcomplete :
            runs fair (Shared.mk kickoffGame []) (∅ ∪ (∅ ∪ ∅))
              (Shared.mk afterFirstPeriod [0%nat])).
  { eapply (runs_step fair _ (∅ ∪ ∅) _ (Complete "period-1" None)).
    - exact Hcommit.
    - split; [done|]. simpl. intros k period Hfind.
      injection Hfind as <- <-. reflexivity.
    - change (Shared.mk afterFirstPeriod [0%nat])
        with (Shared.mk afterFirstPeriod
                (Shared.arrays
                   (Shared.createPeriodFromSuggestion
                      (Shared.mk kickoffGame []) firstSuggestion 0))).
      apply (acts_plain _ (Complete "period-1" None)); [done|].
      apply performs_completePeriod. }
  by rewrite !(left_id_L ∅ (∪)) in Hcomplete.
Qed.

Lemma playing_time_after_first_period :
  initialGame kickoffGame
  ∧ NoDup (map Player.id (Game.roster kickoffGame))
  ∧ runs fair (Shared.mk kickoffGame []) ∅ (Shared.mk afterFirstPeriod [0%nat])
  ∧ Player.set_totalPlayingTime (Qc_of_Z 4) P1 ∈ Game.roster afterFirstPeriod
  ∧ (Player.id (Player.set_totalPlayingTime (Qc_of_Z 4) P1) ∉ (∅ : gset string))
  ∧ Player.totalPlayingTime (Player.set_totalPlayingTime (Qc_of_Z 4) P1)
    = playedMinutes (Game.periods afterFirstPeriod)
        (Player.id (Player.set_totalPlayingTime (Qc_of_Z 4) P1)).
Proof.
  assert (Hnd : NoDup (map Player.id (Game.roster kickoffGame)))
    by compute_done.
  assert (Hin : Player.set_totalPlayingTime (Qc_of_Z 4) P1
                ∈ Game.roster afterFirstPeriod) by compute_done.
  assert (Hout : Player.id (Player.set_totalPlayingTime (Qc_of_Z 4) P1)
                 ∉ (∅ : gset string)) by apply not_elem_of_empty.
  split; [apply kickoffGame_initial|]. split; [exact Hnd|].
  split; [apply afterFirstPeriod_fair_run|].
  split; [exact Hin|]. split; [exact Hout|].
  exact (playing_time_is_the_sum_of_completed_periods kickoffGame ∅
           (Shared.mk afterFirstPeriod [0%nat]) kickoffGame_initial Hnd
           afterFirstPeriod_fair_run _ Hin Hout).
Defined.

End AccountsTheorem.

(** * Further properties of the code *)

(** ** The selector's lineup *)

Section SelectorLineup.

Import StrictLineupGenerator.

(** The loop adds a player only while the lineup is short of
    [playersOnCourt]. *)
Lemma fillLineup_bound (playersOnCourt : Qc) (periodCounts : gmap string nat)
    (fuel : nat) (lineup available result : list Player.t) :
  fillLineup fuel playersOnCourt periodCounts lineup available
  = JS.Returned result →
  result = lineup ∨ JS.of_nat (pred (length result)) < playersOnCourt.
Proof.
  revert lineup available.
  induction fuel as [|fuel IH]; intros lineup available Hrun.
  { left. by injection Hrun. }
  destruct available as [|first others]; [left; by injection Hrun|].
  cbn [fillLineup] in Hrun. case_decide as Hroom;
    [|left; by injection Hrun].
  destruct (match filter _ (first :: others) with
            | [only] => JS.Returned only
            | _ => selectBestFromTied _ lineup
            end) as [selected|] eqn:Hsel; [|done].
  apply IH in Hrun as [->|Hbound]; [|by right].
  right. by rewrite length_app, Nat.add_comm.
Qed.

Lemma submseteq_NoDup {A} (l k : list A) : l ⊆+ k → NoDup k → NoDup l.
Proof.
  intros (rest & Hperm)%submseteq_Permutation Hnd. rewrite Hperm in Hnd.
  by apply NoDup_app in Hnd as (? & _).
Qed.

(** What the selector returns, in terms of the loop. *)
Lemma generateOptimalLineup_players (this : t) :
  ∃ suggestion rest,
    generateOptimalLineup this = JS.Returned suggestion
    ∧ LineupSuggestion.players suggestion ++ rest ≡ₚ players this
    ∧ (∀ a b, a ∈ rest → b ∈ LineupSuggestion.players suggestion →
              (played (calculatePeriodCounts this) b
               ≤ played (calculatePeriodCounts this) a)%nat)
    ∧ (rest = []
       ∨ ¬ JS.of_nat (length (LineupSuggestion.players suggestion))
           < GameSettings.playersOnCourt (settings this))
    ∧ (LineupSuggestion.players suggestion = []
       ∨ JS.of_nat (pred (length (LineupSuggestion.players suggestion)))
         < GameSettings.playersOnCourt (settings this))
    ∧ LineupSuggestion.playingTimeBalance suggestion
      = calculateRotationBalance (calculatePeriodCounts this)
          (LineupSuggestion.players suggestion).
Proof.
  unfold generateOptimalLineup, generateStrictRotationLineup.
  set (counts := calculatePeriodCounts this).
  set (sorted := JS.sort (rotationOrder counts) (players this)).
  destruct (fillLineup_spec (GameSettings.playersOnCourt (settings this))
              counts (length sorted) [] sorted)
    as (chosen & rest & Hrun & Hsplit & Horder & Hstop).
  pose proof (fillLineup_bound _ _ _ _ _ _ Hrun) as Hbound.
  rewrite Hrun. simpl in *. eexists _, rest. split; [reflexivity|]. simpl.
  split_and!; [|done|by apply Hstop|done|done].
  rewrite Hsplit. apply sort_perm.
Qed.

(** X1.  The selector returns, without throwing, a lineup made of distinct
    entries of the roster, all of them present; on a roster with distinct ids
    no id is twice in the lineup. *)
Theorem selector_lineup_is_made_of_present_players
    (roster : list Player.t) (settings : GameSettings.t)
    (periods : list Period.t) :
  ∃ suggestion,
    generateOptimalLineup (new roster settings periods) = JS.Returned suggestion
    ∧ LineupSuggestion.players suggestion
      ⊆+ filter (λ p, Player.isPresent p = true) roster
    ∧ Forall (λ p, p ∈ roster ∧ Player.isPresent p = true)
             (LineupSuggestion.players suggestion)
    ∧ (NoDup (map Player.id roster) →
       NoDup (map Player.id (LineupSuggestion.players suggestion))).
Proof.
  destruct (generateOptimalLineup_players (new roster settings periods))
    as (suggestion & rest & Hrun & Hsplit & _).
  exists suggestion. split; [done|]. simpl in Hsplit.
  assert (Hsub : LineupSuggestion.players suggestion
                 ⊆+ filter (λ p, Player.isPresent p = true) roster).
  { rewrite <- Hsplit. apply submseteq_inserts_r. done. }
  split; [done|]. split.
  - apply Forall_forall. intros p Hp.
    eapply elem_of_submseteq in Hp; [|exact Hsub].
    apply list_elem_of_filter in Hp. tauto.
  - intros Hnd. eapply submseteq_NoDup; [|exact Hnd].
    change (map Player.id ?l) with (Player.id <$> l).
    apply fmap_submseteq. etrans; [exact Hsub|].
    apply sublist_submseteq, sublist_filter.
Qed.

Lemma full_lineup
    (roster : list Player.t) (settings : GameSettings.t)
    (periods : list Period.t) (k : nat) :
  GameSettings.playersOnCourt settings = JS.of_nat k →
  (k ≤ presentCount roster)%nat →
  ∃ suggestion,
    generateOptimalLineup (new roster settings periods) = JS.Returned suggestion
    ∧ length (LineupSuggestion.players suggestion) = k.
Proof.
  intros Hk Henough.
  destruct (generateOptimalLineup_players (new roster settings periods))
    as (suggestion & rest & Hrun & Hsplit & _ & Hstop & Hbound & _).
  exists suggestion. split; [done|]. simpl in *. rewrite Hk in *.
  set (lineup := LineupSuggestion.players suggestion) in *.
  assert (Hle : (length lineup ≤ k)%nat).
  { destruct Hbound as [->|Hlt]; [simpl; lia|].
    destruct (decide (pred (length lineup) < k)%nat) as [|Hge]; [lia|].
    apply Nat.nlt_ge, of_nat_le in Hge.
    by destruct (Qclt_not_le _ _ Hlt). }
  assert (Hge : (k ≤ length lineup)%nat).
  { destruct Hstop as [->|Hfull].
    - rewrite app_nil_r in Hsplit. apply Permutation_length in Hsplit.
      unfold presentCount in Henough. lia.
    - destruct (decide (k ≤ length lineup)%nat) as [|Hlt]; [done|].
      destruct Hfull. apply of_nat_lt. lia. }
  lia.
Qed.

(** X2.  When [playersOnCourt] is a whole number [k] and at least [k]
    players are present, the lineup has exactly [k] players. *)
Theorem selector_fills_the_lineup
    (roster : list Player.t) (settings : GameSettings.t)
    (periods : list Period.t) (k : nat) :
  GameSettings.playersOnCourt settings = JS.of_nat k →
  (k ≤ presentCount roster)%nat →
  ∃ suggestion,
    generateOptimalLineup (new roster settings periods) = JS.Returned suggestion
    ∧ length (LineupSuggestion.players suggestion) = k.
Proof. apply full_lineup. Qed.

Lemma selector_fills_the_lineup_scenario :
  GameSettings.playersOnCourt scenarioSettings = JS.of_nat 5
  ∧ (5 ≤ presentCount scenarioRoster)%nat
  ∧ ∃ suggestion,
      generateOptimalLineup (new scenarioRoster scenarioSettings scenarioHistory)
      = JS.Returned suggestion
      ∧ length (LineupSuggestion.players suggestion) = 5%nat.
Proof.
  assert (Hk : GameSettings.playersOnCourt scenarioSettings = JS.of_nat 5)
    by (by apply Qc_is_canon).
  assert (Hn : (5 ≤ presentCount scenarioRoster)%nat) by (vm_compute; lia).
  split; [exact Hk|]. split; [exact Hn|].
  exact (selector_fills_the_lineup scenarioRoster scenarioSettings
           scenarioHistory 5 Hk Hn).
Defined.

End SelectorLineup.

(** ** The spread of the period counts *)

Section RotationSpread.

Import StrictLineupGenerator.

Lemma played_bump_all (counts : gmap string nat) (lineup : list Player.t)
    (p : Player.t) :
  NoDup (map Player.id lineup) →
  played (foldl bump counts lineup) p
  = (played counts p
     + if decide (Player.id p ∈ map Player.id lineup) then 1 else 0)%nat.
Proof.
  intros Hnd. unfold played.
  by rewrite get_bump_all, occurrences_distinct.
Qed.

Lemma projected_spread
    (roster : list Player.t) (settings : GameSettings.t)
    (periods : list Period.t) :
  NoDup (map Player.id roster) →
  withinOnePeriod (calculatePeriodCounts (new roster settings periods))
    (players (new roster settings periods)) →
  ∃ suggestion,
    generateOptimalLineup (new roster settings periods) = JS.Returned suggestion
    ∧ withinOnePeriod
        (foldl bump (calculatePeriodCounts (new roster settings periods))
               (LineupSuggestion.players suggestion))
        (players (new roster settings periods)).
Proof.
  intros Hnd Hspread. set (this := new roster settings periods) in *.
  destruct (generateOptimalLineup_players this)
    as (suggestion & rest & Hrun & Hsplit & Horder & _).
  exists suggestion. split; [done|].
  set (lineup := LineupSuggestion.players suggestion) in *.
  assert (Hlineup : NoDup (map Player.id lineup)).
  { eapply submseteq_NoDup; [|exact Hnd].
    change (map Player.id ?l) with (Player.id <$> l).
    apply fmap_submseteq. trans (players this).
    - rewrite <- Hsplit. by apply submseteq_inserts_r.
    - apply sublist_submseteq, sublist_filter. }
  intros a b Ha Hb. rewrite !played_bump_all by done.
  pose proof (Hspread a b Ha Hb) as Hab.
  destruct (decide (Player.id a ∈ map Player.id lineup)) as [Hina|Hina];
    destruct (decide (Player.id b ∈ map Player.id lineup)) as [Hinb|Hinb];
    [lia| |lia..].
  apply list_elem_of_fmap in Hina as (a' & Hid & Ha').
  assert (Hrest : b ∈ rest).
  { rewrite <- Hsplit in Hb. apply elem_of_app in Hb as [Hb|Hb]; [|done].
    destruct Hinb. by apply list_elem_of_fmap_2. }
  pose proof (Horder b a' Hrest Ha') as Hle.
  unfold played in *. rewrite Hid. lia.
Qed.

(** X3.  On a roster with distinct ids: if no two present players are more
    than one period apart, they are still no more than one period apart
    once the suggested lineup has played (the projected counts of
    [calculateRotationBalance]). *)
Theorem rotation_spread_stays_within_one
    (roster : list Player.t) (settings : GameSettings.t)
    (periods : list Period.t) :
  NoDup (map Player.id roster) →
  withinOnePeriod (calculatePeriodCounts (new roster settings periods))
    (players (new roster settings periods)) →
  ∃ suggestion,
    generateOptimalLineup (new roster settings periods) = JS.Returned suggestion
    ∧ withinOnePeriod
        (foldl bump (calculatePeriodCounts (new roster settings periods))
               (LineupSuggestion.players suggestion))
        (players (new roster settings periods)).
Proof. apply projected_spread. Qed.

Lemma earlyHistory_within_one :
  withinOnePeriod
    (calculatePeriodCounts (new scenarioRoster scenarioSettings earlyHistory))
    (players (new scenarioRoster scenarioSettings earlyHistory)).
Proof.
  intros a b Ha Hb.
  change (players (new scenarioRoster scenarioSettings earlyHistory))
    with scenarioRoster in Ha, Hb.
  unfold scenarioRoster in Ha, Hb.
  repeat (apply elem_of_cons in Ha as [->|Ha]);
    try (by apply not_elem_of_nil in Ha);
    repeat (apply elem_of_cons in Hb as [->|Hb]);
    try (by apply not_elem_of_nil in Hb);
    vm_compute; lia.
Qed.

Lemma rotation_spread_after_first_period :
  NoDup (map Player.id scenarioRoster)
  ∧ withinOnePeriod
      (calculatePeriodCounts (new scenarioRoster scenarioSettings earlyHistory))
      (players (new scenarioRoster scenarioSettings earlyHistory))
  ∧ ∃ suggestion,
      generateOptimalLineup (new scenarioRoster scenarioSettings earlyHistory)
      = JS.Returned suggestion
      ∧ withinOnePeriod
          (foldl bump
             (calculatePeriodCounts
                (new scenarioRoster scenarioSettings earlyHistory))
             (LineupSuggestion.players suggestion))
          (players (new scenarioRoster scenarioSettings earlyHistory)).
Proof.
  assert (Hnd : NoDup (map Player.id scenarioRoster)) by compute_done.
  split; [exact Hnd|]. split; [exact earlyHistory_within_one|].
  exact (rotation_spread_stays_within_one scenarioRoster scenarioSettings
           earlyHistory Hnd earlyHistory_within_one).
Defined.

End RotationSpread.

(** ** The rotation balance of a suggestion *)

Section RotationBalance.

Import StrictLineupGenerator.

Lemma max_is_upper_bound (x : nat) (xs : list nat) :
  Forall (λ y, (y ≤ foldr Nat.max x xs)%nat) (x :: xs).
Proof.
  induction xs as [|y xs IH]; simpl.
  { by repeat constructor. }
  apply Forall_cons in IH as [Hx Hxs].
  repeat constructor; [lia..|].
  eapply Forall_impl; [exact Hxs|]. simpl. lia.
Qed.

Lemma max_is_attained (x : nat) (xs : list nat) : foldr Nat.max x xs ∈ x :: xs.
Proof.
  induction xs as [|y xs IH]; simpl; [by left|].
  destruct (Nat.max_spec y (foldr Nat.max x xs)) as [[_ ->]|[_ ->]].
  - apply elem_of_cons in IH as [->|IH]; [by left|]. by do 2 right.
  - right. by left.
Qed.

(** The balance over a map that is not empty: one minus 0.33 for each
    period between the least and the most played, and not below zero. *)
Lemma rotationBalance_of_counts (counts : gmap string nat)
    (lineup : list Player.t) :
  foldl bump counts lineup ≠ ∅ →
  ∃ least most : nat,
    (∃ k, foldl bump counts lineup !! k = Some least)
    ∧ (∃ k, foldl bump counts lineup !! k = Some most)
    ∧ (least ≤ most)%nat
    ∧ calculateRotationBalance counts lineup
      = JS.max (JS.Fin 0)
          (JS.fsub (JS.Fin 1)
             (JS.fmul (JS.Fin (JS.of_nat most - JS.of_nat least))
                (JS.literal (33 # 100)))).
Proof.
  intros Hne. unfold calculateRotationBalance.
  set (projected := foldl bump counts lineup) in *.
  assert (Hvalues : ∀ v, v ∈ (map_to_list projected).*2 →
                         ∃ k, projected !! k = Some v).
  { intros v ((k & v') & -> & Hin)%list_elem_of_fmap.
    exists k. by apply elem_of_map_to_list. }
  destruct ((map_to_list projected).*2) as [|x xs] eqn:Hlist.
  { apply fmap_nil_inv, map_to_list_empty_iff in Hlist. done. }
  exists (foldr Nat.min x xs), (foldr Nat.max x xs). split_and!.
  - apply Hvalues, min_is_attained.
  - apply Hvalues, max_is_attained.
  - pose proof (min_is_lower_bound x xs) as [Hmin _]%Forall_cons.
    pose proof (max_is_upper_bound x xs) as [Hmax _]%Forall_cons. lia.
  - reflexivity.
Qed.

Lemma Qc_max_range (y : Qc) : y ≤ 1 → 0 ≤ JS.Qc_max 0 y ≤ 1.
Proof.
  intros Hy. unfold JS.Qc_max. case_decide; [done|]. split; done.
Qed.

Lemma of_nat_sub (least most : nat) :
  (least ≤ most)%nat →
  JS.of_nat most - JS.of_nat least = JS.of_nat (most - least).
Proof.
  intros Hle.
  assert (Hsum : ∀ d, JS.of_nat (d + least) = JS.of_nat d + JS.of_nat least).
  { induction d as [|d IH]; simpl.
    - rewrite of_nat_0. ring.
    - rewrite !of_nat_S, IH. ring. }
  replace most with ((most - least) + least)%nat at 1 by lia.
  rewrite Hsum. ring.
Qed.

(** The value of [Math.max(0, 1 - (difference * 0.33))], both operations
    rounded, for a difference that is not negative. *)
Lemma balance_range (difference : Qc) :
  0 ≤ difference →
  ∃ balance,
    JS.max (JS.Fin 0)
      (JS.fsub (JS.Fin 1)
         (JS.fmul (JS.Fin difference) (JS.literal (33 # 100))))
    = JS.Fin balance
    ∧ 0 ≤ balance ≤ 1.
Proof.
  intros Hd. rewrite literal_thirty_three_hundredths.
  unfold JS.fmul, JS.fsub, JS.sub. simpl JS.mul. simpl JS.rounded.
  assert (Hproduct : 0 ≤ difference * thirty_three_hundredths)
    by (apply nonneg_product; [done|by apply Qcle_alt]).
  apply double_notNegative in Hproduct.
  destruct (JS.double (difference * thirty_three_hundredths))
    as [product| | |]; simpl in Hproduct; try done.
  - simpl JS.neg. simpl JS.add. simpl JS.rounded.
    assert (Hrest : 1 + - product ≤ 1).
    { apply Qcopp_le_compat in Hproduct.
      replace (- 0) with 0 in Hproduct by (by apply Qc_is_canon).
      trans (1 + 0); [|by rewrite Qcplus_0_r].
      by apply Qcplus_le_mono_l. }
    apply double_atMostOne in Hrest.
    destruct (JS.double (1 + - product)) as [rest| | |];
      simpl in Hrest; try done.
    + exists (JS.Qc_max 0 rest). split; [done|]. by apply Qc_max_range.
    + exists 0. split; [done|]. split; [done|]. by apply Qcle_alt.
  - exists 0. split; [done|]. split; [done|]. by apply Qcle_alt.
Qed.

Lemma bump_keeps_keys (lineup : list Player.t) (counts : gmap string nat)
    (k : string) :
  is_Some (counts !! k) → is_Some (foldl bump counts lineup !! k).
Proof.
  revert counts. induction lineup as [|p lineup IH]; intros counts Hk; [done|].
  simpl. apply IH. unfold bump. rewrite lookup_insert.
  case_decide; [by eexists|done].
Qed.

Lemma bump_keys (lineup : list Player.t) (counts : gmap string nat)
    (k : string) :
  is_Some (foldl bump counts lineup !! k) →
  is_Some (counts !! k) ∨ k ∈ map Player.id lineup.
Proof.
  revert counts. induction lineup as [|p lineup IH]; intros counts Hk;
    [by left|].
  simpl in Hk. apply IH in Hk as [Hk|Hk]; [|right; by right].
  unfold bump in Hk. rewrite lookup_insert in Hk.
  case_decide as Heq; [right; subst k; by left|by left].
Qed.

Lemma initial_keys (players : list Player.t) (k : string) :
  is_Some (foldl (λ counts p, <[Player.id p := 0%nat]> counts)
                 (∅ : gmap string nat) players !! k)
  ↔ k ∈ map Player.id players.
Proof.
  assert (H : ∀ counts : gmap string nat,
             is_Some (foldl (λ counts p, <[Player.id p := 0%nat]> counts)
                            counts players !! k)
             ↔ is_Some (counts !! k) ∨ k ∈ map Player.id players).
  { induction players as [|p players IH]; intros counts; simpl.
    - rewrite elem_of_nil. tauto.
    - rewrite IH, lookup_insert, elem_of_cons. case_decide as Heq.
      + split; [auto|]. intros _. left. by eexists.
      + split; [tauto|]. intros [?|[?|?]]; [tauto|congruence|tauto]. }
  rewrite H, lookup_empty. split; [|tauto].
  intros [[? [=]]|?]. done.
Qed.

Lemma calculatePeriodCounts_keys (this : t) (k : string) :
  is_Some (calculatePeriodCounts this !! k) →
  k ∈ map Player.id (players this)
  ∨ ∃ period p, period ∈ existingPeriods this
                ∧ Period.isCompleted period = true
                ∧ p ∈ Period.lineup period ∧ Player.id p = k.
Proof.
  unfold calculatePeriodCounts. rewrite <- initial_keys.
  generalize (foldl (λ counts p, <[Player.id p := 0%nat]> counts)
                    (∅ : gmap string nat) (players this)).
  induction (existingPeriods this) as [|period periods IH]; intros counts Hk;
    [by left|].
  simpl in Hk. apply IH in Hk as [Hk|(period' & p & ? & ? & ? & ?)].
  - destruct (Period.isCompleted period) eqn:Hdone; [|by left].
    apply bump_keys in Hk as [Hk|Hk]; [by left|].
    apply list_elem_of_fmap in Hk as (p & -> & Hp).
    right. exists period, p. split_and!; [by left|done..].
  - right. exists period', p. split_and!; [by right|done..].
Qed.

Lemma calculatePeriodCounts_has_players (this : t) (p : Player.t) :
  p ∈ players this → is_Some (calculatePeriodCounts this !! Player.id p).
Proof.
  intros Hp. unfold calculatePeriodCounts.
  assert (H0 : is_Some (foldl (λ counts p, <[Player.id p := 0%nat]> counts)
                              (∅ : gmap string nat) (players this)
                        !! Player.id p)).
  { apply initial_keys. by apply list_elem_of_fmap_2. }
  revert H0.
  generalize (foldl (λ counts p, <[Player.id p := 0%nat]> counts)
                    (∅ : gmap string nat) (players this)).
  induction (existingPeriods this) as [|period periods IH]; intros counts Hk;
    [done|].
  simpl. apply IH. destruct (Period.isCompleted period); [|done].
  by apply bump_keeps_keys.
Qed.

(** X4.  With at least one present player the [playingTimeBalance] of the
    suggestion is a number between 0 and 1. *)
Theorem rotation_balance_is_between_0_and_1
    (roster : list Player.t) (settings : GameSettings.t)
    (periods : list Period.t) :
  filter (λ p, Player.isPresent p = true) roster ≠ [] →
  ∃ suggestion balance,
    generateOptimalLineup (new roster settings periods) = JS.Returned suggestion
    ∧ LineupSuggestion.playingTimeBalance suggestion = JS.Fin balance
    ∧ 0 ≤ balance ≤ 1.
Proof.
  intros Hpresent. set (this := new roster settings periods).
  destruct (generateOptimalLineup_players this)
    as (suggestion & rest & Hrun & _ & _ & _ & _ & Hbalance).
  destruct (rotationBalance_of_counts (calculatePeriodCounts this)
              (LineupSuggestion.players suggestion))
    as (least & most & _ & _ & Hle & Hvalue).
  { destruct (players this) as [|p others] eqn:Hplayers; [done|].
    assert (Hp : p ∈ players this) by (rewrite Hplayers; by left).
    apply calculatePeriodCounts_has_players in Hp.
    apply (bump_keeps_keys (LineupSuggestion.players suggestion)) in Hp
      as [v Hv].
    intros Hempty. rewrite Hempty, lookup_empty in Hv. done. }
  destruct (balance_range (JS.of_nat most - JS.of_nat least))
    as (balance & Hmax & Hrange).
  { rewrite of_nat_sub by done. apply of_nat_nonneg. }
  exists suggestion, balance. split; [done|].
  rewrite Hbalance, Hvalue. done.
Qed.

Lemma rotation_balance_scenario :
  filter (λ p, Player.isPresent p = true) scenarioRoster ≠ []
  ∧ ∃ suggestion balance,
      generateOptimalLineup (new scenarioRoster scenarioSettings scenarioHistory)
      = JS.Returned suggestion
      ∧ LineupSuggestion.playingTimeBalance suggestion = JS.Fin balance
      ∧ 0 ≤ balance ≤ 1.
Proof.
  assert (H : filter (λ p, Player.isPresent p = true) scenarioRoster ≠ [])
    by discriminate.
  split; [exact H|].
  exact (rotation_balance_is_between_0_and_1 scenarioRoster scenarioSettings
           scenarioHistory H).
Defined.

(** X5.  On a roster with distinct ids, when the completed lineups are made
    of present players and no two present players are more than one period
    apart, the [playingTimeBalance] of the suggestion is 1 or the double
    [1 - 1 * 0.33], which is 0.6699999999999999: below 0.67 and above two
    thirds. *)
Theorem rotation_balance_is_at_least_two_thirds
    (roster : list Player.t) (settings : GameSettings.t)
    (periods : list Period.t) :
  NoDup (map Player.id roster) →
  filter (λ p, Player.isPresent p = true) roster ≠ [] →
  historyOfPresentPlayers roster periods →
  withinOnePeriod (calculatePeriodCounts (new roster settings periods))
    (players (new roster settings periods)) →
  ∃ suggestion balance,
    generateOptimalLineup (new roster settings periods) = JS.Returned suggestion
    ∧ LineupSuggestion.playingTimeBalance suggestion = JS.Fin balance
    ∧ (balance = 1 ∨ balance = rotation_one_apart)
    ∧ Q2Qc (2 # 3) < rotation_one_apart < Q2Qc (67 # 100).
Proof.
  intros Hnd Hpresent Hhistory Hspread.
  set (this := new roster settings periods) in *.
  destruct (projected_spread roster settings periods Hnd Hspread)
    as (suggestion & Hrun & Hafter).
  destruct (generateOptimalLineup_players this)
    as (suggestion' & rest & Hrun' & Hsplit & _ & _ & _ & Hbalance).
  fold this in Hrun, Hafter. rewrite Hrun in Hrun'. injection Hrun' as <-.
  set (lineup := LineupSuggestion.players suggestion) in *.
  set (projected := foldl bump (calculatePeriodCounts this) lineup) in *.
  assert (Hkeys : ∀ k v, projected !! k = Some v →
                         ∃ p, p ∈ players this ∧ played projected p = v).
  { intros k v Hk.
    assert (Hid : k ∈ map Player.id (players this)).
    { assert (is_Some (projected !! k)) as Hsome by (by eexists).
      apply bump_keys in Hsome as [Hsome|Hin].
      - apply calculatePeriodCounts_keys in Hsome
          as [?|(period & p & Hperiod & Hdone & Hp & <-)]; [done|].
        by eapply Hhistory.
      - apply list_elem_of_fmap in Hin as (p & -> & Hp).
        apply list_elem_of_fmap_2. rewrite <- Hsplit.
        apply elem_of_app. by left. }
    apply list_elem_of_fmap in Hid as (p & -> & Hp).
    exists p. split; [done|]. unfold played, get. by rewrite Hk. }
  destruct (rotationBalance_of_counts (calculatePeriodCounts this) lineup)
    as (least & most & [kl Hleast] & [km Hmost] & Hle & Hvalue).
  { destruct (players this) as [|p others] eqn:Hplayers; [done|].
    assert (Hp : p ∈ players this) by (rewrite Hplayers; by left).
    apply calculatePeriodCounts_has_players in Hp.
    apply (bump_keeps_keys lineup) in Hp as [v Hv].
    fold projected in Hv. intros Hempty.
    fold projected in Hempty. rewrite Hempty, lookup_empty in Hv. done. }
  fold projected in Hleast, Hmost.
  apply Hkeys in Hleast as (pl & Hpl & Hl).
  apply Hkeys in Hmost as (pm & Hpm & Hm).
  pose proof (Hafter pm pl Hpm Hpl) as Hone. rewrite Hl, Hm in Hone.
  fold lineup in Hbalance. rewrite Hvalue, of_nat_sub in Hbalance by done.
  assert (most - least = 0 ∨ most - least = 1)%nat as [Hd|Hd] by lia;
    rewrite Hd in Hbalance.
  - exists suggestion, 1. split; [done|].
    split; [rewrite Hbalance; compute_done|].
    split; [by left|]. split; by vm_compute.
  - exists suggestion, rotation_one_apart. split; [done|].
    split; [rewrite Hbalance; compute_done|].
    split; [by right|]. split; by vm_compute.
Qed.

Lemma rotation_balance_after_first_period :
  NoDup (map Player.id scenarioRoster)
  ∧ filter (λ p, Player.isPresent p = true) scenarioRoster ≠ []
  ∧ historyOfPresentPlayers scenarioRoster earlyHistory
  ∧ withinOnePeriod
      (calculatePeriodCounts (new scenarioRoster scenarioSettings earlyHistory))
      (players (new scenarioRoster scenarioSettings earlyHistory))
  ∧ ∃ suggestion balance,
      generateOptimalLineup (new scenarioRoster scenarioSettings earlyHistory)
      = JS.Returned suggestion
      ∧ LineupSuggestion.playingTimeBalance suggestion = JS.Fin balance
      ∧ (balance = 1 ∨ balance = rotation_one_apart)
      ∧ Q2Qc (2 # 3) < rotation_one_apart < Q2Qc (67 # 100).
Proof.
  assert (Hnd : NoDup (map Player.id scenarioRoster)) by compute_done.
  assert (Hne : filter (λ p, Player.isPresent p = true) scenarioRoster ≠ [])
    by discriminate.
  assert (Hhistory : historyOfPresentPlayers scenarioRoster earlyHistory).
  { intros period p Hperiod _ Hp. unfold earlyHistory in Hperiod.
    apply list_elem_of_singleton in Hperiod as ->. simpl in Hp.
    repeat (apply elem_of_cons in Hp as [->|Hp]);
      try (by apply not_elem_of_nil in Hp); compute_done. }
  split; [exact Hnd|]. split; [exact Hne|]. split; [exact Hhistory|].
  split; [exact earlyHistory_within_one|].
  exact (rotation_balance_is_at_least_two_thirds scenarioRoster
           scenarioSettings earlyHistory Hnd Hne Hhistory
           earlyHistory_within_one).
Defined.

(** After the first period of the scenario the suggestion's balance is the
    rounded one. *)
Example rotation_balance_value :
  LineupSuggestion.playingTimeBalance
    <$> (match generateOptimalLineup
                 (new scenarioRoster scenarioSettings earlyHistory) with
         | JS.Returned suggestion => Some suggestion
         | JS.Thrown _ => None
         end)
  = Some (JS.Fin rotation_one_apart).
Proof. compute_done. Qed.

End RotationBalance.

(** ** Breaking a tie *)

Section TieBreak.

Import StrictLineupGenerator.

Lemma best_skill_is_highest (first : Player.t) (others : list Player.t) :
  ∀ q, q ∈ first :: others →
       Player.skillLevel q
       ≤ Player.skillLevel
           (foldl (λ best current,
                     if decide (Player.skillLevel best < Player.skillLevel current)
                     then current else best) first others).
Proof.
  revert first. induction others as [|p others IH]; intros first q Hq.
  { apply list_elem_of_singleton in Hq as ->. done. }
  simpl. apply elem_of_cons in Hq as [->|[->|Hq]%elem_of_cons].
  - case_decide as Hlt.
    + etrans; [apply Qclt_le_weak, Hlt|]. apply IH. by left.
    + apply IH. by left.
  - case_decide as Hlt.
    + apply IH. by left.
    + apply Qcnot_lt_le in Hlt. etrans; [exact Hlt|]. apply IH. by left.
  - case_decide; apply IH; by right.
Qed.

(** X6.  Among tied players [selectBestFromTied] returns one whose position
    is new in the lineup (and not [Any]) when there is one; when there is
    none, it returns a tied player of the highest skill level. *)
Theorem tie_goes_to_new_position_then_to_skill
    (tiedPlayers currentLineup : list Player.t) :
  tiedPlayers ≠ [] →
  ∃ selected,
    selectBestFromTied tiedPlayers currentLineup = JS.Returned selected
    ∧ selected ∈ tiedPlayers
    ∧ ((∃ q, q ∈ tiedPlayers ∧ bringsNewPosition currentLineup q) →
       bringsNewPosition currentLineup selected)
    ∧ ((∀ q, q ∈ tiedPlayers → ¬ bringsNewPosition currentLineup q) →
       ∀ q, q ∈ tiedPlayers →
            Player.skillLevel q ≤ Player.skillLevel selected).
Proof.
  intros Hne. unfold selectBestFromTied, bringsNewPosition.
  destruct (list_find _ tiedPlayers) as [[i p]|] eqn:Hfind.
  - apply list_find_Some in Hfind as (Hp%list_elem_of_lookup_2 & Hnew & _).
    exists p. split_and!; [done..| |].
    + by intros _.
    + intros Hnone. by destruct (Hnone p Hp).
  - rewrite list_find_None, Forall_forall in Hfind.
    destruct tiedPlayers as [|first others]; [done|].
    eexists. split_and!; [done|apply best_skill_is_tied| |].
    + intros (q & Hq & Hnew). by destruct (Hfind q Hq).
    + intros _. apply best_skill_is_highest.
Qed.

Lemma tie_example :
  tiedExample ≠ []
  ∧ ∃ selected,
      selectBestFromTied tiedExample [P2; P6] = JS.Returned selected
      ∧ selected ∈ tiedExample
      ∧ ((∃ q, q ∈ tiedExample ∧ bringsNewPosition [P2; P6] q) →
         bringsNewPosition [P2; P6] selected)
      ∧ ((∀ q, q ∈ tiedExample → ¬ bringsNewPosition [P2; P6] q) →
         ∀ q, q ∈ tiedExample →
              Player.skillLevel q ≤ Player.skillLevel selected).
Proof.
  assert (H : tiedExample ≠ []) by discriminate.
  split; [exact H|].
  exact (tie_goes_to_new_position_then_to_skill tiedExample [P2; P6] H).
Defined.

(** With a Forward and a Guard on court, none of P1 (Guard), P4 (Guard)
    and P5 (Forward) brings a new position: the tie goes to P1, the first of
    the two with skill 4. *)
Example tie_example_value :
  selectBestFromTied tiedExample [P2; P6] = JS.Returned P1.
Proof. reflexivity. Qed.

End TieBreak.

(** ** The debug listing *)

Section DebugListing.

Import StrictLineupGenerator.

(** X7.  [debugPeriodDistribution] lists every present player once, with
    the selector's period count, the least played first. *)
Theorem debug_listing_is_sorted_by_periods (this : t) :
  map (λ e, (DebugEntry.playerId e, DebugEntry.name e))
      (debugPeriodDistribution this)
  ≡ₚ map (λ p, (Player.id p, Player.name p)) (players this)
  ∧ Forall (λ e, DebugEntry.periods e
                 = get (calculatePeriodCounts this) (DebugEntry.playerId e))
           (debugPeriodDistribution this)
  ∧ StronglySorted (λ a b, (DebugEntry.periods a ≤ DebugEntry.periods b)%nat)
      (debugPeriodDistribution this).
Proof.
  unfold debugPeriodDistribution.
  set (counts := calculatePeriodCounts this).
  set (entries := map _ (players this)).
  set (cmp := λ a b : DebugEntry.t, _).
  split_and!.
  - rewrite sort_perm. unfold entries.
    change (map ?f ?l) with (f <$> l).
    by rewrite <- list_fmap_compose.
  - rewrite sort_perm. apply Forall_forall.
    intros e (p & -> & _)%list_elem_of_fmap. done.
  - apply (StronglySorted_weaken
             (λ a b, JS.of_nat (DebugEntry.periods a)
                     ≤ JS.of_nat (DebugEntry.periods b))).
    + intros a b _ _ Hab.
      destruct (decide (DebugEntry.periods a ≤ DebugEntry.periods b)%nat)
        as [|Hgt]; [done|].
      apply Nat.nle_gt, of_nat_lt in Hgt. by destruct (Qclt_not_le _ _ Hgt).
    + by apply (sort_sorted cmp (λ e, JS.of_nat (DebugEntry.periods e))).
Qed.

End DebugListing.

(** ** Attendance *)

Section Attendance.

Import GameManager.

Lemma findPlayer_insert (roster : list Player.t) (playerId : string)
    (i : nat) (player player' : Player.t) :
  findPlayer playerId roster = Some (i, player) →
  Player.id player' = Player.id player →
  findPlayer playerId (<[i := player']> roster) = Some (i, player').
Proof.
  intros (Hi & Hid & Hfirst)%list_find_Some Hsame.
  apply list_find_Some. split_and!.
  - apply list_lookup_insert_eq. by eapply lookup_lt_Some.
  - congruence.
  - intros j q Hj Hlt. rewrite list_lookup_insert_ne in Hj by lia.
    by eapply Hfirst.
Qed.

Lemma set_isPresent_twice (b b' : bool) (p : Player.t) :
  Player.set_isPresent b' (Player.set_isPresent b p) = Player.set_isPresent b' p.
Proof. done. Qed.

Lemma set_isPresent_same (p : Player.t) :
  Player.set_isPresent (Player.isPresent p) p = p.
Proof. by destruct p. Qed.

(** X8.  Marking a roster player twice is marking with the last value, and
    marking back to the value the player had restores the game. *)
Theorem markPlayerPresent_last_mark_wins (game : Game.t) (playerId : string)
    (i : nat) (player : Player.t) (first second : bool) :
  findPlayer playerId (Game.roster game) = Some (i, player) →
  markPlayerPresent (markPlayerPresent game playerId first) playerId second
  = markPlayerPresent game playerId second
  ∧ markPlayerPresent (markPlayerPresent game playerId first) playerId
      (Player.isPresent player)
    = game.
Proof.
  intros Hfind.
  assert (Hagain : ∀ b b',
             markPlayerPresent (markPlayerPresent game playerId b) playerId b'
             = markPlayerPresent game playerId b').
  { intros b b'. unfold markPlayerPresent at 2 3. rewrite Hfind.
    unfold markPlayerPresent. cbn [Game.roster Game.settings Game.periods].
    rewrite (findPlayer_insert _ _ _ _ (Player.set_isPresent b player) Hfind)
      by done.
    by rewrite list_insert_insert_eq, set_isPresent_twice. }
  split; [apply Hagain|]. rewrite Hagain.
  unfold markPlayerPresent. rewrite Hfind, set_isPresent_same.
  apply list_find_Some in Hfind as (Hi & _ & _).
  rewrite list_insert_id by done. by destruct game.
Qed.

Lemma markPlayerPresent_example :
  findPlayer "P2" (Game.roster arrivingGame)
  = Some (1%nat, Player.set_isPresent false P2)
  ∧ markPlayerPresent (markPlayerPresent arrivingGame "P2" true) "P2" false
    = markPlayerPresent arrivingGame "P2" false
  ∧ markPlayerPresent (markPlayerPresent arrivingGame "P2" true) "P2"
      (Player.isPresent (Player.set_isPresent false P2))
    = arrivingGame.
Proof.
  assert (H : findPlayer "P2" (Game.roster arrivingGame)
              = Some (1%nat, Player.set_isPresent false P2)) by reflexivity.
  split; [exact H|].
  exact (markPlayerPresent_last_mark_wins arrivingGame "P2" 1 _ true false H).
Defined.

(** X9.  On a roster with distinct ids the attendance toggle of the
    application, which rebuilds the roster, gives the game that
    [markPlayerPresent] gives. *)
Theorem handlePlayerToggle_is_markPlayerPresent (game : Game.t)
    (playerId : string) (isPresent : bool) :
  NoDup (map Player.id (Game.roster game)) →
  handlePlayerToggle game playerId isPresent
  = markPlayerPresent game playerId isPresent.
Proof.
  intros Hnd. unfold handlePlayerToggle, markPlayerPresent.
  destruct (findPlayer playerId (Game.roster game)) as [[i player]|] eqn:Hfind.
  - f_equal. apply list_find_Some in Hfind as (Hi & Hid & _).
    apply list_eq. intros j.
    change (map ?f ?l) with (f <$> l). rewrite list_lookup_fmap.
    destruct (decide (j = i)) as [->|Hne].
    + rewrite Hi, list_lookup_insert_eq by (by eapply lookup_lt_Some).
      simpl. by rewrite decide_True.
    + rewrite list_lookup_insert_ne by done.
      destruct (Game.roster game !! j) as [q|] eqn:Hj; [|done]. simpl.
      rewrite decide_False; [done|]. intros Hq. apply Hne.
      change (map Player.id ?l) with (Player.id <$> l) in Hnd.
      eapply (NoDup_lookup _ _ _ _ Hnd); rewrite list_lookup_fmap.
      * by rewrite Hj.
      * rewrite Hi. simpl. congruence.
  - apply list_find_None in Hfind. rewrite Forall_forall in Hfind.
    destruct game as [settings roster periods]. simpl in *. f_equal.
    rewrite <- (map_id roster) at 2. apply map_ext_in.
    intros q Hq%list_elem_of_In. rewrite decide_False; [done|].
    by apply Hfind.
Qed.

Lemma handlePlayerToggle_example :
  NoDup (map Player.id (Game.roster arrivingGame))
  ∧ handlePlayerToggle arrivingGame "P2" true
    = markPlayerPresent arrivingGame "P2" true.
Proof.
  assert (H : NoDup (map Player.id (Game.roster arrivingGame)))
    by compute_done.
  split; [exact H|].
  exact (handlePlayerToggle_is_markPlayerPresent arrivingGame "P2" true H).
Defined.

(** X10.  Before the first period is completed a late player is only marked
    present: [addLatePlayer] is [markPlayerPresent(playerId, true)] and no
    playing time is credited. *)
Theorem addLatePlayer_before_first_completed_period (game : Game.t)
    (playerId : string) :
  completedHistory game = [] →
  addLatePlayer game playerId = Some (markPlayerPresent game playerId true).
Proof.
  intros Hnone. unfold markPlayerPresent.
  destruct (findPlayer playerId (Game.roster game)) as [[i player]|] eqn:Hfind.
  - rewrite (addLatePlayer_computes _ _ _ _ Hfind), Hnone.
    by rewrite decide_True.
  - unfold addLatePlayer. by rewrite Hfind.
Qed.

Lemma addLatePlayer_at_kickoff :
  completedHistory kickoffGame = []
  ∧ addLatePlayer kickoffGame "P7"
    = Some (markPlayerPresent kickoffGame "P7" true).
Proof.
  assert (H : completedHistory kickoffGame = []) by reflexivity.
  split; [exact H|].
  exact (addLatePlayer_before_first_completed_period kickoffGame "P7" H).
Defined.

End Attendance.

(** ** The period report *)

Section PeriodReport.

Import GameManager.

Lemma reportPeriodCounts_appearances (game : Game.t) (id : string) :
  StrictLineupGenerator.get (reportPeriodCounts game) id
  = appearances (Game.periods game) id.
Proof.
  unfold reportPeriodCounts. by rewrite counted_appearances, get_initial.
Qed.



(** In the scenario: two periods of five among six players, a target of 5/3
    periods each; P1 and P2 have not played. *)
Example period_report_scenario_value :
  map (λ e, (Player.id (PeriodReportEntry.player e),
             PeriodReportEntry.periodsPlayed e,
             PeriodReportEntry.targetPeriods e))
      (getPeriodReport scenarioGame)
  = [("P1", 0%nat, JS.Fin (Q2Qc (5 # 3))); ("P2", 0%nat, JS.Fin (Q2Qc (5 # 3)));
     ("P3", 1%nat, JS.Fin (Q2Qc (5 # 3))); ("P4", 1%nat, JS.Fin (Q2Qc (5 # 3)));
     ("P5", 2%nat, JS.Fin (Q2Qc (5 # 3))); ("P6", 2%nat, JS.Fin (Q2Qc (5 # 3)))].
Proof. compute_done. Qed.

(** X12.  The period report and the selector count alike: the
    [periodsPlayed] the report shows for a player is the count the selector
    ranks that player by. *)
Theorem period_report_shows_the_selector_counts (game : Game.t) :
  (∀ id,
     StrictLineupGenerator.get (reportPeriodCounts game) id
     = StrictLineupGenerator.get
         (StrictLineupGenerator.calculatePeriodCounts
            (StrictLineupGenerator.new (Game.roster game)
               (Game.settings game) (Game.periods game)))
         id)
  ∧ Forall (λ e,
            PeriodReportEntry.periodsPlayed e
            = StrictLineupGenerator.get
                (StrictLineupGenerator.calculatePeriodCounts
                   (StrictLineupGenerator.new (Game.roster game)
                      (Game.settings game) (Game.periods game)))
                (Player.id (PeriodReportEntry.player e)))
         (getPeriodReport game).
Proof.
  split.
  { intros id.
    by rewrite reportPeriodCounts_appearances, calculatePeriodCounts_appearances. }
  unfold getPeriodReport. rewrite sort_perm. apply Forall_forall.
  intros e (p & -> & _)%list_elem_of_fmap. simpl.
  by rewrite reportPeriodCounts_appearances, calculatePeriodCounts_appearances.
Qed.

End PeriodReport.

(** ** Progress and overtime *)

Section Progress.

Import GameManager.

Lemma completed_after_insert (periods : list Period.t) (k : nat)
    (period period' : Period.t) :
  periods !! k = Some period →
  Period.isCompleted period' = true →
  length (filter (λ p, Period.isCompleted p = true) (<[k := period']> periods))
  = (length (filter (λ p, Period.isCompleted p = true) periods)
     + if Period.isCompleted period then 0 else 1)%nat.
Proof.
  intros Hk Hdone. revert k Hk.
  induction periods as [|p periods IH]; intros [|k] Hk; simpl in *; try done.
  - injection Hk as ->. rewrite !filter_cons.
    rewrite (decide_True (P := Period.isCompleted period' = true)) by done.
    destruct (decide (Period.isCompleted period = true)) as [E|E];
      [rewrite E|apply not_true_is_false in E; rewrite E]; simpl; lia.
  - rewrite !filter_cons. case_decide; simpl; rewrite (IH _ Hk); lia.
Qed.

(** X13.  Completing a period that was open moves the progress by one
    period: one more completed and [periodDuration] less time remaining
    (whatever the actual duration); completing a period that was already
    completed leaves the progress as it is. *)
Theorem progress_after_completePeriod (game : Game.t) (periodId : string)
    (actualDuration : option Qc) (k : nat) (period : Period.t) :
  findPeriod periodId (Game.periods game) = Some (k, period) →
  getGameProgress (completePeriod game periodId actualDuration)
  = if Period.isCompleted period then getGameProgress game
    else GameProgress.mk
           (S (GameProgress.completedPeriods (getGameProgress game)))
           (GameProgress.totalPeriods (getGameProgress game))
           (GameProgress.timeRemaining (getGameProgress game)
            - GameSettings.periodDuration (Game.settings game)).
Proof.
  intros Hfind. rewrite (completePeriod_found _ _ _ _ _ Hfind).
  apply list_find_Some in Hfind as (Hk & _ & _).
  unfold getGameProgress, completedHistory.
  cbn [Game.settings Game.periods].
  rewrite (completed_after_insert _ _ _ _ Hk) by done.
  destruct (Period.isCompleted period).
  - by rewrite Nat.add_0_r.
  - cbn [GameProgress.completedPeriods GameProgress.totalPeriods
         GameProgress.timeRemaining].
    rewrite Nat.add_1_r. f_equal. rewrite of_nat_S. ring.
Qed.

Lemma progress_after_first_period :
  findPeriod "period-1" (Game.periods firstPeriodGame)
  = Some (0%nat, Period.mk "period-1" 1 [P2; P1; P3; P4; P6] false None)
  ∧ GameProgress.completedPeriods
      (getGameProgress (completePeriod firstPeriodGame "period-1" None))
    = 1%nat
  ∧ GameProgress.timeRemaining
      (getGameProgress (completePeriod firstPeriodGame "period-1" None))
    = Qc_of_Z 36.
Proof.
  assert (H : findPeriod "period-1" (Game.periods firstPeriodGame)
              = Some (0%nat,
                      Period.mk "period-1" 1 [P2; P1; P3; P4; P6] false None))
    by reflexivity.
  split; [exact H|].
  rewrite (progress_after_completePeriod firstPeriodGame "period-1" None 0 _ H).
  split; [reflexivity|]. compute_done.
Defined.

(** X14.  [addOvertimePeriod] never throws.  It returns a period exactly when
    regulation is over and an overtime period is left, that is when
    [periodsCount <= periods.length] and
    [periods.length - periodsCount < overtimePeriods]; the period is then an
    open one, numbered [periods.length + 1], with the lineup that
    [generateNextLineup] suggests. *)
Theorem addOvertimePeriod_when_allowed (game : Game.t) :
  ∃ result,
    addOvertimePeriod game = JS.Returned result
    ∧ (is_Some result
       ↔ GameSettings.periodsCount (Game.settings game)
         ≤ JS.of_nat (length (Game.periods game))
         ∧ JS.of_nat (length (Game.periods game))
           - GameSettings.periodsCount (Game.settings game)
           < GameSettings.overtimePeriods (Game.settings game))
    ∧ ∀ period,
        result = Some period →
        Period.number period = S (length (Game.periods game))
        ∧ Period.isCompleted period = false
        ∧ Period.actualDuration period = None
        ∧ ∃ suggestion,
            generateNextLineup game = JS.Returned suggestion
            ∧ Period.lineup period = LineupSuggestion.players suggestion.
Proof.
  unfold addOvertimePeriod, canAddOvertimePeriod.
  destruct (generateOptimalLineup_returns
              (StrictLineupGenerator.new (Game.roster game)
                 (Game.settings game) (Game.periods game)))
    as [suggestion Hrun].
  fold (generateNextLineup game) in Hrun.
  case_bool_decide as Hover; simpl.
  - case_decide as Hused.
    + exists None. split_and!; [done| |done].
      split; [by intros [? [=]]|]. intros [_ Hleft].
      by destruct (Qclt_not_le _ _ Hleft).
    + rewrite Hrun. eexists. split_and!; [done| |].
      * split; [|by eexists]. intros _. split; [done|].
        by apply Qcnot_le_lt.
      * intros period [= <-]. simpl. rewrite Nat.add_1_r.
        split_and!; [done..|]. by exists suggestion.
  - exists None. split_and!; [done| |done].
    split; [by intros [? [=]]|]. by intros [? _].
Qed.

(** After eight periods out of eight, with two overtime periods allowed, a
    ninth period is handed out. *)
Example overtime_after_regulation :
  ∃ period,
    addOvertimePeriod regulationOverGame = JS.Returned (Some period)
    ∧ Period.id period = "period-9"
    ∧ Period.number period = 9%nat.
Proof. eexists. split; [reflexivity|]. by split. Qed.

End Progress.

(** ** What the operations keep *)

Section Kept.

Import GameManager.

Lemma addLatePlayer_periods (game game' : Game.t) (playerId : string) :
  addLatePlayer game playerId = Some game' →
  Game.periods game' = Game.periods game
  ∧ map identity (Game.roster game') = map identity (Game.roster game).
Proof.
  intros Hlate.
  destruct (findPlayer playerId (Game.roster game)) as [[i player]|] eqn:Hfind.
  - rewrite (addLatePlayer_computes _ _ _ _ Hfind) in Hlate.
    apply list_find_Some in Hfind as (Hi & _ & _).
    assert (Hkeep : ∀ p', identity p' = identity player →
                          map identity (<[i := p']> (Game.roster game))
                          = map identity (Game.roster game)).
    { intros p' Hp'. change (map identity ?l) with (identity <$> l).
      rewrite list_fmap_insert, Hp'. apply list_insert_id.
      by rewrite list_lookup_fmap, Hi. }
    case_decide;
      [|destruct (lateCredit _ _ _) as [credit| | |]; [|done..]];
      injection Hlate as <-; simpl; split; try done; by apply Hkeep.
  - unfold addLatePlayer in Hlate. rewrite Hfind in Hlate.
    by injection Hlate as <-.
Qed.

Lemma credited_identity (duration : Qc) (lineup roster : list Player.t) :
  map identity (foldl (creditPlayer duration) roster lineup)
  = map identity roster.
Proof.
  revert roster. induction lineup as [|p lineup IH]; intros roster; simpl;
    [done|].
  rewrite IH. unfold creditPlayer.
  destruct (findPlayer _ roster) as [[i gamePlayer]|] eqn:Hfind; [|done].
  apply list_find_Some in Hfind as (Hi & _ & _).
  change (map identity ?l) with (identity <$> l).
  rewrite list_fmap_insert. apply list_insert_id.
  by rewrite list_lookup_fmap, Hi.
Qed.

(** One operation: the periods stay where they are, and the roster keeps
    its players. *)
Lemma performs_keeps (game game' : Game.t) (op : operation) :
  performs game op game' →
  map identity (Game.roster game') = map identity (Game.roster game)
  ∧ (∀ k period,
       Game.periods game !! k = Some period →
       ∃ period', Game.periods game' !! k = Some period'
                  ∧ samePeriodLater period period')
  ∧ (length (Game.periods game) ≤ length (Game.periods game'))%nat.
Proof.
  assert (Hsame : ∀ period, samePeriodLater period period) by done.
  assert (Hinsert : ∀ (periods : list Period.t) k0 period0 period0',
             periods !! k0 = Some period0 →
             samePeriodLater period0 period0' →
             ∀ k period,
               periods !! k = Some period →
               ∃ period', <[k0 := period0']> periods !! k = Some period'
                          ∧ samePeriodLater period period').
  { intros periods k0 period0 period0' Hk0 Hlater k period Hk.
    destruct (decide (k = k0)) as [->|Hne].
    - exists period0'. split.
      + apply list_lookup_insert_eq. by eapply lookup_lt_Some.
      + congruence.
    - exists period. by rewrite list_lookup_insert_ne. }
  intros [game0 playerId isPresent|game0 playerId game1 Hlate
         |game0 suggestion|game0 periodId actualDuration
         |game0 periodId playerOutId playerInId|game0 newSettings].
  - unfold markPlayerPresent.
    destruct (findPlayer _ _) as [[i player]|] eqn:Hfind; simpl;
      [|split_and!; eauto].
    apply list_find_Some in Hfind as (Hi & _ & _).
    split_and!; [|eauto|done].
    change (map identity ?l) with (identity <$> l).
    rewrite list_fmap_insert. apply list_insert_id.
    by rewrite list_lookup_fmap, Hi.
  - apply addLatePlayer_periods in Hlate as [-> ->]. split_and!; eauto.
  - simpl. split_and!; [done| |rewrite length_app; lia].
    intros k period Hk. exists period. split; [|done].
    by apply lookup_app_l_Some.
  - destruct (findPeriod periodId (Game.periods game0)) as [[k0 period0]|]
      eqn:Hfind; [|unfold completePeriod; rewrite Hfind; split_and!; eauto].
    rewrite (completePeriod_found _ _ _ _ _ Hfind). simpl.
    apply list_find_Some in Hfind as (Hk0 & _ & _).
    split_and!; [apply credited_identity| |by rewrite length_insert].
    by apply (Hinsert _ _ _ _ Hk0).
  - destruct (swapPlayers_cases game0 periodId playerOutId playerInId)
      as [->|(k0 & period0 & i & playerIn & Hk0 & Hopen & _ & ->)];
      [split_and!; eauto|]. simpl.
    split_and!; [done| |by rewrite length_insert].
    apply (Hinsert _ _ _ _ Hk0). split_and!; [done..|].
    intros Hdone. congruence.
  - simpl. split_and!; eauto.
Qed.

(** While every committed suggestion brings an array of its own, no two
    periods hold the same array, and an operation on the shared arrays is
    the operation of the game. *)
Lemma own_array_run_keeps (start this : Shared.t) (late : gset string) :
  unshared start →
  runs ownArray start late this →
  unshared this
  ∧ (length (Game.periods (Shared.game start))
     ≤ length (Game.periods (Shared.game this)))%nat
  ∧ ∀ k period,
      Game.periods (Shared.game start) !! k = Some period →
      ∃ period', Game.periods (Shared.game this) !! k = Some period'
                 ∧ samePeriodLater period period'.
Proof.
  intros Hun Hrun.
  induction Hrun as [|late this a this' _ (Hun1 & IHlen & IH) Hown Hacts].
  { split_and!; [done..|]. intros k period Hk. by exists period. }
  destruct (acts_unshared _ _ _ Hun1 Hown Hacts) as [Hperf Hun2].
  destruct (performs_keeps _ _ _ Hperf) as (_ & Hstep & Hlen).
  split_and!; [done|lia|]. intros k period Hk.
  destruct (IH k period Hk) as (period1 & Hk1 & Hid1 & Hnum1 & Hdone1).
  destruct (Hstep k period1 Hk1) as (period2 & Hk2 & Hid2 & Hnum2 & Hdone2).
  exists period2. split; [done|]. split_and!; [congruence..|].
  intros Hdone. destruct (Hdone1 Hdone) as [Hc1 Hl1].
  destruct (Hdone2 Hc1) as [Hc2 Hl2]. split; congruence.
Qed.

(** X15.  From a state in which no two periods hold the same lineup array,
    and while every committed suggestion brings an array of its own,
    whatever operations follow: a period stays at its place in the list with
    its id and its number, nothing is removed from the list, and a completed
    period stays completed with the same players in the same places of its
    lineup. *)
Theorem periods_are_kept_and_completed_lineups_frozen
    (start this : Shared.t) (late : gset string) :
  unshared start →
  runs ownArray start late this →
  (length (Game.periods (Shared.game start))
   ≤ length (Game.periods (Shared.game this)))%nat
  ∧ ∀ k period,
      Game.periods (Shared.game start) !! k = Some period →
      ∃ period', Game.periods (Shared.game this) !! k = Some period'
                 ∧ keptPeriod period period'.
Proof.
  intros Hun Hrun.
  destruct (own_array_run_keeps _ _ _ Hun Hrun) as (_ & Hlen & Hkept).
  split; [done|]. intros k period Hk.
  destruct (Hkept k period Hk) as (period' & Hk' & Hid & Hnumber & Hdone).
  exists period'. split; [done|]. split_and!; [done..|].
  intros Hcompleted. destruct (Hdone Hcompleted) as [-> ->]. done.
Qed.

Lemma secondPeriodSwapped_run :
  ∃ late,
    runs ownArray (Shared.mk afterFirstPeriod [0%nat]) late
      secondPeriodSwapped.
Proof.
  pose proof (runs_start ownArray (Shared.mk afterFirstPeriod [0%nat]))
    as Hrun0.
  assert (Hrun1 : ∃ late,
             runs ownArray (Shared.mk afterFirstPeriod [0%nat]) late
               secondPeriodOpen).
  { eexists.
    eapply (runs_step _ _ _ _ (Commit secondSuggestion 1%nat));
      [exact Hrun0| |].
    - simpl. set_solver.
    - apply (acts_commit _ secondSuggestion 1%nat).
      intros [|[|j]] Hj; simplify_eq/=. }
  destruct Hrun1 as [late1 Hrun1].
  assert (Hrun2 : ∃ late,
             runs ownArray (Shared.mk afterFirstPeriod [0%nat]) late
               (fst (Shared.swapPlayers secondPeriodOpen
                       "period-1" "P1" "P5"))).
  { eexists.
    eapply (runs_step _ _ _ _ (Swap "period-1" "P1" "P5"));
      [exact Hrun1|done|].
    apply (acts_swap _ "period-1" "P1" "P5"). }
  destruct Hrun2 as [late2 Hrun2].
  eexists.
  eapply (runs_step _ _ _ _ (Swap "period-2" "P5" "P4"));
    [exact Hrun2|done|].
  apply (acts_swap _ "period-2" "P5" "P4").
Qed.

(** The first period of the scenario, completed, is still what it was
    after a second period has been committed with its own array, a swap has
    been asked for in the first period and P4 has come in for P5 in the
    second. *)
Lemma completed_first_period_is_kept :
  unshared (Shared.mk afterFirstPeriod [0%nat])
  ∧ (∃ late,
       runs ownArray (Shared.mk afterFirstPeriod [0%nat]) late
         secondPeriodSwapped)
  ∧ (map (λ period, map Player.id (Period.lineup period))
       (Game.periods (Shared.game secondPeriodSwapped))
     = [["P2"; "P1"; "P3"; "P4"; "P6"]; ["P4"; "P6"; "P1"; "P2"; "P3"]])
  ∧ ∃ period period',
      Game.periods afterFirstPeriod !! 0%nat = Some period
      ∧ Period.isCompleted period = true
      ∧ Game.periods (Shared.game secondPeriodSwapped) !! 0%nat = Some period'
      ∧ keptPeriod period period'.
Proof.
  assert (Hun : unshared (Shared.mk afterFirstPeriod [0%nat]))
    by (split; [by repeat constructor; set_solver|done]).
  split; [exact Hun|]. split; [exact secondPeriodSwapped_run|].
  split; [reflexivity|].
  destruct secondPeriodSwapped_run as [late Hrun].
  destruct (periods_are_kept_and_completed_lineups_frozen _ _ _ Hun Hrun)
    as [_ Hkept].
  destruct (Hkept 0%nat
              (Period.mk "period-1" 1 [P2; P1; P3; P4; P6] true
                 (Some (Qc_of_Z 4))) eq_refl)
    as (period' & Hk & Hsame).
  eexists _, period'. split; [reflexivity|]. split; [reflexivity|].
  split; [exact Hk|exact Hsame].
Defined.

(** When a suggestion is committed again with the array that the completed
    first period holds, a swap in the new period rewrites the lineup of the
    completed one. *)
Example shared_array_rewrites_a_completed_lineup :
  unshared (Shared.mk afterFirstPeriod [0%nat])
  ∧ ∃ late this period period',
      runs anything (Shared.mk afterFirstPeriod [0%nat]) late this
      ∧ Game.periods afterFirstPeriod !! 0%nat = Some period
      ∧ Period.isCompleted period = true
      ∧ map Player.id (Period.lineup period) = ["P2"; "P1"; "P3"; "P4"; "P6"]
      ∧ Game.periods (Shared.game this) !! 0%nat = Some period'
      ∧ map Player.id (Period.lineup period')
        = ["P2"; "P5"; "P3"; "P4"; "P6"].
Proof.
  split; [split; [by repeat constructor; set_solver|done]|].
  pose proof (runs_start anything (Shared.mk afterFirstPeriod [0%nat]))
    as Hrun0.
  assert (Hrun1 : ∃ late,
             runs anything (Shared.mk afterFirstPeriod [0%nat]) late
               (Shared.createPeriodFromSuggestion
                  (Shared.mk afterFirstPeriod [0%nat]) firstSuggestion 0)).
  { eexists.
    eapply (runs_step _ _ _ _ (Commit firstSuggestion 0%nat));
      [exact Hrun0|done|].
    apply (acts_commit _ firstSuggestion 0%nat).
    intros [|j] Hj; [|done]. eexists. split; reflexivity. }
  destruct Hrun1 as [late1 Hrun1].
  eexists _, _, _, _. split.
  { eapply (runs_step _ _ _ _ (Swap "period-2" "P1" "P5"));
      [exact Hrun1|done|].
    apply (acts_swap _ "period-2" "P1" "P5"). }
  split_and!; reflexivity.
Qed.

(** X16.  No operation adds, removes, reorders or edits a player: along any
    run the roster lists the same ids, names, jersey numbers, skill levels
    and positions; only attendance and playing time change. *)
Theorem roster_keeps_its_players (game game' : Game.t) :
  reachable game game' →
  map identity (Game.roster game') = map identity (Game.roster game).
Proof.
  induction 1 as [|game1 op game2 _ IH Hperf]; [done|].
  destruct (performs_keeps _ _ _ Hperf) as (Hroster & _). congruence.
Qed.

Lemma roster_kept_after_first_period :
  reachable kickoffGame afterFirstPeriod
  ∧ map identity (Game.roster afterFirstPeriod)
    = map identity (Game.roster kickoffGame).
Proof.
  split; [exact afterFirstPeriod_reachable|].
  exact (roster_keeps_its_players kickoffGame afterFirstPeriod
           afterFirstPeriod_reachable).
Defined.

(** X17.  Starting without periods, the periods of every game reached are
    numbered 1, 2, ... in order and named "period-1", "period-2", ...; the
    ids are distinct, so that looking a period up by its id finds that
    period. *)
Theorem periods_are_numbered_in_order (start game : Game.t) :
  Game.periods start = [] →
  reachable start game →
  wellNumbered (Game.periods game)
  ∧ ∀ k period,
      Game.periods game !! k = Some period →
      findPeriod (Period.id period) (Game.periods game) = Some (k, period).
Proof.
  intros Hstart Hreach.
  assert (Hnumbered : wellNumbered (Game.periods game)).
  { induction Hreach as [|game1 op game2 Hreach IH Hperf].
    { rewrite Hstart. intros i period Hi. done. }
    destruct (performs_keeps _ _ _ Hperf) as (_ & Hstep & Hlen).
    intros i period2 Hi.
    destruct (Game.periods game1 !! i) as [period1|] eqn:Hi1.
    - destruct (Hstep i period1 Hi1) as (period2' & Hi2 & Hid & Hnum & _).
      assert (period2' = period2) as -> by congruence.
      destruct (IH i period1 Hi1) as [? ?]. split; congruence.
    - apply lookup_ge_None in Hi1.
      destruct Hperf as [game0 playerId isPresent|game0 playerId game1 Hlate
                        |game0 suggestion|game0 periodId actualDuration
                        |game0 periodId playerOutId playerInId|game0 newSettings].
      + apply lookup_lt_Some in Hi.
        assert (Game.periods (markPlayerPresent game0 playerId isPresent)
                = Game.periods game0) as Heq.
        { unfold markPlayerPresent. by destruct (findPlayer _ _) as [[??]|]. }
        rewrite Heq in Hi. lia.
      + apply addLatePlayer_periods in Hlate as [Heq _].
        apply lookup_lt_Some in Hi. rewrite Heq in Hi. lia.
      + simpl in Hi. rewrite lookup_app_r in Hi by done.
        apply list_lookup_singleton_Some in Hi as [Hi <-].
        assert (i = length (Game.periods game0)) as -> by lia.
        simpl. by rewrite Nat.add_1_r.
      + apply lookup_lt_Some in Hi.
        assert (length (Game.periods
                          (completePeriod game0 periodId actualDuration))
                = length (Game.periods game0)) as Heq.
        { unfold completePeriod.
          destruct (findPeriod _ _) as [[??]|]; [|done]. simpl.
          apply length_insert. }
        lia.
      + apply lookup_lt_Some in Hi.
        assert (length (Game.periods
                          (fst (swapPlayers game0 periodId playerOutId
                                  playerInId)))
                = length (Game.periods game0)) as Heq.
        { destruct (swapPlayers_cases game0 periodId playerOutId playerInId)
            as [->|(? & ? & ? & ? & _ & _ & _ & ->)]; [done|].
          simpl. apply length_insert. }
        lia.
      + apply lookup_lt_Some in Hi. simpl in Hi. lia. }
  split; [done|]. intros k period Hk.
  apply list_find_Some. split_and!; [done..|].
  intros j other Hj Hlt Hsame.
  destruct (Hnumbered _ _ Hk) as [_ Hidk].
  destruct (Hnumbered _ _ Hj) as [_ Hidj].
  rewrite Hidk, Hidj in Hsame.
  apply (inj (String.app "period-")), (inj pretty) in Hsame. lia.
Qed.

Lemma periods_numbered_after_first_period :
  Game.periods kickoffGame = []
  ∧ reachable kickoffGame afterFirstPeriod
  ∧ wellNumbered (Game.periods afterFirstPeriod).
Proof.
  split; [reflexivity|]. split; [exact afterFirstPeriod_reachable|].
  exact (proj1 (periods_are_numbered_in_order kickoffGame afterFirstPeriod
                  eq_refl afterFirstPeriod_reachable)).
Defined.

End Kept.

(** ** Minutes handed out by a completion *)

Section Minutes.

Import GameManager.





End Minutes.

(** ** Swaps offered by the game screen *)

Section Bench.

Import GameManager.

(** X19.  Every player the game screen shows on the bench can be swapped in
    for every player of the current lineup: for an open period found by its
    id, [swapPlayers] succeeds. *)
Theorem bench_players_can_be_swapped_in (game : Game.t) (periodId : string)
    (k : nat) (period : Period.t) (playerOutId : string) (playerIn : Player.t) :
  findPeriod periodId (Game.periods game) = Some (k, period) →
  Period.isCompleted period = false →
  playerOutId ∈ map Player.id (Period.lineup period) →
  playerIn ∈ benchPlayers game (Some period) →
  (swapPlayers game periodId playerOutId (Player.id playerIn)).2 = true.
Proof.
  intros Hfind Hopen Hout Hbench. unfold swapPlayers. rewrite Hfind, Hopen.
  apply list_elem_of_filter in Hbench as [Hfree Hpresent].
  apply list_elem_of_filter in Hpresent as [Hpresent Hroster].
  destruct (list_find _ (Period.lineup period)) as [[i playerOut]|] eqn:Hi;
    [|by apply find_by_id_None in Hi].
  destruct (list_find_elem_of
              (λ p, Player.id p = Player.id playerIn
                    ∧ Player.isPresent p = true)
              (Game.roster game) playerIn Hroster (conj eq_refl Hpresent))
    as [[j found] ->].
  by rewrite decide_False.
Qed.

Lemma bench_example :
  findPeriod "period-1" (Game.periods swapGame) = Some (0%nat, swapPeriod)
  ∧ Period.isCompleted swapPeriod = false
  ∧ "P2" ∈ map Player.id (Period.lineup swapPeriod)
  ∧ P6 ∈ benchPlayers swapGame (Some swapPeriod)
  ∧ (swapPlayers swapGame "period-1" "P2" (Player.id P6)).2 = true.
Proof.
  assert (H1 : findPeriod "period-1" (Game.periods swapGame)
               = Some (0%nat, swapPeriod)) by reflexivity.
  assert (H2 : "P2" ∈ map Player.id (Period.lineup swapPeriod))
    by (right; left).
  assert (H3 : P6 ∈ benchPlayers swapGame (Some swapPeriod)) by compute_done.
  split; [exact H1|]. split; [reflexivity|]. split; [exact H2|].
  split; [exact H3|].
  exact (bench_players_can_be_swapped_in swapGame "period-1" 0 swapPeriod
           "P2" P6 H1 eq_refl H2 H3).
Defined.

(** The bench of the example is F alone. *)
Example bench_example_value : benchPlayers swapGame (Some swapPeriod) = [P6].
Proof. reflexivity. Qed.

End Bench.

(** ** The start gate *)

Section StartGate.

Import StrictLineupGenerator.

(** X20.  Once the roster screen lets the game start (five players present
    or more), the first suggestion has a full lineup for every lineup size
    up to five. *)
Theorem start_gate_gives_a_full_lineup
    (roster : list Player.t) (settings : GameSettings.t)
    (periods : list Period.t) (k : nat) :
  startGameAllowed roster = true →
  GameSettings.playersOnCourt settings = JS.of_nat k →
  (k ≤ 5)%nat →
  ∃ suggestion,
    generateOptimalLineup (new roster settings periods) = JS.Returned suggestion
    ∧ length (LineupSuggestion.players suggestion) = k.
Proof.
  intros Hgate Hk Hsmall. apply full_lineup; [done|].
  unfold startGameAllowed in Hgate. apply negb_true_iff in Hgate.
  apply bool_decide_eq_false in Hgate. unfold presentCount. lia.
Qed.

Lemma start_gate_scenario :
  startGameAllowed scenarioRoster = true
  ∧ GameSettings.playersOnCourt scenarioSettings = JS.of_nat 5
  ∧ (5 ≤ 5)%nat
  ∧ ∃ suggestion,
      generateOptimalLineup (new scenarioRoster scenarioSettings [])
      = JS.Returned suggestion
      ∧ length (LineupSuggestion.players suggestion) = 5%nat.
Proof.
  assert (Hk : GameSettings.playersOnCourt scenarioSettings = JS.of_nat 5)
    by (by apply Qc_is_canon).
  split; [reflexivity|]. split; [exact Hk|]. split; [lia|].
  exact (start_gate_gives_a_full_lineup scenarioRoster scenarioSettings [] 5
           eq_refl Hk (le_n 5)).
Defined.

End StartGate.

(** ** Swapping back *)

Section SwapBack.

Import GameManager.

(** X21.  A swap can be undone: after [playerOutId] has been replaced by
    [playerInId] in a lineup that lists nobody twice, and provided
    [playerOutId] is a present roster player, swapping [playerInId] out for
    [playerOutId] succeeds and the lineup lists the same ids at the same
    places as before the first swap; roster, settings and the other periods
    are as they were. *)
Theorem swap_back_restores_the_lineup (game game' : Game.t)
    (periodId playerOutId playerInId : string) (k : nat) (period : Period.t) :
  findPeriod periodId (Game.periods game) = Some (k, period) →
  NoDup (map Player.id (Period.lineup period)) →
  (∃ p, p ∈ Game.roster game ∧ Player.id p = playerOutId
        ∧ Player.isPresent p = true) →
  swapPlayers game periodId playerOutId playerInId = (game', true) →
  ∃ game'' lineup'',
    swapPlayers game' periodId playerInId playerOutId = (game'', true)
    ∧ map Player.id lineup'' = map Player.id (Period.lineup period)
    ∧ Game.periods game''
      = <[k := Period.set_lineup lineup'' period]> (Game.periods game)
    ∧ Game.roster game'' = Game.roster game
    ∧ Game.settings game'' = Game.settings game.
Proof.
  intros Hfind Hnd (pout & Hpout & Hpoutid & Hpoutpresent) Hswap.
  unfold swapPlayers in Hswap. rewrite Hfind in Hswap.
  destruct (Period.isCompleted period) eqn:Hopen; [done|].
  destruct (list_find _ (Period.lineup period)) as [[i playerOut]|] eqn:Hout;
    [|done].
  destruct (list_find _ (Game.roster game)) as [[j playerIn]|] eqn:Hin;
    [|done].
  case_decide as Halready; [done|]. injection Hswap as <-.
  apply list_find_Some in Hin as (_ & [Hinid _] & _).
  pose proof (find_by_id_Some _ _ _ _ Hout) as (Hi & Houtid & _).
  assert (Hfresh : ∀ y, y ∈ Period.lineup period → Player.id y ≠ playerInId).
  { intros y Hy Hyid. apply Halready, Exists_exists. by exists y. }
  set (lineup' := <[i := playerIn]> (Period.lineup period)).
  set (period' := Period.set_lineup lineup' period).
  assert (Hilt : (i < length (Period.lineup period))%nat)
    by (by eapply lookup_lt_Some).
  unfold swapPlayers. cbn [Game.periods Game.roster Game.settings].
  rewrite (findPeriod_insert _ _ _ _ period' Hfind) by done.
  change (Period.isCompleted period') with (Period.isCompleted period).
  rewrite Hopen. change (Period.lineup period') with lineup'.
  assert (Hfindin : list_find (λ p, Player.id p = playerInId) lineup'
                    = Some (i, playerIn)).
  { apply list_find_Some. split_and!; [by apply list_lookup_insert_eq|done|].
    intros j' y Hj' Hlt. unfold lineup' in Hj'.
    rewrite list_lookup_insert_ne in Hj' by lia.
    by eapply Hfresh, list_elem_of_lookup_2. }
  rewrite Hfindin.
  destruct (list_find_elem_of
              (λ p, Player.id p = playerOutId ∧ Player.isPresent p = true)
              (Game.roster game) pout Hpout (conj Hpoutid Hpoutpresent))
    as [[j' back] Hback].
  rewrite Hback. apply list_find_Some in Hback as (_ & [Hbackid _] & _).
  rewrite decide_False; last first.
  { intros (y & Hy & Hyid)%Exists_exists.
    apply list_elem_of_lookup in Hy as [j'' Hj''].
    unfold lineup' in Hj''.
    apply list_lookup_insert_Some in Hj'' as [(_ & <- & _)|[Hne Hj'']].
    - apply (Hfresh playerOut); [by eapply list_elem_of_lookup_2|].
      congruence.
    - apply Hne. change (map Player.id ?l) with (Player.id <$> l) in Hnd.
      eapply (NoDup_lookup _ _ _ _ Hnd); rewrite list_lookup_fmap.
      + by rewrite Hi.
      + rewrite Hj''. simpl. congruence. }
  eexists _, (<[i := back]> (Period.lineup period)).
  split; [reflexivity|]. cbn [Game.periods Game.roster Game.settings].
  split_and!; [| |done..].
  2:{ rewrite list_insert_insert_eq. unfold period', lineup', Period.set_lineup.
      simpl. by rewrite list_insert_insert_eq. }
  change (map Player.id ?l) with (Player.id <$> l).
  rewrite list_fmap_insert. apply list_insert_id.
  rewrite list_lookup_fmap, Hi. simpl. congruence.
Qed.

Lemma swap_back_example :
  findPeriod "period-1" (Game.periods swapGame) = Some (0%nat, swapPeriod)
  ∧ NoDup (map Player.id (Period.lineup swapPeriod))
  ∧ (∃ p, p ∈ Game.roster swapGame ∧ Player.id p = "P2"
          ∧ Player.isPresent p = true)
  ∧ ∃ game'' lineup'',
      swapPlayers (swapPlayers swapGame "period-1" "P2" "P6").1
        "period-1" "P6" "P2"
      = (game'', true)
      ∧ map Player.id lineup'' = map Player.id (Period.lineup swapPeriod)
      ∧ Game.periods game''
        = <[0%nat := Period.set_lineup lineup'' swapPeriod]>
            (Game.periods swapGame)
      ∧ Game.roster game'' = Game.roster swapGame
      ∧ Game.settings game'' = Game.settings swapGame.
Proof.
  assert (H1 : findPeriod "period-1" (Game.periods swapGame)
               = Some (0%nat, swapPeriod)) by reflexivity.
  assert (H2 : NoDup (map Player.id (Period.lineup swapPeriod)))
    by compute_done.
  assert (H3 : ∃ p, p ∈ Game.roster swapGame ∧ Player.id p = "P2"
                    ∧ Player.isPresent p = true).
  { exists P2. split; [right; left|done]. }
  split; [exact H1|]. split; [exact H2|]. split; [exact H3|].
  exact (swap_back_restores_the_lineup swapGame _ "period-1" "P2" "P6" 0
           swapPeriod H1 H2 H3 eq_refl).
Defined.

End SwapBack.

(** ** The weighted selector *)

Section WeightedNumbers.

Lemma floor_index_bound (x : Qc) (n : nat) :
  0 ≤ x → x < JS.of_nat n → (JS.floor_index x < n)%nat.
Proof.
  intros Hlo Hhi. unfold JS.floor_index.
  assert (0 ≤ Qfloor x)%Z as Hz.
  { change 0%Z with (Qfloor 0). by apply Qfloor_resp_le. }
  apply Nat2Z.inj_lt. rewrite Z2Nat.id by done.
  rewrite Zlt_Qlt.
  eapply Qle_lt_trans; [apply Qfloor_le|].
  unfold Qclt, JS.of_nat in Hhi. simpl in Hhi. exact Hhi.
Qed.

Lemma floor_index_zero (r : Qc) : JS.floor_index (r * JS.of_nat 0) = 0%nat.
Proof.
  rewrite of_nat_0.
  replace (r * 0) with (0 : Qc) by ring. done.
Qed.

Lemma random_index (r : Qc) (n : nat) :
  0 ≤ r < 1 → (0 < n)%nat → (JS.floor_index (r * JS.of_nat n) < n)%nat.
Proof.
  intros [Hlo Hhi] Hn. apply floor_index_bound.
  - apply nonneg_product; [done|apply of_nat_nonneg].
  - rewrite <- (Qcmult_1_l (JS.of_nat n)) at 2.
    apply Qcmult_lt_compat_r; [by apply of_nat_pos|done].
Qed.

End WeightedNumbers.

Section Arrays.

Lemma replace_perm {A} (rest : list A) (i : nat) (x y : A) :
  rest !! i = Some y → y :: <[i := x]> rest ≡ₚ x :: rest.
Proof.
  revert i. induction rest as [|z rest IH]; intros [|i] Hi; simplify_eq/=.
  - apply Permutation_swap.
  - rewrite (Permutation_swap z y), (IH i Hi). apply Permutation_swap.
Qed.

Lemma exchange_perm {A} (array : list (option A)) (i : nat) :
  (i < length array)%nat →
  JS.write (JS.write array 0 (JS.read array i)) i (JS.read array 0) ≡ₚ array.
Proof.
  destruct array as [|x rest]; simpl; [lia|]. intros Hi.
  unfold JS.write at 2. rewrite decide_True by (simpl; lia). simpl.
  unfold JS.write. rewrite decide_True by (simpl; lia).
  destruct i as [|i]; simpl; [done|].
  destruct (lookup_lt_is_Some_2 rest i) as [y Hy]; [lia|].
  unfold JS.read. simpl. rewrite Hy. simpl.
  by apply replace_perm.
Qed.

End Arrays.

Section WeightedSelector.

Import LineupGenerator.

Variable random : nat → Qc.
Variable powHalf : JS.number → JS.number.
Variable arraySort :
  (Player.t → Player.t → JS.number) → list Player.t → list Player.t.

Hypothesis random_range : ∀ n, 0 ≤ random n < 1.
Hypothesis arraySort_permutes : ∀ cmp xs, arraySort cmp xs ≡ₚ xs.

Lemma bind_returned {A B} (m : M A) (f : A → M B) (draws draws' : nat) (a : A) :
  m draws = JS.Returned (a, draws') → bind m f draws = f a draws'.
Proof. intros H. unfold bind. by rewrite H. Qed.

Lemma bind_thrown {A B} (m : M A) (f : A → M B) (draws : nat) (error : string) :
  m draws = JS.Thrown error → bind m f draws = JS.Thrown error.
Proof. intros H. unfold bind. by rewrite H. Qed.

Lemma shuffleTurns_nonempty (turns : nat) (array : list (option Player.t))
    (draws : nat) :
  array ≠ [] →
  ∃ array',
    shuffleTurns random turns array draws
    = JS.Returned (array', (draws + turns)%nat)
    ∧ array' ≡ₚ array.
Proof.
  revert array draws.
  induction turns as [|turns IH]; intros array draws Hne.
  { exists array. by rewrite Nat.add_0_r. }
  cbn [shuffleTurns].
  rewrite (bind_returned _ _ draws (S draws) (random draws)) by done.
  set (i := JS.floor_index (random draws * JS.of_nat (length array))).
  assert (i < length array)%nat as Hi.
  { apply random_index; [done|]. destruct array; simpl; [done|lia]. }
  pose proof (exchange_perm array i Hi) as Hperm.
  destruct (IH (JS.write (JS.write array 0 (JS.read array i)) i (JS.read array 0))
               (S draws)) as (array' & Hrun & Hperm').
  { intros Hnil. rewrite Hnil in Hperm.
    by apply Permutation_nil in Hperm. }
  exists array'. rewrite Hrun. split; [f_equal; f_equal; lia|].
  by rewrite Hperm'.
Qed.

Lemma shuffleTurns_empty (turns draws : nat) :
  (0 < turns)%nat →
  shuffleTurns random turns [] draws = JS.Returned ([None], (draws + turns)%nat).
Proof.
  destruct turns as [|turns]; [lia|]. intros _.
  cbn [shuffleTurns].
  rewrite (bind_returned _ _ draws (S draws) (random draws)) by done.
  cbn [length]. rewrite floor_index_zero.
  change (JS.write (JS.write [] 0 (JS.read [] 0)) 0 (JS.read [] 0))
    with ([None] : list (option Player.t)).
  destruct (shuffleTurns_nonempty turns [None] (S draws)) as (array' & Hrun & Hperm);
    [done|].
  apply Permutation_singleton_r in Hperm. subst array'.
  rewrite Hrun. f_equal. f_equal. lia.
Qed.

Lemma groupByPosition_thrown (error : string) (entries : list (option Player.t)) :
  foldl (λ groups entry,
           match groups, entry with
           | JS.Thrown error, _ => JS.Thrown error
           | JS.Returned _, None =>
               JS.Thrown "TypeError: Cannot read properties of undefined (reading 'position')"
           | JS.Returned groups, Some player =>
               JS.Returned
                 (<[Player.position player :=
                      default [] (groups !! Player.position player) ++ [player]]>
                    groups)
           end)
        (JS.Thrown error) entries
  = (JS.Thrown error : JS.completion (gmap Position (list Player.t))).
Proof. induction entries as [|entry entries IH]; simpl; [done|exact IH]. Qed.

Lemma groupByPosition_defined (entries : list (option Player.t)) :
  Forall is_Some entries → ∃ groups, groupByPosition entries = JS.Returned groups.
Proof.
  unfold groupByPosition. generalize (∅ : gmap Position (list Player.t)).
  induction entries as [|entry entries IH]; intros groups Hall; simpl.
  { by exists groups. }
  apply Forall_cons in Hall as [[player ->] Hall]. by apply IH.
Qed.

Lemma groupByPosition_undefined (entries : list (option Player.t)) :
  None ∈ entries → ∃ error, groupByPosition entries = JS.Thrown error.
Proof.
  unfold groupByPosition. generalize (∅ : gmap Position (list Player.t)).
  induction entries as [|entry entries IH]; intros groups Hin.
  { by apply not_elem_of_nil in Hin. }
  simpl. destruct entry as [player|].
  - apply IH. apply elem_of_cons in Hin as [?|?]; [done|done].
  - rewrite groupByPosition_thrown. by eexists.
Qed.

Lemma best_is_a_candidate {A B S : Type} (wrap : B → A) (score : B → S)
    (better : S → S → bool) (l : list B) (best : A * S) :
  fst (foldl (λ best x,
                if better (score x) (snd best) then (wrap x, score x) else best)
             best l) = fst best
  ∨ ∃ x, x ∈ l
         ∧ fst (foldl (λ best x,
                         if better (score x) (snd best) then (wrap x, score x)
                         else best)
                      best l) = wrap x.
Proof.
  revert best. induction l as [|x l IH]; intros best; simpl; [by left|].
  destruct (IH (if better (score x) (snd best) then (wrap x, score x) else best))
    as [Heq|(y & Hy & Heq)].
  - rewrite Heq. destruct (better _ _); simpl; [|by left].
    right. exists x. split; [by left|done].
  - right. exists y. split; [by right|done].
Qed.

Lemma selectNextPlayer_in (this : t) (available currentLineup : list Player.t) :
  available ≠ [] →
  ∃ player,
    selectNextPlayer this available currentLineup = Some player
    ∧ player ∈ available.
Proof.
  destruct available as [|first rest]; [done|]. intros _.
  unfold selectNextPlayer. eexists. split; [reflexivity|].
  destruct (best_is_a_candidate id
              (playerScore this
                 (foldl (λ sum p, sum + Player.skillLevel p) 0 currentLineup)
                 (map Player.position currentLineup))
              JS.gt (first :: rest) (first, JS.Fin (- Q2Qc 1)))
    as [Heq|(x & Hx & Heq)]; unfold id in Heq; rewrite Heq.
  - by left.
  - exact Hx.
Qed.

Lemma greedyLoop_spec (this : t) (fuel : nat) (lineup available : list Player.t) :
  ∃ chosen rest,
    greedyLoop fuel this lineup available = lineup ++ chosen
    ∧ chosen ++ rest ≡ₚ available
    ∧ ((length available ≤ fuel)%nat →
       rest = []
       ∨ ¬ JS.of_nat (length (lineup ++ chosen))
           < GameSettings.playersOnCourt (settings this))
    ∧ (chosen = []
       ∨ JS.of_nat (pred (length (lineup ++ chosen)))
         < GameSettings.playersOnCourt (settings this)).
Proof.
  revert lineup available.
  induction fuel as [|fuel IH]; intros lineup available.
  { exists [], available. rewrite app_nil_r. split_and!; [done..| |by left].
    destruct available; simpl; [by left|lia]. }
  cbn [greedyLoop]. case_decide as Hroom; last first.
  { exists [], available. rewrite app_nil_r. split_and!; [done..|by right|by left]. }
  destruct available as [|first others].
  { exists [], []. rewrite app_nil_r. split_and!; [done..|by left|by left]. }
  destruct (selectNextPlayer_in this (first :: others) lineup)
    as (selected & Hsel & Hin); [done|].
  rewrite Hsel.
  pose proof (splice_indexOf_perm selected _ Hin) as Hperm.
  destruct (IH (lineup ++ [selected])
               (JS.splice_indexOf selected (first :: others)))
    as (chosen & rest & Hrun & Hsplit & Hstop & Hlast).
  exists (selected :: chosen), rest.
  rewrite Hrun, <- app_assoc. split_and!; [done| | |].
  - rewrite Hperm. simpl. by rewrite Hsplit.
  - intros Hfuel. rewrite <- app_assoc in Hstop. apply Hstop.
    apply Permutation_length in Hperm. simpl in *. lia.
  - right. rewrite <- app_assoc in Hlast. destruct Hlast as [-> |Hlast]; [|done].
    simpl. rewrite length_app. simpl.
    replace (pred (length lineup + 1)) with (length lineup) by lia. done.
Qed.

Lemma omap_defined (l : list Player.t) : omap id (Some <$> l) = l.
Proof. induction l as [|x l IH]; [done|]. simpl. f_equal. exact IH. Qed.

Lemma createGreedyLineup_returns (this : t) (players : list Player.t)
    (variation draws : nat) :
  players ≠ [] ∨ variation = 0%nat →
  ∃ lineup rest,
    createGreedyLineup random this players variation draws
    = JS.Returned (lineup, (draws + Nat.min 3 variation)%nat)
    ∧ lineup ++ rest ≡ₚ players
    ∧ (rest = []
       ∨ ¬ JS.of_nat (length lineup)
           < GameSettings.playersOnCourt (settings this))
    ∧ (lineup = []
       ∨ JS.of_nat (pred (length lineup))
         < GameSettings.playersOnCourt (settings this)).
Proof.
  intros Hcase. unfold createGreedyLineup.
  assert (∃ available,
            (if decide (0 < variation)%nat
             then shuffleArray random (Some <$> players) variation
             else ret (Some <$> players)) draws
            = JS.Returned (available, (draws + Nat.min 3 variation)%nat)
            ∧ available ≡ₚ Some <$> players) as (available & Hrun & Hperm).
  { case_decide as Hvar.
    - destruct Hcase as [Hne| ->]; [|lia].
      apply shuffleTurns_nonempty. by destruct players.
    - replace variation with 0%nat by lia. exists (Some <$> players).
      unfold ret. by rewrite Nat.min_0_r, Nat.add_0_r. }
  rewrite (bind_returned _ _ _ _ _ Hrun).
  destruct (groupByPosition_defined available) as [groups Hgroups].
  { rewrite Hperm. apply Forall_fmap, Forall_true. by eexists. }
  unfold lift at 1. rewrite Hgroups.
  rewrite (bind_returned _ _ _ (draws + Nat.min 3 variation)%nat groups) by done.
  assert (omap id available ≡ₚ players) as Hplayers.
  { rewrite Hperm. by rewrite omap_defined. }
  destruct (greedyLoop_spec this (length available) [] (omap id available))
    as (chosen & rest & Hloop & Hsplit & Hstop & Hlast).
  exists chosen, rest. unfold ret. rewrite Hloop. simpl in *.
  split_and!; [done| |apply Hstop|done].
  - by rewrite Hsplit.
  - rewrite Hplayers, Hperm, length_fmap. done.
Qed.

Lemma createGreedyLineup_nobody (this : t) (variation draws : nat) :
  (0 < variation)%nat →
  ∃ error, createGreedyLineup random this [] variation draws = JS.Thrown error.
Proof.
  intros Hvar. unfold createGreedyLineup.
  rewrite decide_True by done. unfold shuffleArray.
  rewrite (bind_returned _ _ _ _ _
             (shuffleTurns_empty (Nat.min 3 variation) draws ltac:(lia))).
  destruct (groupByPosition_undefined [None]) as [error Herr]; [by left|].
  exists error. apply bind_thrown. unfold lift. by rewrite Herr.
Qed.

(** The lineup is a full one exactly when a whole lineup size can be met. *)
Lemma greedy_length (playersOnCourt : Qc) (players lineup rest : list Player.t) :
  lineup ++ rest ≡ₚ players →
  (rest = [] ∨ ¬ JS.of_nat (length lineup) < playersOnCourt) →
  (lineup = [] ∨ JS.of_nat (pred (length lineup)) < playersOnCourt) →
  JS.of_nat (length lineup) = playersOnCourt
  ↔ ∃ k, playersOnCourt = JS.of_nat k ∧ (k ≤ length players)%nat.
Proof.
  intros Hsplit Hstop Hlast.
  apply Permutation_length in Hsplit. rewrite length_app in Hsplit.
  split.
  { intros <-. exists (length lineup). split; [done|lia]. }
  intros (k & -> & Hk). f_equal.
  assert (k ≤ length lineup)%nat.
  { destruct Hstop as [-> |Hstop]; [simpl in *; lia|].
    apply Nat.le_ngt. intros Hlt. by apply Hstop, of_nat_lt. }
  assert (length lineup ≤ k)%nat.
  { destruct Hlast as [-> |Hlast]; [simpl; lia|].
    destruct (decide (length lineup ≤ k)%nat) as [|Hgt]; [done|].
    exfalso. apply (Qclt_not_le _ _ Hlast), of_nat_le. lia. }
  lia.
Qed.

Lemma draws_of_turns (attempt count : nat) :
  sum_list (Nat.min 3 <$> seq attempt (S count))
  = (Nat.min 3 attempt + sum_list (Nat.min 3 <$> seq (S attempt) count))%nat.
Proof. reflexivity. Qed.

Lemma candidateTurns_returns (count : nat) (this : t)
    (playersArray : list Player.t) (attempt : nat)
    (candidates : list (list Player.t)) (draws : nat) :
  playersArray ≠ [] →
  ∃ found,
    candidateTurns random count this playersArray attempt candidates draws
    = JS.Returned (candidates ++ found,
                   (draws + sum_list (Nat.min 3 <$> seq attempt count))%nat)
    ∧ Forall (λ lineup,
                lineup ⊆+ playersArray
                ∧ JS.of_nat (length lineup)
                  = GameSettings.playersOnCourt (settings this))
             found
    ∧ ((∃ k, GameSettings.playersOnCourt (settings this) = JS.of_nat k
             ∧ (k ≤ length playersArray)%nat) →
       length found = count).
Proof.
  intros Hne. revert attempt candidates draws.
  induction count as [|count IH]; intros attempt candidates draws.
  { exists []. simpl. unfold ret. by rewrite app_nil_r, Nat.add_0_r. }
  cbn [candidateTurns].
  destruct (createGreedyLineup_returns this playersArray attempt draws)
    as (lineup & rest & Hrun & Hsplit & Hstop & Hlast); [by left|].
  rewrite (bind_returned _ _ _ _ _ Hrun).
  pose proof (greedy_length _ _ _ _ Hsplit Hstop Hlast) as Hfull.
  assert (lineup ⊆+ playersArray) as Hsub.
  { rewrite <- Hsplit. by apply submseteq_inserts_r. }
  case_decide as Hsize.
  - destruct (IH (S attempt) (candidates ++ [lineup])
                 (draws + Nat.min 3 attempt)%nat)
      as (found & Hloop & Hall & Hcount).
    exists (lineup :: found). rewrite Hloop, <- app_assoc, draws_of_turns.
    split_and!; [f_equal; f_equal; lia|by constructor|].
    intros Hk. simpl. by rewrite (Hcount Hk).
  - destruct (IH (S attempt) candidates (draws + Nat.min 3 attempt)%nat)
      as (found & Hloop & Hall & Hcount).
    exists found. rewrite Hloop, draws_of_turns.
    split_and!; [f_equal; f_equal; lia|done|].
    intros Hk. by apply Hfull in Hk.
Qed.

Lemma selectBestLineup_returns (this : t) (candidates : list (list Player.t))
    (targets : gmap string JS.number) :
  candidates ≠ [] →
  ∃ suggestion,
    selectBestLineup powHalf this candidates targets = JS.Returned suggestion
    ∧ LineupSuggestion.players suggestion ∈ candidates.
Proof.
  destruct candidates as [|first others]; [done|]. intros _.
  unfold selectBestLineup.
  destruct (best_is_a_candidate Some
              (λ lineup, evaluateLineup powHalf this lineup targets)
              JS.gt (first :: others)
              (head (first :: others), JS.Fin (- Q2Qc 1)))
    as [Heq|(x & Hx & Heq)]; rewrite Heq.
  - eexists. split; [reflexivity|]. by left.
  - eexists. split; [reflexivity|]. exact Hx.
Qed.

Lemma selectBestLineup_nothing (this : t) (targets : gmap string JS.number) :
  ∃ error, selectBestLineup powHalf this [] targets = JS.Thrown error.
Proof. by eexists. Qed.

Lemma generateOptimalLineup_nobody (this : t) (draws : nat) :
  players this = [] →
  ∃ error,
    generateOptimalLineup random powHalf arraySort this draws = JS.Thrown error.
Proof.
  intros Hnobody. unfold generateOptimalLineup, generateCandidateLineups.
  pose proof (arraySort_permutes candidateOrder (players this)) as Hperm.
  rewrite Hnobody in Hperm. apply Permutation_nil_r in Hperm.
  rewrite Hnobody, Hperm.
  change 15%nat with (S (S 13)). cbn [candidateTurns].
  destruct (createGreedyLineup_returns this [] 0 draws)
    as (lineup & rest & Hrun & _); [by right|].
  destruct (createGreedyLineup_nobody this 1 (draws + Nat.min 3 0)) as [error Herr];
    [lia|].
  exists error. apply bind_thrown.
  rewrite (bind_returned _ _ _ _ _ Hrun).
  by apply bind_thrown.
Qed.

(** With somebody present the selector returns exactly when a whole lineup
    size can be met, after 39 random numbers. *)
Lemma generateOptimalLineup_somebody (this : t) (draws : nat) :
  players this ≠ [] →
  (∃ suggestion k,
     generateOptimalLineup random powHalf arraySort this draws
     = JS.Returned (suggestion, (draws + 39)%nat)
     ∧ GameSettings.playersOnCourt (settings this) = JS.of_nat k
     ∧ (k ≤ length (players this))%nat
     ∧ length (LineupSuggestion.players suggestion) = k
     ∧ LineupSuggestion.players suggestion ⊆+ players this)
  ∨ ((¬ ∃ k, GameSettings.playersOnCourt (settings this) = JS.of_nat k
             ∧ (k ≤ length (players this))%nat)
     ∧ ∃ error,
         generateOptimalLineup random powHalf arraySort this draws
         = JS.Thrown error).
Proof.
  intros Hsomebody. unfold generateOptimalLineup, generateCandidateLineups.
  pose proof (arraySort_permutes candidateOrder (players this)) as Hperm.
  destruct (candidateTurns_returns 15 this
              (arraySort candidateOrder (players this)) 0 [] draws)
    as (found & Hrun & Hall & Hcount).
  { intros Hnil. rewrite Hnil in Hperm. by apply Permutation_nil in Hperm. }
  rewrite (bind_returned _ _ _ _ _ Hrun). simpl app.
  change (sum_list (Nat.min 3 <$> seq 0 15)) with 39%nat.
  rewrite (Permutation_length Hperm) in Hcount.
  destruct found as [|first others].
  - right. split.
    + intros Hk. by apply Hcount in Hk.
    + destruct (selectBestLineup_nothing this (calculatePlayingTimeTargets this))
        as [error Herr].
      exists error. unfold lift. by rewrite Herr.
  - left.
    destruct (selectBestLineup_returns this (first :: others)
                (calculatePlayingTimeTargets this)) as (suggestion & Hbest & Hin);
      [done|].
    rewrite Forall_forall in Hall. destruct (Hall _ Hin) as [Hsub Hsize].
    rewrite Hperm in Hsub.
    exists suggestion, (length (LineupSuggestion.players suggestion)).
    unfold lift. rewrite Hbest. split_and!; [done..| |done|done].
    by apply submseteq_length.
Qed.

End WeightedSelector.
Section WeightedEntries.

Import LineupGenerator.

Lemma exampleRandom_range : unitInterval exampleRandom.
Proof.
  intros n. unfold exampleRandom. destruct (Nat.even n); split; compute_done.
Qed.

Lemma exampleSort_permutes : permutes exampleSort.
Proof. intros cmp xs. apply sort_perm. Qed.

Example weighted_scenario_value :
  ∃ suggestion,
    weightedScenario 0%nat = JS.Returned (suggestion, 39%nat)
    ∧ map Player.id (LineupSuggestion.players suggestion)
      = ["P2"; "P1"; "P3"; "P4"; "P5"].
Proof. eexists. split; [vm_compute; reflexivity|]. vm_compute. reflexivity. Qed.

Example weighted_short_roster_value :
  weightedOnShortRoster 0%nat
  = JS.Thrown "TypeError: Cannot read properties of undefined (reading 'reduce')".
Proof. vm_compute. reflexivity. Qed.

Example weighted_nobody_value :
  generateOptimalLineup exampleRandom examplePowHalf exampleSort
    (new (Game.roster nobodyPresentGame) (Game.settings nobodyPresentGame) [])
    0%nat
  = JS.Thrown "TypeError: Cannot read properties of undefined (reading 'position')".
Proof. vm_compute. reflexivity. Qed.

(** X22.  The weighted selector has no size check either, but it fails all
    the same: [generateOptimalLineup] throws (a [TypeError]) exactly when
    nobody is present or [playersOnCourt] is not a whole number of players
    that the present players can fill; whatever the random numbers, the
    engine's sort and [Math.pow] are. *)
Theorem weighted_selector_throws_exactly_when_short
    (random : nat → Qc) (powHalf : JS.number → JS.number)
    (arraySort : (Player.t → Player.t → JS.number)
                 → list Player.t → list Player.t)
    (roster : list Player.t) (settings : GameSettings.t)
    (periods : list Period.t) (draws : nat) :
  unitInterval random →
  permutes arraySort →
  (∃ error,
     generateOptimalLineup random powHalf arraySort
       (new roster settings periods) draws
     = JS.Thrown error)
  ↔ presentCount roster = 0%nat
    ∨ ¬ lineupSizeMet (GameSettings.playersOnCourt settings)
          (presentCount roster).
Proof.
  intros Hrandom Hsort. set (this := new roster settings periods).
  change (presentCount roster) with (length (players this)).
  change settings with (LineupGenerator.settings this).
  unfold lineupSizeMet.
  destruct (decide (players this = [])) as [Hnobody|Hsomebody].
  { split.
    - intros _. left. by rewrite Hnobody.
    - intros _. by apply generateOptimalLineup_nobody. }
  destruct (generateOptimalLineup_somebody random powHalf arraySort
              Hrandom Hsort this draws Hsomebody)
    as [(suggestion & k & Hrun & Hk & Hle & _)|[Hnot Hthrown]].
  - split.
    + intros [error Herr]. by rewrite Hrun in Herr.
    + intros [Hzero|Hnot].
      * by destruct (players this).
      * exfalso. apply Hnot. by exists k.
  - split; [by right|done].
Qed.

Lemma weighted_selector_on_short_roster :
  unitInterval exampleRandom
  ∧ permutes exampleSort
  ∧ ((∃ error, weightedOnShortRoster 0%nat = JS.Thrown error)
     ↔ presentCount shortRoster = 0%nat
       ∨ ¬ lineupSizeMet (GameSettings.playersOnCourt scenarioSettings)
             (presentCount shortRoster)).
Proof.
  split; [exact exampleRandom_range|]. split; [exact exampleSort_permutes|].
  exact (weighted_selector_throws_exactly_when_short exampleRandom
           examplePowHalf exampleSort shortRoster scenarioSettings [] 0
           exampleRandom_range exampleSort_permutes).
Defined.

(** X23.  When somebody is present and [playersOnCourt] is a whole number
    [k] of players that the present players can fill, the weighted selector
    returns, after 39 random numbers, a lineup of exactly [k] distinct
    entries of the roster, all of them present. *)
Theorem weighted_selector_returns_a_full_lineup
    (random : nat → Qc) (powHalf : JS.number → JS.number)
    (arraySort : (Player.t → Player.t → JS.number)
                 → list Player.t → list Player.t)
    (roster : list Player.t) (settings : GameSettings.t)
    (periods : list Period.t) (draws k : nat) :
  unitInterval random →
  permutes arraySort →
  GameSettings.playersOnCourt settings = JS.of_nat k →
  (0 < presentCount roster)%nat →
  (k ≤ presentCount roster)%nat →
  ∃ suggestion,
    generateOptimalLineup random powHalf arraySort
      (new roster settings periods) draws
    = JS.Returned (suggestion, (draws + 39)%nat)
    ∧ length (LineupSuggestion.players suggestion) = k
    ∧ LineupSuggestion.players suggestion
      ⊆+ filter (λ p, Player.isPresent p = true) roster
    ∧ (NoDup (map Player.id roster) →
       NoDup (map Player.id (LineupSuggestion.players suggestion))).
Proof.
  intros Hrandom Hsort Hk Hsome Hle. set (this := new roster settings periods).
  assert (players this ≠ []) as Hsomebody.
  { intros Hnil. unfold presentCount in Hsome.
    change (filter _ roster) with (players this) in Hsome.
    rewrite Hnil in Hsome. simpl in Hsome. lia. }
  destruct (generateOptimalLineup_somebody random powHalf arraySort
              Hrandom Hsort this draws Hsomebody)
    as [(suggestion & k' & Hrun & Hk' & _ & Hsize & Hsub)|[Hnot _]].
  - exists suggestion. split; [done|].
    assert (k' = k) as ->.
    { apply of_nat_inj. rewrite <- Hk', <- Hk. done. }
    split_and!; [done..|].
    intros Hnd. eapply submseteq_NoDup; [|exact Hnd].
    change (map Player.id ?l) with (Player.id <$> l).
    apply fmap_submseteq. etrans; [exact Hsub|].
    apply sublist_submseteq, sublist_filter.
  - exfalso. apply Hnot. by exists k.
Qed.

Lemma weighted_selector_scenario :
  unitInterval exampleRandom
  ∧ permutes exampleSort
  ∧ GameSettings.playersOnCourt scenarioSettings = JS.of_nat 5
  ∧ (0 < presentCount scenarioRoster)%nat
  ∧ (5 ≤ presentCount scenarioRoster)%nat
  ∧ ∃ suggestion,
      weightedScenario 0%nat = JS.Returned (suggestion, 39%nat)
      ∧ length (LineupSuggestion.players suggestion) = 5%nat
      ∧ LineupSuggestion.players suggestion
        ⊆+ filter (λ p, Player.isPresent p = true) scenarioRoster
      ∧ (NoDup (map Player.id scenarioRoster) →
         NoDup (map Player.id (LineupSuggestion.players suggestion))).
Proof.
  assert (H5 : GameSettings.playersOnCourt scenarioSettings = JS.of_nat 5)
    by reflexivity.
  assert (H0 : (0 < presentCount scenarioRoster)%nat) by (vm_compute; lia).
  assert (Hle : (5 ≤ presentCount scenarioRoster)%nat) by (vm_compute; lia).
  split; [exact exampleRandom_range|]. split; [exact exampleSort_permutes|].
  split; [exact H5|]. split; [exact H0|]. split; [exact Hle|].
  exact (weighted_selector_returns_a_full_lineup exampleRandom examplePowHalf
           exampleSort scenarioRoster scenarioSettings [] 0 5
           exampleRandom_range exampleSort_permutes H5 H0 Hle).
Defined.

Lemma square_nonneg (x : Qc) : 0 ≤ x * x.
Proof.
  destruct (Qclt_le_dec x 0) as [Hneg|Hpos].
  - replace (x * x) with (- x * - x) by ring.
    assert (0 ≤ - x) as H.
    { apply Qclt_le_weak, Qcopp_le_compat in Hneg.
      by replace (- 0) with 0 in Hneg by (by apply Qc_is_canon). }
    by apply Qcmult_nonneg_nonneg.
  - by apply Qcmult_nonneg_nonneg.
Qed.

(** The rounded operations of the skill balance: a sum of skill levels, a
    quotient by a count and a difference from a skill level are numbers; a
    square is not negative, and neither is a sum or a quotient by a count of
    what is not negative. *)
Lemma rounded_is_a_number (x : JS.number) :
  x ≠ JS.NaN → JS.rounded x ≠ JS.NaN.
Proof. destruct x; simpl; [intros _; apply double_is_a_number|done..]. Qed.

Lemma rounded_notNegative (x : JS.number) :
  notNegative x → notNegative (JS.rounded x).
Proof. destruct x; simpl; [apply double_notNegative|done..]. Qed.

Lemma rounded_atMostOne (x : JS.number) :
  atMostOne x → atMostOne (JS.rounded x).
Proof. destruct x; simpl; [apply double_atMostOne|done..]. Qed.

Lemma sum_of_skills_is_a_number (skills : list Qc) (sum : JS.number) :
  sum ≠ JS.NaN →
  foldl (λ sum skill, JS.fadd sum (JS.Fin skill)) sum skills ≠ JS.NaN.
Proof.
  revert sum. induction skills as [|skill skills IH]; intros sum Hsum;
    [done|].
  simpl. apply IH, rounded_is_a_number. by destruct sum.
Qed.

Lemma per_count_is_a_number (x : JS.number) (n : nat) :
  (0 < n)%nat → x ≠ JS.NaN → JS.fdiv x (JS.Fin (JS.of_nat n)) ≠ JS.NaN.
Proof.
  intros Hn Hx. pose proof (of_nat_pos n Hn) as Hpos.
  apply rounded_is_a_number. destruct x as [q| | |]; simpl; [| | |done].
  - rewrite decide_False; [done|]. intros H0. rewrite H0 in Hpos.
    by destruct (irreflexivity Qclt _ Hpos).
  - by case_decide.
  - by case_decide.
Qed.

Lemma per_count_notNegative (x : JS.number) (n : Qc) :
  0 < n → notNegative x → notNegative (JS.fdiv x (JS.Fin n)).
Proof.
  intros Hpos Hx. apply rounded_notNegative.
  destruct x as [q| | |]; simpl in *; [| |done..].
  - rewrite decide_False.
    + simpl. apply Qcmult_nonneg_nonneg; [done|].
      by apply Qclt_le_weak, Qcinv_pos.
    + intros H0. rewrite H0 in Hpos.
      by destruct (irreflexivity Qclt _ Hpos).
  - rewrite decide_False; [done|]. intros Hneg.
    by destruct (irreflexivity Qclt _ (Qclt_trans _ _ _ Hneg Hpos)).
Qed.

Lemma square_notNegative (x : JS.number) :
  x ≠ JS.NaN → notNegative (JS.fmul x x).
Proof.
  intros Hx. apply rounded_notNegative.
  destruct x; simpl; [apply square_nonneg|done..].
Qed.

Lemma deviation_is_a_number (skill : Qc) (avg : JS.number) :
  avg ≠ JS.NaN → JS.fsub (JS.Fin skill) avg ≠ JS.NaN.
Proof. intros Havg. apply rounded_is_a_number. by destruct avg. Qed.

Lemma sum_of_squares_notNegative (avg : JS.number) (skills : list Qc)
    (sum : JS.number) :
  avg ≠ JS.NaN →
  notNegative sum →
  notNegative
    (foldl (λ sum skill,
              JS.fadd sum (JS.fmul (JS.fsub (JS.Fin skill) avg)
                                   (JS.fsub (JS.Fin skill) avg)))
           sum skills).
Proof.
  intros Havg. revert sum.
  induction skills as [|skill skills IH]; intros sum Hsum; [done|].
  simpl. apply IH, rounded_notNegative.
  pose proof (square_notNegative _ (deviation_is_a_number skill avg Havg))
    as Hsquare.
  destruct sum as [a| | |], (JS.fmul _ _) as [b| | |]; simpl in *; try done.
  rewrite <- (Qcplus_0_r 0). by apply Qcplus_le_compat.
Qed.

(** X24.  The skill balance of a lineup that is not empty is a number
    between 0 and 1, whatever the skill levels are; for the empty lineup it
    is [NaN]. *)
Theorem skill_balance_is_between_0_and_1 (lineup : list Player.t) :
  calculateSkillBalance [] = JS.NaN
  ∧ (lineup ≠ [] →
     ∃ balance,
       calculateSkillBalance lineup = JS.Fin balance
       ∧ 0 ≤ balance ≤ 1).
Proof.
  split; [reflexivity|]. intros Hne. unfold calculateSkillBalance.
  set (skills := map Player.skillLevel lineup).
  assert (0 < length skills)%nat as Hn.
  { subst skills. rewrite length_map. destruct lineup; simpl; [done|lia]. }
  set (avg := JS.fdiv (foldl (λ sum skill, JS.fadd sum (JS.Fin skill))
                         (JS.Fin 0) skills)
                (JS.Fin (JS.of_nat (length skills)))).
  assert (Havg : avg ≠ JS.NaN).
  { apply per_count_is_a_number; [done|].
    by apply sum_of_skills_is_a_number. }
  set (variance := JS.fdiv _ (JS.Fin (JS.of_nat (length skills)))).
  assert (Hvariance : notNegative variance).
  { apply per_count_notNegative; [by apply of_nat_pos|].
    apply sum_of_squares_notNegative; [done|]. simpl. done. }
  assert (Hquarter : notNegative (JS.fdiv variance (JS.Fin (Q2Qc 4))))
    by (by apply per_count_notNegative).
  assert (Hrest : atMostOne (JS.fsub (JS.Fin (Q2Qc 1))
                               (JS.fdiv variance (JS.Fin (Q2Qc 4))))).
  { apply rounded_atMostOne.
    destruct (JS.fdiv variance _) as [quarter| | |]; simpl in *; try done.
    rewrite <- (Qcplus_0_r 1) at 2. apply Qcplus_le_compat; [done|].
    apply Qcopp_le_compat in Hquarter.
    by replace (- 0) with 0 in Hquarter by (by apply Qc_is_canon). }
  destruct (JS.fsub _ _) as [rest| | |]; simpl in Hrest; try done.
  - exists (JS.Qc_max 0 rest). split; [done|]. by apply Qc_max_range.
  - exists 0. split; [done|]. split; [done|]. by apply Qcle_alt.
Qed.

Lemma skill_balance_scenario :
  scenarioRoster ≠ []
  ∧ calculateSkillBalance [] = JS.NaN
  ∧ ∃ balance,
      calculateSkillBalance scenarioRoster = JS.Fin balance
      ∧ 0 ≤ balance ≤ 1.
Proof.
  assert (H : scenarioRoster ≠ []) by done.
  split; [exact H|].
  split; [exact (proj1 (skill_balance_is_between_0_and_1 scenarioRoster))|].
  exact (proj2 (skill_balance_is_between_0_and_1 scenarioRoster) H).
Defined.

(** The balance is 1 for equal skill levels such as the whole numbers of the
    roster screen, and it is 1 as well for two skill levels that differ by
    less than rounding keeps: 3 and 3 + 2^-30.  For the skill levels 4, 5, 3,
    4, 3, 4 of the scenario it is 0.8819444444444444. *)
Example skill_balance_values :
  calculateSkillBalance [P1; P4; P6] = JS.Fin 1
  ∧ calculateSkillBalance nearSkills = JS.Fin 1
  ∧ map Player.skillLevel nearSkills
    = [Qc_of_Z 3; Q2Qc (3221225473 # 1073741824)]
  ∧ calculateSkillBalance scenarioRoster
    = JS.Fin (Q2Qc (3971924671361479 # 4503599627370496)).
Proof. split_and!; compute_done. Qed.

Lemma target_of_absent (f : Player.t → JS.number) (l : list Player.t)
    (targets : gmap string JS.number) (id : string) :
  id ∉ map Player.id l →
  foldl (λ targets player, <[Player.id player := f player]> targets) targets l
  !! id = targets !! id.
Proof.
  revert targets. induction l as [|x l IH]; intros targets Hid; simpl; [done|].
  simpl in Hid. rewrite not_elem_of_cons in Hid. destruct Hid as [Hx Hl].
  rewrite IH by done. by rewrite lookup_insert_ne.
Qed.

Lemma target_of_player (f : Player.t → JS.number) (l : list Player.t)
    (targets : gmap string JS.number) (p : Player.t) :
  NoDup (map Player.id l) →
  p ∈ l →
  foldl (λ targets player, <[Player.id player := f player]> targets) targets l
  !! Player.id p = Some (f p).
Proof.
  revert targets. induction l as [|x l IH]; intros targets Hnd Hp.
  { by apply not_elem_of_nil in Hp. }
  simpl in Hnd. apply NoDup_cons in Hnd as [Hx Hnd]. simpl.
  apply elem_of_cons in Hp as [->|Hp]; [|by apply IH].
  rewrite target_of_absent by done. by rewrite lookup_insert_eq.
Qed.

(** X25.  The two modules agree on what a player is owed: on a roster with
    distinct ids and at least one present player, the deficit the weighted
    selector keeps for a present player is the difference that the
    playing-time report shows for that player, negated. *)
Theorem weighted_deficit_is_the_negated_report_difference (game : Game.t) :
  NoDup (map Player.id (Game.roster game)) →
  GameManager.presentRoster game ≠ [] →
  ∃ report,
    GameManager.getPlayingTimeReport game = JS.Returned report
    ∧ Forall (deficitOf
                (calculatePlayingTimeTargets
                   (new (Game.roster game) (Game.settings game)
                      (Game.periods game))))
             report.
Proof.
  intros Hnd Hne.
  destruct (report_of_present game Hne) as (report & Hrun & Hperm & Hentries & _).
  exists report. split; [done|].
  rewrite Forall_forall in Hentries |- *. intros e He.
  destruct (Hentries e He) as (_ & _ & Hdiff).
  assert (GameManager.player e ∈ GameManager.presentRoster game) as Hin.
  { rewrite <- Hperm. change (map ?f ?l) with (f <$> l).
    by apply list_elem_of_fmap_2. }
  unfold deficitOf, calculatePlayingTimeTargets. cbn [players settings new].
  rewrite (target_of_player _ _ _ _) ; [| |exact Hin].
  2:{ eapply submseteq_NoDup; [|exact Hnd].
      change (map Player.id ?l) with (Player.id <$> l).
      apply fmap_submseteq, sublist_submseteq, sublist_filter. }
  rewrite div_by_count
    by (unfold GameManager.presentRoster in Hne;
        destruct (filter _ (Game.roster game)); simpl; [done|lia]).
  eexists. split; [reflexivity|].
  rewrite Hdiff. f_equal. unfold timeTarget, presentCount. ring.
Qed.

Lemma weighted_deficit_in_the_report_example :
  NoDup (map Player.id (Game.roster exampleReportGame))
  ∧ GameManager.presentRoster exampleReportGame ≠ []
  ∧ ∃ report,
      GameManager.getPlayingTimeReport exampleReportGame = JS.Returned report
      ∧ Forall (deficitOf
                  (calculatePlayingTimeTargets
                     (new (Game.roster exampleReportGame)
                        (Game.settings exampleReportGame)
                        (Game.periods exampleReportGame))))
               report.
Proof.
  assert (Hnd : NoDup (map Player.id (Game.roster exampleReportGame)))
    by compute_done.
  assert (Hne : GameManager.presentRoster exampleReportGame ≠ []) by done.
  split; [exact Hnd|]. split; [exact Hne|].
  exact (weighted_deficit_is_the_negated_report_difference exampleReportGame
           Hnd Hne).
Defined.

End WeightedEntries.
